(** * AsyncQueue: a bounded-concurrency, priority-ordered task queue

    Shallow embedding of the [AsyncQueue] class (exercise 06, async queue) and
    of the part of the JavaScript run time it relies on: promises created by
    [add], the promise chain built by [_process] for every dispatched entry,
    and the synchronous re-entrancy of drain callbacks.

    Numbers are integers ([Z]); the backlog is a list; a task is known by a
    name and its behaviour (when it settles, with which outcome, which calls
    it makes on the queue) is chosen by the environment, event by event.
    Client code may throw: an exception leaves the job it is thrown in
    through every call of the queue that is on the stack, up to the nearest
    [try] block of the client code, or to the end of the job. *)

From Stdlib Require Import List ZArith Lia Bool Arith Permutation Sorted.
Import ListNotations.

Local Open Scope Z_scope.

(** ** Data model *)

(** A task is a zero-argument function; the model only needs its identity. *)
Definition Task := nat.

(** Results and errors of tasks. *)
Definition Value := Z.

(** How a unit of work ends: its promise fulfils with a value, or the call
    throws / its promise rejects with an error. *)
Inductive Outcome :=
| Fulfilled (v : Value)
| Rejected (e : Value).

(** The object literal built in [add]:
    [{task, priority, resolve, reject}].  [resolve] and [reject] are the two
    settling functions of one promise, the one [add] returns; the field
    [handle] is the identity of that promise. *)
Record Entry := mkEntry {
  task : Task;
  priority : Z;
  handle : nat
}.

(** What a piece of client code (test harness, task body, drain callback)
    can do as far as the queue is concerned: call one of its methods, throw
    an exception ([CallThrow]), or run a block of such statements and catch
    what it throws ([CallTry body], [try { body } catch {}]).  A drain
    callback is a function value; the queue calls it with no argument and
    with no [try] of its own around the call.  It is represented by a name
    and by the statements its body executes when invoked (a registration is
    called at most once, so one list of statements describes what it does
    in a run); a value that is not callable is a callback whose body is
    [[CallThrow]]. *)
#[warnings="-register-all"]
Inductive Call :=
| CallAdd (t : Task) (p : option Z)
| CallStart
| CallPause
| CallClear
| CallOnEmpty (name : nat) (body : list Call)
| CallThrow
| CallTry (body : list Call).

Definition Callback := (nat * list Call)%type.

(** Progress of the promise chain that [_process] builds for one entry:
    [Promise.resolve().then(task).then(resolve).catch(reject).finally(...)]. *)
Inductive Stage :=
| Scheduled   (* the job calling [entry.task()] is queued *)
| Started     (* [entry.task()] was called, its outcome is awaited *)
| Settled.    (* [entry.resolve] or [entry.reject] was called *)

(** Observations: what a harness instrumenting the queue can see happen, the
    newest first in [log]. *)
Inductive Obs :=
| Accepted (h : nat) (p : Z)
| Dispatched (h : nat) (p : Z)
| Invoked (h : nat)
| ResolveCalled (h : nat) (v : Value)
| RejectCalled (h : nat) (e : Value)
| Finished (h : nat)
| Dropped (h : nat)
| PauseCalled
| StartCalled
| Registered (name : nat)
| Fired (name : nat) (size_seen : nat) (pending_seen : Z).

(** The six fields assigned by the constructor, followed by the run-time
    environment of the instance: the promise chains in flight, the settled
    promises among those returned by [add] (a promise that is not listed is
    pending), the allocation counter of promises, and the observation log. *)
Record AsyncQueue := mkQueue {
  concurrency : Z;
  autoStart : bool;
  queue : list Entry;
  running : Z;
  paused : bool;
  emptyCallbacks : list Callback;
  chains : list (Entry * Stage);
  promises : list (nat * Outcome);
  fresh : nat;
  log : list Obs
}.

Definition set_queue (q : list Entry) (s : AsyncQueue) : AsyncQueue :=
  mkQueue (concurrency s) (autoStart s) q (running s) (paused s)
          (emptyCallbacks s) (chains s) (promises s) (fresh s) (log s).

Definition set_running (n : Z) (s : AsyncQueue) : AsyncQueue :=
  mkQueue (concurrency s) (autoStart s) (queue s) n (paused s)
          (emptyCallbacks s) (chains s) (promises s) (fresh s) (log s).

Definition set_paused (b : bool) (s : AsyncQueue) : AsyncQueue :=
  mkQueue (concurrency s) (autoStart s) (queue s) (running s) b
          (emptyCallbacks s) (chains s) (promises s) (fresh s) (log s).

Definition set_emptyCallbacks (cbs : list Callback) (s : AsyncQueue) : AsyncQueue :=
  mkQueue (concurrency s) (autoStart s) (queue s) (running s) (paused s)
          cbs (chains s) (promises s) (fresh s) (log s).

Definition set_chains (cs : list (Entry * Stage)) (s : AsyncQueue) : AsyncQueue :=
  mkQueue (concurrency s) (autoStart s) (queue s) (running s) (paused s)
          (emptyCallbacks s) cs (promises s) (fresh s) (log s).

Definition set_promises (ps : list (nat * Outcome)) (s : AsyncQueue) : AsyncQueue :=
  mkQueue (concurrency s) (autoStart s) (queue s) (running s) (paused s)
          (emptyCallbacks s) (chains s) ps (fresh s) (log s).

Definition set_fresh (n : nat) (s : AsyncQueue) : AsyncQueue :=
  mkQueue (concurrency s) (autoStart s) (queue s) (running s) (paused s)
          (emptyCallbacks s) (chains s) (promises s) n (log s).

Definition observe (o : Obs) (s : AsyncQueue) : AsyncQueue :=
  mkQueue (concurrency s) (autoStart s) (queue s) (running s) (paused s)
          (emptyCallbacks s) (chains s) (promises s) (fresh s) (o :: log s).

(** ** JavaScript primitives used by the class *)

(** [x || d] on an optional integer: [undefined] and [0] are falsy. *)
Definition or_default (x : option Z) (d : Z) : Z :=
  match x with
  | Some v => if v =? 0 then d else v
  | None => d
  end.

(** [x !== false] on an optional boolean. *)
Definition not_false (x : option bool) : bool :=
  match x with
  | Some false => false
  | _ => true
  end.

(** [Array.prototype.sort] with the comparator
    [(a, b) => b.priority - a.priority].  The sort is stable (ECMAScript
    2019) and the comparator is a consistent ordering of integers, so the
    result is the stable descending arrangement; a stable insertion sort
    computes it.  [sort_insert e l] puts [e], which precedes every element
    of [l] in the array, in front of the first element its comparator does
    not put before [e]. *)
Fixpoint sort_insert (e : Entry) (l : list Entry) : list Entry :=
  match l with
  | [] => [e]
  | x :: l' =>
      if priority x - priority e >? 0   (* comparator (e, x) > 0 : x goes first *)
      then x :: sort_insert e l'
      else e :: x :: l'
  end.

Fixpoint sort (l : list Entry) : list Entry :=
  match l with
  | [] => []
  | e :: l' => sort_insert e (sort l')
  end.

(** A promise settles at most once: [resolve] and [reject] do nothing on a
    promise that is already settled. *)
Fixpoint promise_state (h : nat) (ps : list (nat * Outcome)) : option Outcome :=
  match ps with
  | [] => None
  | (h', o) :: ps' => if Nat.eqb h h' then Some o else promise_state h ps'
  end.

Definition settle_promise (h : nat) (o : Outcome) (ps : list (nat * Outcome))
  : list (nat * Outcome) :=
  match promise_state h ps with
  | Some _ => ps
  | None => (h, o) :: ps
  end.

(** Promise chains, found by the handle of their entry. *)
Fixpoint stage_of (h : nat) (cs : list (Entry * Stage)) : option Stage :=
  match cs with
  | [] => None
  | (e, st) :: cs' => if Nat.eqb (handle e) h then Some st else stage_of h cs'
  end.

Fixpoint set_stage (h : nat) (st : Stage) (cs : list (Entry * Stage))
  : list (Entry * Stage) :=
  match cs with
  | [] => []
  | (e, st') :: cs' =>
      if Nat.eqb (handle e) h then (e, st) :: cs'
      else (e, st') :: set_stage h st cs'
  end.

Fixpoint remove_chain (h : nat) (cs : list (Entry * Stage))
  : list (Entry * Stage) :=
  match cs with
  | [] => []
  | (e, st') :: cs' =>
      if Nat.eqb (handle e) h then cs'
      else (e, st') :: remove_chain h cs'
  end.

(** ** The class *)

Record Options := mkOptions {
  opt_concurrency : option Z;
  opt_autoStart : option bool
}.

Definition constructor (options : Options) : AsyncQueue :=
  mkQueue (or_default (opt_concurrency options) 1)
          (not_false (opt_autoStart options))
          [] 0 false [] [] [] 0%nat [].

(** Getters. *)
Definition size (s : AsyncQueue) : nat := length (queue s).
Definition pending (s : AsyncQueue) : Z := running s.
Definition isPaused (s : AsyncQueue) : bool := paused s.

(** One iteration of the loop of [_process]: [queue.shift()], [running++],
    and the promise chain of the entry is created, its first job queued. *)
Definition dispatch (entry : Entry) (rest : list Entry) (s : AsyncQueue)
  : AsyncQueue :=
  observe (Dispatched (handle entry) (priority entry))
    (set_chains (chains s ++ [(entry, Scheduled)])
       (set_running (running s + 1)
          (set_queue rest s))).

(** [while (running < concurrency && queue.length > 0)]; the first argument
    is the backlog of [s], on which the loop recurses. *)
Fixpoint process_while (q : list Entry) (s : AsyncQueue) : AsyncQueue :=
  match q with
  | [] => s
  | entry :: rest =>
      if running s <? concurrency s
      then process_while rest (dispatch entry rest s)
      else s
  end.

Definition _process (s : AsyncQueue) : AsyncQueue :=
  if paused s then s else process_while (queue s) s.

(** [add]: the executor of the returned promise runs synchronously.  The
    promise returned is the one numbered [fresh s]. *)
Definition add (t : Task) (priority_option : option Z) (s : AsyncQueue)
  : AsyncQueue :=
  let entry := mkEntry t (or_default priority_option 1) (fresh s) in
  let s1 := observe (Accepted (handle entry) (priority entry))
              (set_fresh (S (fresh s)) s) in
  let s2 := set_queue (queue s1 ++ [entry]) s1 in
  let s3 := set_queue (sort (queue s2)) s2 in
  if autoStart s3 && negb (paused s3) then _process s3 else s3.

Definition start (s : AsyncQueue) : AsyncQueue :=
  _process (set_paused false (observe StartCalled s)).

Definition pause (s : AsyncQueue) : AsyncQueue :=
  set_paused true (observe PauseCalled s).

Definition clear (s : AsyncQueue) : AsyncQueue :=
  set_queue []
    (fold_left (fun s' e => observe (Dropped (handle e)) s') (queue s) s).

Definition drained (s : AsyncQueue) : bool :=
  (length (queue s) =? 0)%nat && (running s =? 0).

(** [_checkEmpty] returns the queue after [this.emptyCallbacks = []] and the
    array [callbacks] whose elements [forEach] is about to call; calling
    them is the caller's work (see [exec]), because a callback may call back
    into the queue. *)
Definition _checkEmpty (s : AsyncQueue) : AsyncQueue * list Callback :=
  if drained s
  then (set_emptyCallbacks [] s, emptyCallbacks s)
  else (s, []).

Definition onEmpty (callback : Callback) (s : AsyncQueue)
  : AsyncQueue * list Callback :=
  let s1 := set_emptyCallbacks (emptyCallbacks s ++ [callback])
              (observe (Registered (fst callback)) s) in
  if drained s1 then _checkEmpty s1 else (s1, []).

(** ** The handlers of the promise chain of a dispatched entry *)

(** [.then(() => entry.task())]: the task is called. *)
Definition invoke (h : nat) (s : AsyncQueue) : AsyncQueue :=
  match stage_of h (chains s) with
  | Some Scheduled =>
      observe (Invoked h) (set_chains (set_stage h Started (chains s)) s)
  | _ => s
  end.

(** [.then(result => entry.resolve(result))] when the task fulfilled,
    [.catch(err => entry.reject(err))] when it threw or rejected: exactly one
    of the two handlers runs. *)
Definition settle (h : nat) (o : Outcome) (s : AsyncQueue) : AsyncQueue :=
  match stage_of h (chains s) with
  | Some Started =>
      observe (match o with
               | Fulfilled v => ResolveCalled h v
               | Rejected e => RejectCalled h e
               end)
        (set_promises (settle_promise h o (promises s))
           (set_chains (set_stage h Settled (chains s)) s))
  | _ => s
  end.

(** [.finally(() => { this.running--; this._process(); this._checkEmpty() })]. *)
Definition finally_ (h : nat) (s : AsyncQueue) : AsyncQueue * list Callback :=
  match stage_of h (chains s) with
  | Some Settled =>
      let s1 := observe (Finished h) (set_chains (remove_chain h (chains s)) s) in
      let s2 := set_running (running s1 - 1) s1 in
      let s3 := _process s2 in
      _checkEmpty s3
  | _ => (s, [])
  end.

(** ** Synchronous execution of client code *)

(** Work still to be done before the current job returns: statements of
    the running code, callbacks that [forEach] has not called yet, and the
    ends of the [try] blocks that were entered. *)
Inductive Instr :=
| Do (c : Call)
| Fire (cb : Callback)
| EndTry.

(** One instruction that returns; the second component is the work it puts
    in front of the rest (the body of a callback, the callbacks of a drain,
    the body of a [try] block).  [item()] in [forEach] is a plain call:
    the callback's body runs on the caller's stack. *)
Definition step (i : Instr) (s : AsyncQueue) : AsyncQueue * list Instr :=
  match i with
  | Do (CallAdd t p) => (add t p s, [])
  | Do CallStart => (start s, [])
  | Do CallPause => (pause s, [])
  | Do CallClear => (clear s, [])
  | Do (CallOnEmpty name body) =>
      let (s', cbs) := onEmpty (name, body) s in (s', map Fire cbs)
  | Do CallThrow => (s, [])
  | Do (CallTry body) => (s, map Do body ++ [EndTry])
  | Fire (name, body) =>
      (observe (Fired name (size s) (pending s)) s, map Do body)
  | EndTry => (s, [])
  end.

(** An exception abandons the work up to the end of the nearest enclosing
    [try] block: the rest of the callback that threw, the callbacks that
    [forEach] had still to call (the queue has no handler around
    [callbacks.forEach(item => item())], and [emptyCallbacks] was reset
    before), and the rest of whatever called the queue.  With no [try]
    block on the stack the job ends; when that job is the last one of a
    promise chain, the promise returned by [finally] rejects, which the
    class does not observe. *)
Fixpoint unwind (work : list Instr) : list Instr :=
  match work with
  | [] => []
  | EndTry :: rest => rest
  | _ :: rest => unwind rest
  end.

(** One instruction: the state and the work after it. *)
Definition next (i : Instr) (rest : list Instr) (s : AsyncQueue)
  : AsyncQueue * list Instr :=
  match i with
  | Do CallThrow => (s, unwind rest)
  | _ => let (s', more) := step i s in (s', more ++ rest)
  end.

Fixpoint exec (fuel : nat) (work : list Instr) (s : AsyncQueue)
  : option AsyncQueue :=
  match work with
  | [] => Some s
  | i :: rest =>
      match fuel with
      | O => None
      | S fuel' => let (s', work') := next i rest s in exec fuel' work' s'
      end
  end.

(** A bound on the number of instructions a piece of work can execute. *)
Fixpoint call_weight (c : Call) : nat :=
  match c with
  | CallOnEmpty _ body => S (S (list_sum (map call_weight body)))
  | CallTry body => S (S (list_sum (map call_weight body)))
  | _ => 1%nat
  end.

Definition callback_weight (cb : Callback) : nat :=
  S (list_sum (map call_weight (snd cb))).

Definition instr_weight (i : Instr) : nat :=
  match i with
  | Do c => call_weight c
  | Fire cb => callback_weight cb
  | EndTry => 1%nat
  end.

Definition potential (work : list Instr) (s : AsyncQueue) : nat :=
  (list_sum (map instr_weight work)
   + list_sum (map callback_weight (emptyCallbacks s)))%nat.

Definition run (work : list Instr) (s : AsyncQueue) : AsyncQueue :=
  match exec (S (potential work s)) work s with
  | Some s' => s'
  | None => s
  end.

(** ** The event loop *)

(** What can happen to a queue: client code calls it, or one of the jobs of
    a promise chain runs. *)
Inductive Event :=
| EvCall (c : Call)
| EvInvoke (h : nat)
| EvOutcome (h : nat) (o : Outcome)
| EvFinally (h : nat).

Definition react (ev : Event) (s : AsyncQueue) : AsyncQueue :=
  match ev with
  | EvCall c => run [Do c] s
  | EvInvoke h => invoke h s
  | EvOutcome h o => settle h o s
  | EvFinally h => let (s', cbs) := finally_ h s in run (map Fire cbs) s'
  end.

Definition run_events (evs : list Event) (s : AsyncQueue) : AsyncQueue :=
  fold_left (fun s' ev => react ev s') evs s.

(** The queue at a moment inside a job: after [k] instructions of the
    synchronous work ([k] statements of client code or calls of callbacks),
    and the work that remains. *)
Fixpoint advance (k : nat) (work : list Instr) (s : AsyncQueue)
  : AsyncQueue * list Instr :=
  match k, work with
  | S k', i :: rest => let (s', work') := next i rest s in advance k' work' s'
  | _, _ => (s, work)
  end.

Definition during (k : nat) (ev : Event) (s : AsyncQueue) : AsyncQueue :=
  match ev with
  | EvCall c => fst (advance k [Do c] s)
  | EvFinally h => let (s', cbs) := finally_ h s in fst (advance k (map Fire cbs) s')
  | _ => react ev s
  end.

(** Everything a queue built with [options] can become. *)
Definition reachable_from (options : Options) (s : AsyncQueue) : Prop :=
  exists evs, s = run_events evs (constructor options).

(** A reading of the log: the priorities of the entries dispatched so far,
    the first dispatched first. *)
Definition priority_order (s : AsyncQueue) : list Z :=
  rev (flat_map (fun o => match o with Dispatched _ p => [p] | _ => [] end)
         (log s)).

(** The three jobs of the promise chain of entry [h], run one after the
    other, the task ending with outcome [o]. *)
Definition complete (h : nat) (o : Outcome) : list Event :=
  [EvInvoke h; EvOutcome h o; EvFinally h].

(** ** Vocabulary of the properties *)

(** A job of a promise chain, as opposed to a call by client code. *)
Definition chain_event (ev : Event) : Prop :=
  match ev with
  | EvCall _ => False
  | _ => True
  end.

(** A job of a promise chain, where the task of entry [h] ends with the
    outcome [out h]. *)
Definition chain_job (out : nat -> Outcome) (ev : Event) : Prop :=
  match ev with
  | EvCall _ => False
  | EvOutcome h o => o = out h
  | _ => True
  end.

(** What the client has to do for the backlog to be served: nothing on a
    queue that dispatches on admission and is not paused, one call of
    [start()] otherwise. *)
Definition resume (s : AsyncQueue) : list Event :=
  if autoStart s && negb (paused s) then [] else [EvCall CallStart].

(** Free concurrency slots. *)
Definition slots (s : AsyncQueue) : nat := Z.to_nat (concurrency s - running s).

(** The chain created for a dispatched entry. *)
Definition new_chain (e : Entry) : Entry * Stage := (e, Scheduled).

Definition dispatch_obs (e : Entry) : Obs :=
  Dispatched (handle e) (priority e).

(** The running count is within the limit [N] of the queue. *)
Definition within_limit (N : Z) (s : AsyncQueue) : Prop :=
  concurrency s = N /\ running s <= N.

(** *** Counting *)

(** Number of occurrences of [h] in a list of handles. *)
Fixpoint count (h : nat) (l : list nat) : nat :=
  match l with
  | [] => 0%nat
  | x :: l' => ((if Nat.eqb x h then 1 else 0) + count h l')%nat
  end.

(** The kinds of observation that concern one entry, or one drain callback
    (which is counted under its name). *)
Inductive Kind :=
| KAccepted | KDispatched | KInvoked | KSettled | KFinished | KDropped
| KRegistered | KFired.

Definition obs_handle (k : Kind) (o : Obs) : list nat :=
  match k, o with
  | KAccepted, Accepted h _ => [h]
  | KDispatched, Dispatched h _ => [h]
  | KInvoked, Invoked h => [h]
  | KSettled, ResolveCalled h _ => [h]
  | KSettled, RejectCalled h _ => [h]
  | KFinished, Finished h => [h]
  | KDropped, Dropped h => [h]
  | KRegistered, Registered name => [name]
  | KFired, Fired name _ _ => [name]
  | _, _ => []
  end.

(** The handles for which the log holds an observation of kind [k], and how
    many times it holds one for [h]. *)
Definition seen (k : Kind) (l : list Obs) : list nat := flat_map (obs_handle k) l.

Definition times (k : Kind) (h : nat) (s : AsyncQueue) : nat :=
  count h (seen k (log s)).

(** The handles of the entries dispatched so far, the first dispatched
    first. *)
Definition dispatch_order (s : AsyncQueue) : list nat :=
  rev (seen KDispatched (log s)).

(** Number of backlog entries whose handle is [h]. *)
Definition in_backlog (h : nat) (s : AsyncQueue) : nat :=
  count h (map handle (queue s)).

Definition stage_eqb (a b : Stage) : bool :=
  match a, b with
  | Scheduled, Scheduled | Started, Started | Settled, Settled => true
  | _, _ => false
  end.

(** Number of promise chains of handle [h] that are at stage [st]. *)
Fixpoint count_stage (st : Stage) (h : nat) (cs : list (Entry * Stage)) : nat :=
  match cs with
  | [] => 0%nat
  | (e, st') :: cs' =>
      ((if Nat.eqb (handle e) h && stage_eqb st' st then 1 else 0)
       + count_stage st h cs')%nat
  end.

Definition in_flight (st : Stage) (h : nat) (s : AsyncQueue) : nat :=
  count_stage st h (chains s).

(** What the calls of [resolve] and [reject] recorded in the log make of the
    promise [h]: the oldest call wins, later ones are ignored. *)
Fixpoint log_outcome (h : nat) (l : list Obs) : option Outcome :=
  match l with
  | [] => None
  | o :: l' =>
      match log_outcome h l' with
      | Some r => Some r
      | None =>
          match o with
          | ResolveCalled h' v => if Nat.eqb h h' then Some (Fulfilled v) else None
          | RejectCalled h' e => if Nat.eqb h h' then Some (Rejected e) else None
          | _ => None
          end
      end
  end.

(** The accounts of handle [h]: it was admitted once if it has been
    allocated and never otherwise; an admitted entry is in the backlog, or
    was dispatched, or was dropped by [clear]; a dispatched entry has a
    promise chain or has finished; its task was called, and its promise
    settled, as many times as its chain passed the corresponding stage. *)
Definition lifecycle (h : nat) (s : AsyncQueue) : Prop :=
  times KAccepted h s = (if (h <? fresh s)%nat then 1 else 0)%nat
  /\ times KAccepted h s
     = (in_backlog h s + times KDispatched h s + times KDropped h s)%nat
  /\ times KDispatched h s
     = (in_flight Scheduled h s + in_flight Started h s + in_flight Settled h s
        + times KFinished h s)%nat
  /\ times KInvoked h s
     = (in_flight Started h s + in_flight Settled h s + times KFinished h s)%nat
  /\ times KSettled h s
     = (in_flight Settled h s + times KFinished h s)%nat.

(** The promise store follows the calls of [resolve] and [reject]. *)
Definition promises_follow_log (s : AsyncQueue) : Prop :=
  forall h, promise_state h (promises s) = log_outcome h (log s).

(** The accounts balance, the state of every promise is the one its settling
    calls produce, and the running count is the number of promise chains. *)
Definition coherent (s : AsyncQueue) : Prop :=
  (forall h, lifecycle h s)
  /\ promises_follow_log s
  /\ running s = Z.of_nat (length (chains s)).

(** *** The state changes the operations are built from *)

(** [add] up to its last line: the promise is created, the entry pushed and
    the backlog sorted. *)
Definition enqueue (t : Task) (p : option Z) (s : AsyncQueue) : AsyncQueue :=
  set_queue (sort (queue s ++ [mkEntry t (or_default p 1) (fresh s)]))
    (observe (Accepted (fresh s) (or_default p 1))
       (set_fresh (S (fresh s)) s)).

(** The first job of a chain. *)
Definition begin_task (h : nat) (s : AsyncQueue) : AsyncQueue :=
  observe (Invoked h) (set_chains (set_stage h Started (chains s)) s).

(** The last job of a chain, up to [this.running--]. *)
Definition finish (h : nat) (s : AsyncQueue) : AsyncQueue :=
  set_running (running s - 1)
    (observe (Finished h) (set_chains (remove_chain h (chains s)) s)).

(** [P] is kept by each of these state changes, made where the code makes
    them, in the states where [I] holds. *)
Record stable_under (I P : AsyncQueue -> Prop) : Prop := mkStable {
  keeps_enqueue : forall t p s, I s -> P s -> P (enqueue t p s);
  keeps_dispatch : forall e rest s,
    queue s = e :: rest -> running s < concurrency s -> paused s = false ->
    I s -> P s -> P (dispatch e rest s);
  keeps_start : forall s, I s -> P s -> P (set_paused false (observe StartCalled s));
  keeps_pause : forall s, I s -> P s -> P (pause s);
  keeps_clear : forall s, I s -> P s -> P (clear s);
  keeps_callbacks : forall cbs s, I s -> P s -> P (set_emptyCallbacks cbs s);
  keeps_register : forall name s, I s -> P s -> P (observe (Registered name) s);
  keeps_fire : forall name sz pd s, I s -> P s -> P (observe (Fired name sz pd) s);
  keeps_begin_task : forall h s,
    stage_of h (chains s) = Some Scheduled -> I s -> P s -> P (begin_task h s);
  keeps_settle : forall h o s,
    stage_of h (chains s) = Some Started -> I s -> P s -> P (settle h o s);
  keeps_finish : forall h s,
    stage_of h (chains s) = Some Settled -> I s -> P s -> P (finish h s)
}.

Definition stable (P : AsyncQueue -> Prop) : Prop := stable_under (fun _ => True) P.

(** A queue at work with no free slot. *)
Definition busy (s : AsyncQueue) : Prop :=
  paused s = false /\ running s = concurrency s /\ 0 < concurrency s
  /\ coherent s.

(** The admitted entry [h] is being served: it has finished, or it was not
    dropped and the queue is at work, with no backlog while a slot is
    free. *)
Definition in_service (h : nat) (s : AsyncQueue) : Prop :=
  coherent s /\ times KAccepted h s = 1%nat
  /\ ((paused s = false /\ 0 < concurrency s
       /\ (queue s = [] \/ concurrency s <= running s)
       /\ times KDropped h s = 0%nat)
      \/ times KFinished h s = 1%nat).

(** *** Order of the backlog *)

(** [a] may stand before [b] in an array sorted by the comparator. *)
Definition by_priority (a b : Entry) : Prop := priority b <= priority a.

(** [a] is served before [b]: its priority is higher, or it is the same and
    [a] was admitted first. *)
Definition ahead (a b : Entry) : Prop :=
  priority b < priority a
  \/ (priority a = priority b /\ (handle a < handle b)%nat).

Definition same_priority (p : Z) (e : Entry) : bool := priority e =? p.

(** Where the sort puts an entry pushed at the end of a sorted backlog:
    behind every entry whose priority is at least its own. *)
Fixpoint place (e : Entry) (q : list Entry) : list Entry :=
  match q with
  | [] => [e]
  | x :: q' => if priority x <? priority e then e :: q else x :: place e q'
  end.

(** First-in-first-out among equal priorities, read on the log: whenever an
    entry was dispatched, every entry admitted before it with the same
    priority had been dispatched already, or dropped by [clear]. *)
Fixpoint fifo_log (l : list Obs) : Prop :=
  match l with
  | [] => True
  | o :: l' =>
      match o with
      | Dispatched hb p =>
          forall ha, (ha < hb)%nat -> In (Accepted ha p) l' ->
                     In ha (seen KDispatched l') \/ In ha (seen KDropped l')
      | _ => True
      end /\ fifo_log l'
  end.

(** The backlog is in serving order, and the log tells the priority of its
    entries. *)
Definition backlog_ordered (s : AsyncQueue) : Prop :=
  StronglySorted ahead (queue s)
  /\ (forall e, In e (queue s) -> In (Accepted (handle e) (priority e)) (log s)).

(** A queue that dispatches on admission has no backlog while a slot is
    free. *)
Definition eager (s : AsyncQueue) : Prop :=
  autoStart s = true -> paused s = false ->
  queue s = [] \/ concurrency s <= running s.

(** *** Pausing, read on the log *)

(** The value of [paused] after the calls recorded in a log. *)
Fixpoint paused_after (l : list Obs) : bool :=
  match l with
  | [] => false
  | PauseCalled :: _ => true
  | StartCalled :: _ => false
  | _ :: l' => paused_after l'
  end.

(** Every dispatch recorded in the log was made while the queue was not
    paused. *)
Fixpoint dispatch_only_unpaused (l : list Obs) : Prop :=
  match l with
  | [] => True
  | o :: l' =>
      match o with
      | Dispatched _ _ => paused_after l' = false
      | _ => True
      end /\ dispatch_only_unpaused l'
  end.

Definition pause_respected (s : AsyncQueue) : Prop :=
  paused s = paused_after (log s) /\ dispatch_only_unpaused (log s).

(** *** Queues that differ only in the outcome of one task *)

(** [s1] and [s2] have the same fields and promise chains, the same state
    of every promise but the one of handle [h], and logs that tell the same
    about every entry. *)
Definition alike (h : nat) (s1 s2 : AsyncQueue) : Prop :=
  concurrency s1 = concurrency s2 /\ autoStart s1 = autoStart s2
  /\ queue s1 = queue s2 /\ running s1 = running s2
  /\ paused s1 = paused s2 /\ emptyCallbacks s1 = emptyCallbacks s2
  /\ chains s1 = chains s2 /\ fresh s1 = fresh s2
  /\ (forall h', h' <> h ->
        promise_state h' (promises s1) = promise_state h' (promises s2))
  /\ (forall k, seen k (log s1) = seen k (log s2)).

(** *** Drain callbacks *)

(** Registrations of the callback named [n] that are waiting in
    [emptyCallbacks], and calls of it that [forEach] has yet to make. *)
Definition waiting (n : nat) (s : AsyncQueue) : nat :=
  count n (map fst (emptyCallbacks s)).

Definition fire_name (i : Instr) : list nat :=
  match i with
  | Fire cb => [fst cb]
  | _ => []
  end.

Definition in_work (n : nat) (work : list Instr) : nat :=
  count n (flat_map fire_name work).


(** Client code in which no [throw] statement occurs. *)
Fixpoint calm (c : Call) : bool :=
  match c with
  | CallThrow => false
  | CallOnEmpty _ body => forallb calm body
  | CallTry body => forallb calm body
  | _ => true
  end.

Definition calm_callback (cb : Callback) : Prop := forallb calm (snd cb) = true.

Definition calm_instr (i : Instr) : Prop :=
  match i with
  | Do c => calm c = true
  | Fire cb => calm_callback cb
  | EndTry => True
  end.


(** Nothing that is about to run, and no callback that waits, throws. *)
Definition calm_work (work : list Instr) (s : AsyncQueue) : Prop :=
  Forall calm_instr work /\ Forall calm_callback (emptyCallbacks s).







(** Callbacks that neither call back into the queue nor throw: as far as
    the queue is concerned their body is empty. *)
Definition silent_callback (cb : Callback) : Prop := snd cb = [].

(** Observations that are not about drain callbacks. *)
Definition quiet (o : Obs) : Prop :=
  match o with
  | Registered _ | Fired _ _ _ => False
  | _ => True
  end.

(** From [s] to [s'] no callback was registered, released or called. *)
Definition undisturbed (s s' : AsyncQueue) : Prop :=
  emptyCallbacks s' = emptyCallbacks s
  /\ exists l, log s' = l ++ log s /\ Forall quiet l.





(** *** Further vocabulary: totals, triggers of dispatch, order of service *)

(** How many observations of kind [k] the log holds. *)
Definition total (k : Kind) (s : AsyncQueue) : nat := length (seen k (log s)).

(** The most recent observation of a log that is not a dispatch: what the
    queue was doing when the dispatches recorded after it were made. *)
Fixpoint trigger (l : list Obs) : option Obs :=
  match l with
  | [] => None
  | Dispatched _ _ :: l' => trigger l'
  | o :: _ => Some o
  end.

Definition starts_dispatch (o : option Obs) : Prop :=
  match o with
  | Some StartCalled | Some (Finished _) => True
  | _ => False
  end.

(** Every dispatch of the log was made by [start()] or by the last job of a
    finishing task. *)
Fixpoint dispatched_on_start_or_finish (l : list Obs) : Prop :=
  match l with
  | [] => True
  | o :: l' =>
      match o with
      | Dispatched _ _ => starts_dispatch (trigger l')
      | _ => True
      end /\ dispatched_on_start_or_finish l'
  end.

(** Highest priority first, read on the log: whenever an entry was
    dispatched, no entry of higher priority was waiting. *)
Fixpoint highest_first_log (l : list Obs) : Prop :=
  match l with
  | [] => True
  | o :: l' =>
      match o with
      | Dispatched hb pb =>
          forall ha pa, In (Accepted ha pa) l' -> pb < pa ->
                        In ha (seen KDispatched l') \/ In ha (seen KDropped l')
      | _ => True
      end /\ highest_first_log l'
  end.

(** The observation a callback leaves when it is called. *)
Definition fired_obs (s : AsyncQueue) (cb : Callback) : Obs :=
  Fired (fst cb) (size s) (pending s).

(** The tasks admitted are in the backlog, dispatched or dropped; the tasks
    dispatched are running or finished. *)
Definition totals_balance (s : AsyncQueue) : Prop :=
  total KAccepted s = fresh s
  /\ Z.of_nat (total KAccepted s)
     = Z.of_nat (size s) + Z.of_nat (total KDispatched s)
       + Z.of_nat (total KDropped s)
  /\ Z.of_nat (total KDispatched s) = pending s + Z.of_nat (total KFinished s).

(** * Properties *)

(** ** Field access after the setters *)

Lemma emptyCallbacks_process_while : forall q s,
  emptyCallbacks (process_while q s) = emptyCallbacks s.
Proof.
  induction q as [|e q IH]; intros s; simpl; [reflexivity|].
  destruct (running s <? concurrency s); [|reflexivity].
  rewrite IH. reflexivity.
Qed.

Lemma emptyCallbacks_process : forall s,
  emptyCallbacks (_process s) = emptyCallbacks s.
Proof.
  intros s. unfold _process. destruct (paused s); [reflexivity|].
  apply emptyCallbacks_process_while.
Qed.

Lemma emptyCallbacks_add : forall t p s,
  emptyCallbacks (add t p s) = emptyCallbacks s.
Proof.
  intros t p s. unfold add. cbv zeta.
  match goal with |- context [if ?c then _ else _] => destruct c end;
    [rewrite emptyCallbacks_process|]; reflexivity.
Qed.

Lemma emptyCallbacks_start : forall s,
  emptyCallbacks (start s) = emptyCallbacks s.
Proof. intros s. unfold start. rewrite emptyCallbacks_process. reflexivity. Qed.

Lemma clear_fields : forall s,
  let s' := clear s in
  concurrency s' = concurrency s /\ autoStart s' = autoStart s /\
  queue s' = [] /\ running s' = running s /\ paused s' = paused s /\
  emptyCallbacks s' = emptyCallbacks s /\ chains s' = chains s /\
  promises s' = promises s /\ fresh s' = fresh s.
Proof.
  intros s. unfold clear. simpl.
  generalize (queue s) as q. intros q. revert s.
  induction q as [|e q IH]; intros s; simpl; [tauto|].
  specialize (IH (observe (Dropped (handle e)) s)). simpl in IH. tauto.
Qed.

(** ** Synchronous client code always returns *)

Lemma potential_app : forall w1 w2 s,
  potential (w1 ++ w2) s
  = (list_sum (map instr_weight w1) + potential w2 s)%nat.
Proof.
  intros. unfold potential. rewrite map_app, list_sum_app. lia.
Qed.

Lemma weight_map_Fire : forall cbs,
  list_sum (map instr_weight (map Fire cbs)) = list_sum (map callback_weight cbs).
Proof. induction cbs; simpl; auto. Qed.

Lemma weight_map_Do : forall body,
  list_sum (map instr_weight (map Do body)) = list_sum (map call_weight body).
Proof. induction body; simpl; auto. Qed.

(** Every instruction uses up some of the potential: the callbacks it
    releases were counted with the queue, the body it starts was counted
    with the callback. *)
Lemma step_potential : forall i rest s,
  (potential (snd (step i s) ++ rest) (fst (step i s))
   < potential (i :: rest) s)%nat.
Proof.
  intros i rest s. rewrite potential_app.
  destruct i as [c|[name body]|].
  - destruct c as [t p| | | |name body| |body]; simpl.
    + unfold potential. rewrite emptyCallbacks_add. simpl. lia.
    + unfold potential. rewrite emptyCallbacks_start. simpl. lia.
    + unfold potential. simpl. lia.
    + unfold potential.
      destruct (clear_fields s) as (_ & _ & _ & _ & _ & E & _). rewrite E.
      simpl. lia.
    + change (instr_weight (Do (CallOnEmpty name body)))
        with (S (callback_weight (name, body))).
      generalize (callback_weight (name, body)) as w. intros w.
      unfold onEmpty, _checkEmpty. cbv zeta.
      match goal with |- context [if ?c then _ else _] => destruct c end.
      * cbn [fst snd]. rewrite weight_map_Fire.
        unfold potential. cbn [emptyCallbacks set_emptyCallbacks map list_sum].
        rewrite map_app, list_sum_app.
        change (callback_weight (name, body)) with w. simpl. lia.
      * cbn [fst snd]. unfold potential.
        cbn [emptyCallbacks set_emptyCallbacks map list_sum].
        rewrite map_app, list_sum_app.
        change (callback_weight (name, body)) with w. simpl. lia.
    + unfold potential. simpl. lia.
    + rewrite map_app, list_sum_app, weight_map_Do.
      unfold potential. simpl. lia.
  - cbn [step fst snd]. rewrite weight_map_Do.
    unfold potential. cbn [emptyCallbacks observe map list_sum].
    change (instr_weight (Fire (name, body)))
      with (S (list_sum (map call_weight body))).
    generalize (list_sum (map call_weight body)) as w. intros w. simpl. lia.
  - unfold potential. simpl. lia.
Qed.

(** An instruction either throws or returns. *)
Lemma next_cases : forall i rest s,
  (i = Do CallThrow /\ next i rest s = (s, unwind rest))
  \/ (i <> Do CallThrow
      /\ next i rest s = (fst (step i s), snd (step i s) ++ rest)).
Proof.
  intros i rest s.
  destruct i as [c|cb|]; [destruct c|..];
    try (left; split; reflexivity);
    right; (split; [discriminate|]); unfold next;
    destruct (step _ s); reflexivity.
Qed.

Lemma next_step : forall i rest s,
  i <> Do CallThrow ->
  next i rest s = (fst (step i s), snd (step i s) ++ rest).
Proof.
  intros i rest s Hi.
  destruct (next_cases i rest s) as [[E _]|[_ E]]; [contradiction|exact E].
Qed.

Lemma fst_next : forall i rest s, fst (next i rest s) = fst (step i s).
Proof.
  intros i rest s.
  destruct (next_cases i rest s) as [[-> E]|[_ E]]; rewrite E; reflexivity.
Qed.

Lemma unwind_weight : forall work,
  (list_sum (map instr_weight (unwind work))
   <= list_sum (map instr_weight work))%nat.
Proof.
  induction work as [|i work IH]; simpl; [lia|].
  destruct i; simpl; lia.
Qed.


Lemma next_potential : forall i rest s,
  (potential (snd (next i rest s)) (fst (next i rest s))
   < potential (i :: rest) s)%nat.
Proof.
  intros i rest s.
  destruct (next_cases i rest s) as [[-> E]|[_ E]]; rewrite E; cbn [fst snd].
  - pose proof (unwind_weight rest). unfold potential. simpl. lia.
  - apply step_potential.
Qed.

Lemma exec_enough_fuel : forall fuel work s,
  (potential work s <= fuel)%nat -> exists s', exec fuel work s = Some s'.
Proof.
  induction fuel as [|fuel IH]; intros work s Hp.
  - destruct work as [|i rest]; [exists s; reflexivity|].
    pose proof (next_potential i rest s). lia.
  - destruct work as [|i rest]; [exists s; reflexivity|].
    cbn [exec]. pose proof (next_potential i rest s) as Hs.
    destruct (next i rest s) as [s' work']. simpl in Hs.
    apply IH. lia.
Qed.

Lemma exec_more_fuel : forall fuel fuel' work s s',
  exec fuel work s = Some s' -> (fuel <= fuel')%nat ->
  exec fuel' work s = Some s'.
Proof.
  induction fuel as [|fuel IH]; intros fuel' work s s' He Hle.
  - destruct work; [|discriminate]. destruct fuel'; exact He.
  - destruct work as [|i rest]; [destruct fuel'; exact He|].
    destruct fuel' as [|fuel']; [lia|].
    cbn [exec] in *. destruct (next i rest s) as [s1 work'].
    apply IH with (fuel' := fuel') in He; [exact He|lia].
Qed.

Lemma exec_run : forall fuel work s,
  (potential work s <= fuel)%nat -> exec fuel work s = Some (run work s).
Proof.
  intros fuel work s Hp. unfold run.
  destruct (exec_enough_fuel (S (potential work s)) work s) as [s1 E1]; [lia|].
  rewrite E1.
  destruct (exec_enough_fuel fuel work s Hp) as [s2 E2]. rewrite E2.
  apply exec_more_fuel with (fuel' := (fuel + S (potential work s))%nat) in E1; [|lia].
  apply exec_more_fuel with (fuel' := (fuel + S (potential work s))%nat) in E2; [|lia].
  congruence.
Qed.

Lemma run_nil : forall s, run [] s = s.
Proof. reflexivity. Qed.

Lemma run_next : forall i rest s,
  run (i :: rest) s = run (snd (next i rest s)) (fst (next i rest s)).
Proof.
  intros i rest s.
  pose proof (exec_run (S (potential (i :: rest) s)) (i :: rest) s) as E.
  cbn [exec] in E. pose proof (next_potential i rest s) as Hs.
  destruct (next i rest s) as [s1 work']. cbn [fst snd] in *.
  rewrite exec_run in E by lia.
  assert (L : (potential (i :: rest) s <= S (potential (i :: rest) s))%nat) by lia.
  specialize (E L). congruence.
Qed.

(** An instruction that returns is followed by the work it started and by
    the rest. *)
Lemma run_cons : forall i rest s,
  i <> Do CallThrow ->
  run (i :: rest) s = run (snd (step i s) ++ rest) (fst (step i s)).
Proof.
  intros i rest s Hi. rewrite run_next, next_step by exact Hi. reflexivity.
Qed.

(** An exception is followed by what the nearest [try] block leaves. *)
Lemma run_throw : forall rest s,
  run (Do CallThrow :: rest) s = run (unwind rest) s.
Proof. intros rest s. rewrite run_next. reflexivity. Qed.

(** ** Invariants of synchronous execution *)

Section ExecInvariant.
Variable Q : list Instr -> AsyncQueue -> Prop.
Hypothesis Q_step : forall i rest s,
  i <> Do CallThrow ->
  Q (i :: rest) s -> Q (snd (step i s) ++ rest) (fst (step i s)).
Hypothesis Q_throw : forall rest s,
  Q (Do CallThrow :: rest) s -> Q (unwind rest) s.

Lemma Q_next : forall i rest s,
  Q (i :: rest) s -> Q (snd (next i rest s)) (fst (next i rest s)).
Proof.
  intros i rest s Hq.
  destruct (next_cases i rest s) as [[-> E]|[Hi E]]; rewrite E; cbn [fst snd].
  - apply Q_throw. exact Hq.
  - apply Q_step; assumption.
Qed.

Lemma exec_invariant : forall fuel work s s',
  exec fuel work s = Some s' -> Q work s -> Q [] s'.
Proof.
  induction fuel as [|fuel IH]; intros work s s' He Hq.
  - destruct work; [|discriminate]. inversion He; subst. exact Hq.
  - destruct work as [|i rest].
    + inversion He; subst. exact Hq.
    + cbn [exec] in He. pose proof (Q_next i rest s Hq) as Hq'.
      destruct (next i rest s) as [s1 work']. cbn [fst snd] in Hq'. eauto.
Qed.

Lemma run_invariant : forall work s, Q work s -> Q [] (run work s).
Proof.
  intros work s Hq.
  apply exec_invariant with (fuel := potential work s) (work := work) (s := s);
    [apply exec_run; lia|exact Hq].
Qed.
End ExecInvariant.

(** A property of the queue alone that every operation preserves holds in
    every state the queue reaches. *)
Section StateInvariant.
Variable P : AsyncQueue -> Prop.
Hypothesis P_add : forall t p s, P s -> P (add t p s).
Hypothesis P_start : forall s, P s -> P (start s).
Hypothesis P_pause : forall s, P s -> P (pause s).
Hypothesis P_clear : forall s, P s -> P (clear s).
Hypothesis P_onEmpty : forall cb s, P s -> P (fst (onEmpty cb s)).
Hypothesis P_fire : forall name s, P s -> P (observe (Fired name (size s) (pending s)) s).
Hypothesis P_invoke : forall h s, P s -> P (invoke h s).
Hypothesis P_settle : forall h o s, P s -> P (settle h o s).
Hypothesis P_finally : forall h s, P s -> P (fst (finally_ h s)).

Lemma step_preserves : forall i s, P s -> P (fst (step i s)).
Proof.
  intros [c|[name body]|] s Hs; simpl; auto.
  destruct c as [t p| | | |name body| |body]; simpl; auto.
  specialize (P_onEmpty (name, body) s Hs).
  destruct (onEmpty (name, body) s); exact P_onEmpty.
Qed.

Lemma run_preserves : forall work s, P s -> P (run work s).
Proof.
  intros work s Hs.
  apply (run_invariant (fun _ s => P s)); [| |exact Hs].
  - intros i rest s0 _ H0. apply step_preserves. exact H0.
  - intros rest s0 H0. exact H0.
Qed.

Lemma react_preserves : forall ev s, P s -> P (react ev s).
Proof.
  intros [c|h|h o|h] s Hs; simpl; auto using run_preserves.
  specialize (P_finally h s Hs).
  destruct (finally_ h s) as [s' cbs]. apply run_preserves. exact P_finally.
Qed.

Lemma run_events_preserves : forall evs s, P s -> P (run_events evs s).
Proof.
  induction evs as [|ev evs IH]; intros s Hs; simpl; [exact Hs|].
  apply IH, react_preserves, Hs.
Qed.

Lemma reachable_invariant : forall options s,
  P (constructor options) -> reachable_from options s -> P s.
Proof.
  intros options s H0 [evs ->]. apply run_events_preserves. exact H0.
Qed.
End StateInvariant.


(** ** The dispatch loop in closed form *)

(** The loop dispatches the first [slots s] entries of the backlog, in the
    order of the backlog, and leaves the rest. *)
Lemma process_while_closed : forall q s,
  queue s = q ->
  process_while q s =
  mkQueue (concurrency s) (autoStart s) (skipn (slots s) q)
          (running s + Z.of_nat (length (firstn (slots s) q)))
          (paused s) (emptyCallbacks s)
          (chains s ++ map new_chain (firstn (slots s) q))
          (promises s) (fresh s)
          (rev (map dispatch_obs (firstn (slots s) q)) ++ log s).
Proof.
  induction q as [|e rest IH]; intros s Hq.
  - rewrite firstn_nil, skipn_nil. simpl. rewrite app_nil_r, Z.add_0_r.
    destruct s; simpl in *; subst; reflexivity.
  - simpl process_while. destruct (running s <? concurrency s) eqn:Hlt.
    + apply Z.ltb_lt in Hlt.
      rewrite IH by reflexivity.
      assert (Hk : slots s = S (slots (dispatch e rest s))).
      { unfold slots. simpl. lia. }
      rewrite Hk. simpl firstn. simpl skipn.
      cbn [concurrency autoStart running paused emptyCallbacks chains
           promises fresh log dispatch observe set_chains set_running set_queue].
      f_equal.
      * cbn [length]. lia.
      * rewrite <- app_assoc. reflexivity.
      * cbn [map rev]. rewrite <- app_assoc. reflexivity.
    + apply Z.ltb_ge in Hlt.
      assert (Hk : slots s = 0%nat) by (unfold slots; lia).
      rewrite Hk. simpl. rewrite app_nil_r, Z.add_0_r.
      destruct s; simpl in *; subst; reflexivity.
Qed.

Lemma length_firstn_slots : forall s (q : list Entry),
  running s <= concurrency s ->
  running s + Z.of_nat (length (firstn (slots s) q)) <= concurrency s.
Proof.
  intros s q Hle. rewrite length_firstn. unfold slots. lia.
Qed.


(** ** C1: the running count stays within the limit *)

Lemma within_limit_process : forall N s,
  within_limit N s -> within_limit N (_process s).
Proof.
  intros N s [Hc Hr]. unfold _process. destruct (paused s); [split; assumption|].
  rewrite process_while_closed by reflexivity. split; simpl; [exact Hc|].
  rewrite <- Hc. apply length_firstn_slots. lia.
Qed.

Lemma within_limit_add : forall N t p s,
  within_limit N s -> within_limit N (add t p s).
Proof.
  intros N t p s H. unfold add. cbv zeta.
  match goal with |- context [if ?c then _ else _] => destruct c end;
    [apply within_limit_process|]; exact H.
Qed.

Lemma within_limit_finally : forall N h s,
  within_limit N s -> within_limit N (fst (finally_ h s)).
Proof.
  intros N h s [Hc Hr]. unfold finally_.
  destruct (stage_of h (chains s)) as [[| |]|]; simpl; try (split; assumption).
  unfold _checkEmpty. cbv zeta.
  match goal with |- context [if ?c then _ else _] => destruct c end; simpl;
    apply within_limit_process; split; simpl; lia.
Qed.

Lemma within_limit_reachable : forall options s,
  0 <= concurrency (constructor options) ->
  reachable_from options s ->
  within_limit (concurrency (constructor options)) s.
Proof.
  intros options s HN Hr.
  apply (reachable_invariant (within_limit (concurrency (constructor options))))
    with (options := options); try exact Hr.
  - apply within_limit_add.
  - intros s0 H0. unfold start. apply within_limit_process. exact H0.
  - intros s0 H0. exact H0.
  - intros s0 [Hc Hl]. destruct (clear_fields s0) as (E1 & _ & _ & E2 & _).
    split; congruence.
  - intros cb s0 H0. unfold onEmpty, _checkEmpty. cbv zeta.
    match goal with |- context [if ?c then _ else _] => destruct c end; exact H0.
  - intros name s0 H0. exact H0.
  - intros h s0 H0. unfold invoke.
    destruct (stage_of h (chains s0)) as [[| |]|]; exact H0.
  - intros h o s0 H0. unfold settle.
    destruct (stage_of h (chains s0)) as [[| |]|]; exact H0.
  - apply within_limit_finally.
  - split; [reflexivity|exact HN].
Qed.

Lemma or_default_positive : forall N d, 0 < N -> or_default (Some N) d = N.
Proof.
  intros N d HN. unfold or_default.
  destruct (N =? 0) eqn:E; [apply Z.eqb_eq in E; lia|reflexivity].
Qed.

Lemma within_limit_step : forall N i s,
  within_limit N s -> within_limit N (fst (step i s)).
Proof.
  intros N i s H. apply (step_preserves (within_limit N)); auto.
  - apply within_limit_add.
  - intros s0 H0. unfold start. apply within_limit_process. exact H0.
  - intros s0 [Hc Hl]. destruct (clear_fields s0) as (E1 & _ & _ & E2 & _).
    split; congruence.
  - intros cb s0 H0. unfold onEmpty, _checkEmpty. cbv zeta.
    match goal with |- context [if ?c then _ else _] => destruct c end; exact H0.
Qed.

Lemma within_limit_advance : forall N k work s,
  within_limit N s -> within_limit N (fst (advance k work s)).
Proof.
  induction k as [|k IH]; intros work s H; [exact H|].
  destruct work as [|i rest]; [exact H|]. cbn [advance].
  pose proof (within_limit_step N i s H) as H'.
  rewrite <- (fst_next i rest s) in H'.
  destruct (next i rest s) as [s' work']. apply IH. exact H'.
Qed.

Lemma within_limit_during : forall N k ev s,
  within_limit N s -> within_limit N (during k ev s).
Proof.
  intros N k [c|h|h o|h] s H; cbn [during react].
  - apply within_limit_advance, H.
  - unfold invoke. destruct (stage_of h (chains s)) as [[| |]|]; exact H.
  - unfold settle. destruct (stage_of h (chains s)) as [[| |]|]; exact H.
  - pose proof (within_limit_finally N h s H) as H'.
    destruct (finally_ h s) as [s' cbs]. apply within_limit_advance, H'.
Qed.

(** C1. A queue constructed with a positive integer concurrency limit [N]
    never reports more than [N] dispatched-but-unsettled tasks: after any
    sequence of [add], [start], [pause], [clear], [onEmpty] calls (made by
    the harness, by task bodies or by drain callbacks) and of task
    settlements, [pending <= N]; and so it is at every moment inside the
    next job, between two calls made by client code or by callbacks. *)
Theorem pending_never_exceeds_concurrency :
  forall (N : Z) (auto : option bool) (evs : list Event),
    0 < N ->
    let s := run_events evs (constructor (mkOptions (Some N) auto)) in
    concurrency s = N
    /\ pending s <= N
    /\ forall k ev, pending (during k ev s) <= N.
Proof.
  intros N auto evs HN s.
  assert (W : within_limit N s).
  { pose proof (within_limit_reachable (mkOptions (Some N) auto) s) as W.
    cbn [constructor concurrency opt_concurrency] in W.
    rewrite or_default_positive in W by exact HN.
    apply W; [lia|]. exists evs. reflexivity. }
  split; [apply W|]. split; [apply W|].
  intros k ev. apply (within_limit_during N k ev s W).
Qed.

Lemma pending_never_exceeds_concurrency_witness :
  0 < 2
  /\ pending (run_events
                [EvCall (CallAdd 1%nat None); EvCall (CallAdd 2%nat (Some 7));
                 EvCall (CallAdd 3%nat None); EvInvoke 0%nat;
                 EvOutcome 0%nat (Rejected 4); EvFinally 0%nat]
                (constructor (mkOptions (Some 2) None))) <= 2.
Proof.
  assert (H : 0 < 2) by lia.
  exact (conj H
           (proj1 (proj2
              (pending_never_exceeds_concurrency 2 None
                 [EvCall (CallAdd 1%nat None); EvCall (CallAdd 2%nat (Some 7));
                  EvCall (CallAdd 3%nat None); EvInvoke 0%nat;
                  EvOutcome 0%nat (Rejected 4); EvFinally 0%nat] H)))).
Defined.

(** ** C3: priorities 1, 5, 3 on a queue of concurrency 1 *)

(** C3, as stated, fails on a queue built with the default [autoStart]: the
    first task is dispatched inside its own [add], before the two others are
    admitted, so the order of dispatch is 1, 5, 3. *)
Lemma priorities_1_5_3_autostart_order :
  priority_order
    (run_events
       ([EvCall (CallAdd 1%nat (Some 1)); EvCall (CallAdd 2%nat (Some 5));
         EvCall (CallAdd 3%nat (Some 3))]
        ++ complete 0%nat (Fulfilled 0) ++ complete 1%nat (Fulfilled 0)
        ++ complete 2%nat (Fulfilled 0))
       (constructor (mkOptions (Some 1) None)))
  <> [5; 3; 1].
Proof. vm_compute. discriminate. Qed.

(** C3, amended.  With concurrency 1, tasks of priorities 1, 5, 3 admitted in
    that order are dispatched in the order 5, 3, 1 when nothing is dispatched
    during the admissions (the queue was built with [autoStart: false], or
    it is paused) and [start()] is called afterwards; on a queue that
    dispatches on admission the first task admitted is dispatched at once and
    the order is 1, 5, 3.  Task names and outcomes are arbitrary. *)
Theorem priorities_1_5_3_dispatch_order :
  forall (t1 t2 t3 : Task) (o1 o2 o3 : Outcome),
    let admissions :=
      [EvCall (CallAdd t1 (Some 1)); EvCall (CallAdd t2 (Some 5));
       EvCall (CallAdd t3 (Some 3))] in
    priority_order
      (run_events
         (admissions ++ [EvCall CallStart]
          ++ complete 1%nat o2 ++ complete 2%nat o3 ++ complete 0%nat o1)
         (constructor (mkOptions (Some 1) (Some false))))
    = [5; 3; 1]
    /\ priority_order
      (run_events
         ([EvCall CallPause] ++ admissions ++ [EvCall CallStart]
          ++ complete 1%nat o2 ++ complete 2%nat o3 ++ complete 0%nat o1)
         (constructor (mkOptions (Some 1) None)))
    = [5; 3; 1]
    /\ priority_order
      (run_events
         (admissions
          ++ complete 0%nat o1 ++ complete 1%nat o2 ++ complete 2%nat o3)
         (constructor (mkOptions (Some 1) None)))
    = [1; 5; 3].
Proof.
  intros t1 t2 t3 o1 o2 o3 admissions. subst admissions.
  destruct o1, o2, o3; repeat split; reflexivity.
Qed.

(** ** Counting lemmas *)

Lemma count_app : forall h l1 l2,
  count h (l1 ++ l2) = (count h l1 + count h l2)%nat.
Proof.
  induction l1 as [|x l1 IH]; intros l2; simpl; [reflexivity|].
  rewrite IH. lia.
Qed.

Lemma count_perm : forall h l1 l2,
  Permutation l1 l2 -> count h l1 = count h l2.
Proof.
  induction 1; simpl; lia.
Qed.

Lemma count_In : forall h l, (0 < count h l)%nat <-> In h l.
Proof.
  induction l as [|x l IH]; simpl; [split; [lia|tauto]|].
  destruct (Nat.eqb x h) eqn:E.
  - apply Nat.eqb_eq in E. split; [auto|lia].
  - apply Nat.eqb_neq in E. rewrite <- IH. split; [intros; right; lia|].
    intros [H|H]; [contradiction|lia].
Qed.

Lemma count_NoDup : forall l, (forall h, (count h l <= 1)%nat) -> NoDup l.
Proof.
  induction l as [|x l IH]; intros H; constructor.
  - intros Hin. apply count_In in Hin. specialize (H x). simpl in H.
    rewrite Nat.eqb_refl in H. lia.
  - apply IH. intros h. specialize (H h). simpl in H. lia.
Qed.

Lemma seen_app : forall k l1 l2, seen k (l1 ++ l2) = seen k l1 ++ seen k l2.
Proof. intros. unfold seen. apply flat_map_app. Qed.

(** ** The sort *)

Lemma sort_insert_perm : forall e l, Permutation (sort_insert e l) (e :: l).
Proof.
  induction l as [|x l IH]; simpl; [reflexivity|].
  destruct (priority x - priority e >? 0); [|reflexivity].
  rewrite IH. apply perm_swap.
Qed.

Lemma sort_perm : forall l, Permutation (sort l) l.
Proof.
  induction l as [|e l IH]; simpl; [reflexivity|].
  rewrite sort_insert_perm. constructor. exact IH.
Qed.

Lemma count_sort : forall h l,
  count h (map handle (sort l)) = count h (map handle l).
Proof.
  intros h l. apply count_perm, Permutation_map, sort_perm.
Qed.

Lemma sort_insert_descending : forall e l,
  StronglySorted by_priority l -> StronglySorted by_priority (sort_insert e l).
Proof.
  induction l as [|x l IH]; intros Hs; simpl.
  - constructor; constructor.
  - inversion Hs as [|x' l' Hl Hx]; subst.
    destruct (priority x - priority e >? 0) eqn:E.
    + constructor; [apply IH; exact Hl|].
      apply Forall_forall. intros z Hz.
      apply (Permutation_in z (sort_insert_perm e l)) in Hz.
      destruct Hz as [<-|Hz]; [unfold by_priority; lia|].
      rewrite Forall_forall in Hx. apply Hx, Hz.
    + constructor; [exact Hs|].
      assert (Hle : priority x <= priority e) by lia.
      constructor; [exact Hle|].
      eapply Forall_impl; [|exact Hx]. unfold by_priority. intros; lia.
Qed.

Lemma sort_descending : forall l, StronglySorted by_priority (sort l).
Proof.
  induction l as [|e l IH]; simpl; [constructor|].
  apply sort_insert_descending, IH.
Qed.

(** The sort is stable: entries of equal priority keep their order. *)
Lemma sort_insert_stable : forall p e l,
  filter (same_priority p) (sort_insert e l) = filter (same_priority p) (e :: l).
Proof.
  induction l as [|x l IH]; [reflexivity|].
  simpl sort_insert. destruct (priority x - priority e >? 0) eqn:E; [|reflexivity].
  simpl filter in *. rewrite IH. unfold same_priority.
  destruct (priority e =? p) eqn:Ee; destruct (priority x =? p) eqn:Ex;
    try reflexivity.
  apply Z.eqb_eq in Ee, Ex. lia.
Qed.

Lemma sort_stable : forall p l,
  filter (same_priority p) (sort l) = filter (same_priority p) l.
Proof.
  induction l as [|e l IH]; [reflexivity|].
  simpl sort. rewrite sort_insert_stable. simpl. rewrite IH. reflexivity.
Qed.

(** Two arrays in descending order with the same entries of each priority,
    in the same order, are equal: the outcome of a stable sort does not
    depend on the sorting algorithm. *)
Lemma descending_stable_unique : forall l1 l2,
  StronglySorted by_priority l1 -> StronglySorted by_priority l2 ->
  (forall p, filter (same_priority p) l1 = filter (same_priority p) l2) ->
  l1 = l2.
Proof.
  induction l1 as [|x l1 IH]; intros l2 H1 H2 Hf.
  - destruct l2 as [|y l2]; [reflexivity|].
    specialize (Hf (priority y)). simpl in Hf. unfold same_priority in Hf.
    rewrite Z.eqb_refl in Hf. discriminate.
  - destruct l2 as [|y l2].
    + specialize (Hf (priority x)). simpl in Hf. unfold same_priority in Hf.
      rewrite Z.eqb_refl in Hf. discriminate.
    + inversion H1 as [|? ? H1l H1x]; inversion H2 as [|? ? H2l H2x]; subst.
      assert (Hxy : priority x = priority y).
      { assert (Hx : In x (filter (same_priority (priority x)) (y :: l2))).
        { rewrite <- Hf. simpl. unfold same_priority at 1.
          rewrite Z.eqb_refl. left. reflexivity. }
        assert (Hy : In y (filter (same_priority (priority y)) (x :: l1))).
        { rewrite Hf. simpl. unfold same_priority at 1.
          rewrite Z.eqb_refl. left. reflexivity. }
        apply filter_In in Hx. apply filter_In in Hy.
        destruct Hx as [[Hx|Hx] _]; [subst; reflexivity|].
        destruct Hy as [[Hy|Hy] _]; [subst; reflexivity|].
        rewrite Forall_forall in H1x, H2x.
        specialize (H1x y Hy). specialize (H2x x Hx).
        unfold by_priority in *. lia. }
      assert (Exy : x = y).
      { specialize (Hf (priority x)). simpl in Hf. unfold same_priority in Hf.
        rewrite <- Hxy in Hf. rewrite Z.eqb_refl in Hf. congruence. }
      subst y. f_equal. apply IH; try assumption.
      intros p. specialize (Hf p). simpl in Hf.
      destruct (same_priority p x); congruence.
Qed.

Lemma stable_sort_unique : forall l l',
  StronglySorted by_priority l' ->
  (forall p, filter (same_priority p) l' = filter (same_priority p) l) ->
  l' = sort l.
Proof.
  intros l l' Hs Hf. apply descending_stable_unique; auto using sort_descending.
  intros p. rewrite sort_stable. apply Hf.
Qed.

(** In the sorted array an entry of higher priority stands before an entry
    of lower priority. *)
Lemma descending_split : forall l l1 a l2,
  StronglySorted by_priority l -> l = l1 ++ a :: l2 ->
  Forall (fun x => priority a <= priority x) l1
  /\ Forall (fun x => priority x <= priority a) l2.
Proof.
  intros l l1. revert l. induction l1 as [|x l1 IH]; intros l a l2 Hs ->.
  - simpl in Hs. inversion Hs; subst. split; [constructor|assumption].
  - simpl in Hs. inversion Hs as [|? ? Hl Hx]; subst.
    destruct (IH _ a l2 Hl eq_refl) as [I1 I2]. split; [|exact I2].
    constructor; [|exact I1].
    rewrite Forall_forall in Hx. apply Hx. apply in_or_app. right. left. reflexivity.
Qed.

Lemma sort_higher_first : forall l a b,
  In a l -> In b l -> priority b < priority a ->
  exists l1 l2 l3, sort l = l1 ++ a :: l2 ++ b :: l3.
Proof.
  intros l a b Ha Hb Hlt.
  assert (Ha' : In a (sort l)) by (apply (Permutation_in (l:=l) a (Permutation_sym (sort_perm l))); exact Ha).
  assert (Hb' : In b (sort l)) by (apply (Permutation_in (l:=l) b (Permutation_sym (sort_perm l))); exact Hb).
  apply in_split in Ha'. destruct Ha' as (l1 & l2 & E).
  destruct (descending_split _ l1 a l2 (sort_descending l) E) as [I1 I2].
  rewrite E in Hb'. apply in_app_or in Hb'. destruct Hb' as [Hb'|[Hb'|Hb']].
  - rewrite Forall_forall in I1. specialize (I1 b Hb'). lia.
  - subst b. lia.
  - apply in_split in Hb'. destruct Hb' as (l3 & l4 & E2).
    exists l1, l3, l4. rewrite E, E2. reflexivity.
Qed.

(** Pushing an entry on a sorted backlog and sorting puts it at its
    [place]. *)
Lemma sort_insert_head : forall x q,
  Forall (by_priority x) q -> sort_insert x q = x :: q.
Proof.
  intros x [|y q] H; [reflexivity|]. simpl.
  inversion H; subst. unfold by_priority in *.
  destruct (priority y - priority x >? 0) eqn:E; [lia|reflexivity].
Qed.

Lemma In_place : forall e z q, In z (place e q) <-> z = e \/ In z q.
Proof.
  induction q as [|x q IH]; simpl; [intuition congruence|].
  destruct (priority x <? priority e); simpl; [intuition congruence|].
  rewrite IH. intuition congruence.
Qed.

Lemma sort_insert_place : forall x e q,
  Forall (by_priority x) q -> sort_insert x (place e q) = place e (x :: q).
Proof.
  intros x e q Hx. simpl place.
  destruct (priority x <? priority e) eqn:E.
  - apply Z.ltb_lt in E.
    assert (Hp : place e q = e :: q).
    { destruct q as [|y q]; [reflexivity|]. simpl.
      inversion Hx; subst. unfold by_priority in *.
      destruct (priority y <? priority e) eqn:E'; [reflexivity|lia]. }
    rewrite Hp. simpl.
    destruct (priority e - priority x >? 0) eqn:E'; [|lia].
    rewrite sort_insert_head by exact Hx. reflexivity.
  - apply Z.ltb_ge in E. apply sort_insert_head.
    apply Forall_forall. intros z Hz. apply In_place in Hz.
    destruct Hz as [->|Hz]; [exact E|].
    rewrite Forall_forall in Hx. apply Hx, Hz.
Qed.

Lemma sort_snoc : forall e q,
  StronglySorted by_priority q -> sort (q ++ [e]) = place e q.
Proof.
  induction q as [|x q IH]; intros Hs; [reflexivity|].
  inversion Hs; subst. simpl sort. rewrite IH by assumption.
  apply sort_insert_place. assumption.
Qed.

Lemma ahead_by_priority : forall q,
  StronglySorted ahead q -> StronglySorted by_priority q.
Proof.
  induction 1; constructor; auto.
  eapply Forall_impl; [|eassumption].
  unfold ahead, by_priority. intros; lia.
Qed.

Lemma place_ordered : forall e q,
  StronglySorted ahead q ->
  Forall (fun x => (handle x < handle e)%nat) q ->
  StronglySorted ahead (place e q).
Proof.
  induction q as [|x q IH]; intros Hs Hh; simpl.
  - constructor; constructor.
  - inversion Hs as [|? ? Hq Hx]; inversion Hh as [|? ? Hxe Hqe]; subst.
    destruct (priority x <? priority e) eqn:E.
    + apply Z.ltb_lt in E. constructor; [exact Hs|].
      constructor; [left; exact E|].
      eapply Forall_impl; [|exact Hx]. unfold ahead. intros; lia.
    + apply Z.ltb_ge in E. constructor; [apply IH; assumption|].
      apply Forall_forall. intros z Hz. apply In_place in Hz.
      destruct Hz as [->|Hz].
      * unfold ahead. lia.
      * rewrite Forall_forall in Hx. apply Hx, Hz.
Qed.

(** ** Invariants established operation by operation *)

Section Stable.
Variable P : AsyncQueue -> Prop.
Hypothesis P_stable : stable P.

Lemma process_while_preserves : forall q s,
  queue s = q -> paused s = false -> P s -> P (process_while q s).
Proof.
  induction q as [|e rest IH]; intros s Hq Hp Hs; simpl; [exact Hs|].
  destruct (running s <? concurrency s) eqn:Hlt; [|exact Hs].
  apply Z.ltb_lt in Hlt. apply IH; [reflexivity|exact Hp|].
  apply (keeps_dispatch _ _ P_stable); auto.
Qed.

Lemma process_preserves : forall s, P s -> P (_process s).
Proof.
  intros s Hs. unfold _process. destruct (paused s) eqn:Hp; [exact Hs|].
  apply process_while_preserves; auto.
Qed.

Lemma checkEmpty_preserves : forall s, P s -> P (fst (_checkEmpty s)).
Proof.
  intros s Hs. unfold _checkEmpty. destruct (drained s); simpl; auto.
  apply (keeps_callbacks _ _ P_stable); auto.
Qed.

Lemma add_preserves : forall t p s, P s -> P (add t p s).
Proof.
  intros t p s Hs. unfold add. cbv zeta.
  match goal with |- context [if ?c then _ else _] => destruct c end;
    [apply process_preserves|]; exact (keeps_enqueue _ _ P_stable t p s I Hs).
Qed.

Lemma start_preserves : forall s, P s -> P (start s).
Proof.
  intros s Hs. unfold start.
  apply process_preserves, (keeps_start _ _ P_stable); auto.
Qed.

Lemma onEmpty_preserves : forall cb s, P s -> P (fst (onEmpty cb s)).
Proof.
  intros cb s Hs. unfold onEmpty. cbv zeta.
  match goal with |- context [if ?c then _ else _] => destruct c end;
    [apply checkEmpty_preserves|]; simpl;
    apply (keeps_callbacks _ _ P_stable), (keeps_register _ _ P_stable); auto.
Qed.

Lemma invoke_preserves : forall h s, P s -> P (invoke h s).
Proof.
  intros h s Hs. unfold invoke.
  destruct (stage_of h (chains s)) as [[| |]|] eqn:E; auto.
  apply (keeps_begin_task _ _ P_stable); auto.
Qed.

Lemma settle_preserves : forall h o s, P s -> P (settle h o s).
Proof.
  intros h o s Hs.
  destruct (stage_of h (chains s)) as [[| |]|] eqn:E;
    try (unfold settle; rewrite E; exact Hs).
  apply (keeps_settle _ _ P_stable); auto.
Qed.

Lemma finally_preserves : forall h s, P s -> P (fst (finally_ h s)).
Proof.
  intros h s Hs. unfold finally_.
  destruct (stage_of h (chains s)) as [[| |]|] eqn:E; auto.
  apply checkEmpty_preserves, process_preserves.
  apply (keeps_finish _ _ P_stable h s E); auto.
Qed.

Lemma stable_run_events : forall evs s, P s -> P (run_events evs s).
Proof.
  apply (run_events_preserves P);
    auto using add_preserves, start_preserves, onEmpty_preserves,
      invoke_preserves, settle_preserves, finally_preserves.
  - intros s0 Hs. apply (keeps_pause _ _ P_stable); auto.
  - intros s0 Hs. apply (keeps_clear _ _ P_stable); auto.
  - intros name s0 Hs. apply (keeps_fire _ _ P_stable); auto.
Qed.

Lemma stable_run : forall work s, P s -> P (run work s).
Proof.
  apply (run_preserves P);
    auto using add_preserves, start_preserves, onEmpty_preserves.
  - intros s0 Hs. apply (keeps_pause _ _ P_stable); auto.
  - intros s0 Hs. apply (keeps_clear _ _ P_stable); auto.
  - intros name s0 Hs. apply (keeps_fire _ _ P_stable); auto.
Qed.

Lemma stable_reachable : forall options s,
  P (constructor options) -> reachable_from options s -> P s.
Proof.
  intros options s H0 [evs ->]. apply stable_run_events. exact H0.
Qed.
End Stable.

(** An invariant can be established on top of another one. *)
Lemma stable_and : forall I P : AsyncQueue -> Prop,
  stable I -> stable_under I P -> stable (fun s => I s /\ P s).
Proof.
  intros I P HI HP. constructor.
  - intros t p s _ [Hi Hp]. split;
      [apply (keeps_enqueue _ _ HI)|apply (keeps_enqueue _ _ HP)]; auto.
  - intros e rest s Hq Hr Hpa _ [Hi Hp]. split;
      [apply (keeps_dispatch _ _ HI)|apply (keeps_dispatch _ _ HP)]; auto.
  - intros s _ [Hi Hp]. split;
      [apply (keeps_start _ _ HI)|apply (keeps_start _ _ HP)]; auto.
  - intros s _ [Hi Hp]. split;
      [apply (keeps_pause _ _ HI)|apply (keeps_pause _ _ HP)]; auto.
  - intros s _ [Hi Hp]. split;
      [apply (keeps_clear _ _ HI)|apply (keeps_clear _ _ HP)]; auto.
  - intros cbs s _ [Hi Hp]. split;
      [apply (keeps_callbacks _ _ HI)|apply (keeps_callbacks _ _ HP)]; auto.
  - intros name s _ [Hi Hp]. split;
      [apply (keeps_register _ _ HI)|apply (keeps_register _ _ HP)]; auto.
  - intros name sz pd s _ [Hi Hp]. split;
      [apply (keeps_fire _ _ HI)|apply (keeps_fire _ _ HP)]; auto.
  - intros h s Hst _ [Hi Hp]. split;
      [apply (keeps_begin_task _ _ HI)|apply (keeps_begin_task _ _ HP)]; auto.
  - intros h o s Hst _ [Hi Hp]. split;
      [apply (keeps_settle _ _ HI)|apply (keeps_settle _ _ HP)]; auto.
  - intros h s Hst _ [Hi Hp]. split;
      [apply (keeps_finish _ _ HI)|apply (keeps_finish _ _ HP)]; auto.
Qed.

(** ** Promise chains *)

Lemma count_stage_app : forall st h cs1 cs2,
  count_stage st h (cs1 ++ cs2)
  = (count_stage st h cs1 + count_stage st h cs2)%nat.
Proof.
  induction cs1 as [|[e st'] cs1 IH]; intros cs2; simpl; [reflexivity|].
  rewrite IH. lia.
Qed.

Lemma count_stage_set_stage : forall cs h st0 st1 st h',
  stage_of h cs = Some st0 ->
  (count_stage st h' (set_stage h st1 cs)
   + (if Nat.eqb h h' && stage_eqb st0 st then 1 else 0)
   = count_stage st h' cs
     + (if Nat.eqb h h' && stage_eqb st1 st then 1 else 0))%nat.
Proof.
  induction cs as [|[e st'] cs IH]; intros h st0 st1 st h' Hs; simpl in *;
    [discriminate|].
  destruct (Nat.eqb (handle e) h) eqn:E.
  - inversion Hs; subst st'. apply Nat.eqb_eq in E. subst h. simpl. lia.
  - simpl. specialize (IH h st0 st1 st h' Hs). lia.
Qed.

Lemma count_stage_remove_chain : forall cs h st0 st h',
  stage_of h cs = Some st0 ->
  (count_stage st h' (remove_chain h cs)
   + (if Nat.eqb h h' && stage_eqb st0 st then 1 else 0)
   = count_stage st h' cs)%nat.
Proof.
  induction cs as [|[e st'] cs IH]; intros h st0 st h' Hs; simpl in *;
    [discriminate|].
  destruct (Nat.eqb (handle e) h) eqn:E.
  - inversion Hs; subst st'. apply Nat.eqb_eq in E. subst h. lia.
  - simpl. specialize (IH h st0 st h' Hs). lia.
Qed.

Lemma length_set_stage : forall h st cs, length (set_stage h st cs) = length cs.
Proof.
  induction cs as [|[e st'] cs IH]; simpl; [reflexivity|].
  destruct (Nat.eqb (handle e) h); simpl; congruence.
Qed.

Lemma length_remove_chain : forall h st cs,
  stage_of h cs = Some st -> S (length (remove_chain h cs)) = length cs.
Proof.
  induction cs as [|[e st'] cs IH]; simpl; intros Hs; [discriminate|].
  destruct (Nat.eqb (handle e) h); simpl; [reflexivity|].
  rewrite IH by exact Hs. reflexivity.
Qed.

(** ** The accounts of every handle balance *)

Lemma clear_log : forall s,
  log (clear s) = rev (map (fun e => Dropped (handle e)) (queue s)) ++ log s.
Proof.
  intros s. unfold clear. simpl.
  generalize (queue s) as q. intros q. revert s.
  induction q as [|e q IH]; intros s; simpl; [reflexivity|].
  rewrite IH. simpl. rewrite <- app_assoc. reflexivity.
Qed.

Lemma seen_dropped : forall k q,
  seen k (rev (map (fun e => Dropped (handle e)) q))
  = match k with KDropped => rev (map handle q) | _ => [] end.
Proof.
  intros k q. induction q as [|e q IH]; simpl.
  - destruct k; reflexivity.
  - rewrite seen_app, IH. destruct k; simpl; try reflexivity.
Qed.

Lemma count_rev : forall h l, count h (rev l) = count h l.
Proof.
  intros h l. apply count_perm. symmetry. apply Permutation_rev.
Qed.

Lemma seen_cons : forall k o l, seen k (o :: l) = obs_handle k o ++ seen k l.
Proof. reflexivity. Qed.

Ltac tally :=
  unfold lifecycle, times, in_backlog, in_flight in *;
  cbn [log queue chains fresh running promises
       observe set_queue set_running set_paused set_emptyCallbacks set_chains
       set_promises set_fresh dispatch handle priority] in *;
  rewrite ?seen_cons, ?seen_app, ?map_app, ?count_app, ?count_stage_app,
    ?count_sort in *;
  rewrite ?map_app, ?count_app in *;
  cbn [count count_stage map handle fst snd stage_eqb andb obs_handle app] in *.

Ltac by_cases_on_handle :=
  repeat match goal with
  | |- context [Nat.eqb ?a ?b] =>
      let E := fresh "E" in
      destruct (Nat.eqb a b) eqn:E;
      [apply Nat.eqb_eq in E|apply Nat.eqb_neq in E]
  | |- context [Nat.ltb ?a ?b] =>
      let E := fresh "E" in
      destruct (Nat.ltb a b) eqn:E;
      [apply Nat.ltb_lt in E|apply Nat.ltb_ge in E]
  | H : context [Nat.ltb ?a ?b] |- _ =>
      let E := fresh "E" in
      destruct (Nat.ltb a b) eqn:E;
      [apply Nat.ltb_lt in E|apply Nat.ltb_ge in E]
  end;
  cbn [andb] in *.

Lemma lifecycle_enqueue : forall h t p s,
  lifecycle h s ->
  lifecycle h
    (set_queue (sort (queue s ++ [mkEntry t (or_default p 1) (fresh s)]))
       (observe (Accepted (fresh s) (or_default p 1))
          (set_fresh (S (fresh s)) s))).
Proof.
  intros h t p s H. tally. by_cases_on_handle; lia.
Qed.

Lemma clear_closed : forall s,
  clear s =
  mkQueue (concurrency s) (autoStart s) [] (running s) (paused s)
          (emptyCallbacks s) (chains s) (promises s) (fresh s)
          (rev (map (fun e => Dropped (handle e)) (queue s)) ++ log s).
Proof.
  intros s. pose proof (clear_log s) as L.
  destruct (clear_fields s) as (E1 & E2 & E3 & E4 & E5 & E6 & E7 & E8 & E9).
  destruct (clear s); simpl in *. congruence.
Qed.

Lemma lifecycle_dispatch : forall h e rest s,
  queue s = e :: rest -> lifecycle h s -> lifecycle h (dispatch e rest s).
Proof.
  intros h e rest s Hq H. unfold lifecycle, in_backlog in H. rewrite Hq in H.
  tally. by_cases_on_handle; lia.
Qed.

Lemma lifecycle_clear : forall h s, lifecycle h s -> lifecycle h (clear s).
Proof.
  intros h s H. rewrite clear_closed. tally.
  rewrite !seen_dropped. cbn [count]. rewrite count_rev.
  by_cases_on_handle; lia.
Qed.

Lemma lifecycle_invoke : forall h' h s,
  stage_of h (chains s) = Some Scheduled ->
  lifecycle h' s ->
  lifecycle h' (observe (Invoked h) (set_chains (set_stage h Started (chains s)) s)).
Proof.
  intros h' h s Hst H. tally.
  pose proof (count_stage_set_stage _ h Scheduled Started Scheduled h' Hst) as C1.
  pose proof (count_stage_set_stage _ h Scheduled Started Started h' Hst) as C2.
  pose proof (count_stage_set_stage _ h Scheduled Started Settled h' Hst) as C3.
  cbn [stage_eqb] in *. rewrite ?andb_true_r, ?andb_false_r in *.
  by_cases_on_handle; lia.
Qed.

Lemma lifecycle_settle : forall h' h o s,
  stage_of h (chains s) = Some Started ->
  lifecycle h' s -> lifecycle h' (settle h o s).
Proof.
  intros h' h o s Hst H. unfold settle. rewrite Hst.
  pose proof (count_stage_set_stage _ h Started Settled Scheduled h' Hst) as C1.
  pose proof (count_stage_set_stage _ h Started Settled Started h' Hst) as C2.
  pose proof (count_stage_set_stage _ h Started Settled Settled h' Hst) as C3.
  cbn [stage_eqb] in *. rewrite ?andb_true_r, ?andb_false_r in *.
  destruct o; tally; by_cases_on_handle; lia.
Qed.

Lemma lifecycle_finish : forall h' h s,
  stage_of h (chains s) = Some Settled ->
  lifecycle h' s ->
  lifecycle h'
    (set_running (running s - 1)
       (observe (Finished h) (set_chains (remove_chain h (chains s)) s))).
Proof.
  intros h' h s Hst H. tally.
  pose proof (count_stage_remove_chain _ h Settled Scheduled h' Hst) as C1.
  pose proof (count_stage_remove_chain _ h Settled Started h' Hst) as C2.
  pose proof (count_stage_remove_chain _ h Settled Settled h' Hst) as C3.
  cbn [stage_eqb] in *. rewrite ?andb_true_r, ?andb_false_r in *.
  by_cases_on_handle; lia.
Qed.

Lemma log_outcome_quiet : forall h o l,
  obs_handle KSettled o = [] -> log_outcome h (o :: l) = log_outcome h l.
Proof.
  intros h o l Ho. simpl. destruct (log_outcome h l); [reflexivity|].
  destruct o; try reflexivity; discriminate.
Qed.

Lemma log_outcome_dropped : forall h q l,
  log_outcome h (rev (map (fun e => Dropped (handle e)) q) ++ l)
  = log_outcome h l.
Proof.
  intros h q l. revert l. induction q as [|e q IH]; intros l; simpl; [reflexivity|].
  rewrite <- app_assoc. rewrite IH. simpl. destruct (log_outcome h l); reflexivity.
Qed.

Lemma promises_follow_log_settle : forall h o s,
  stage_of h (chains s) = Some Started ->
  promises_follow_log s -> promises_follow_log (settle h o s).
Proof.
  intros h o s Hst H h'. unfold settle. rewrite Hst.
  specialize (H h') as H'. pose proof (H h) as Hh.
  unfold settle_promise.
  destruct o; cbn [promises log observe set_promises set_chains log_outcome];
    rewrite <- H'; rewrite Hh;
    (destruct (log_outcome h (log s)) eqn:Eh;
     [destruct (promise_state h' (promises s)) eqn:E'; [reflexivity|];
      destruct (Nat.eqb h' h) eqn:Eq; [|reflexivity];
      apply Nat.eqb_eq in Eq; subst h'; congruence
     |cbn [promise_state];
      destruct (Nat.eqb h' h) eqn:Eq;
      [apply Nat.eqb_eq in Eq; subst h'; rewrite Hh; reflexivity
      |destruct (promise_state h' (promises s)); reflexivity]]).
Qed.

Lemma quiet_obs_follow : forall o s,
  obs_handle KSettled o = [] ->
  promises_follow_log s -> promises_follow_log (observe o s).
Proof.
  intros o s Ho F h. cbn [promises log observe].
  rewrite log_outcome_quiet by exact Ho. apply F.
Qed.

Lemma coherent_stable : stable coherent.
Proof.
  constructor.
  - intros t p s0 _ (L & F & R). split; [|split].
    + intros h. apply lifecycle_enqueue, L.
    + intros h. specialize (F h). simpl in *.
      destruct (log_outcome h (log s0)); exact F.
    + exact R.
  - intros e rest s0 Hq _ _ _ (L & F & R). split; [|split].
    + intros h. apply lifecycle_dispatch; auto.
    + intros h. specialize (F h). simpl in *.
      destruct (log_outcome h (log s0)); exact F.
    + simpl. rewrite length_app. simpl. lia.
  - intros s0 _ (L & F & R). split; [|split]; [exact L| |exact R].
    intros h. specialize (F h). simpl in *.
    destruct (log_outcome h (log s0)); exact F.
  - intros s0 _ (L & F & R). split; [|split]; [exact L| |exact R].
    intros h. specialize (F h). simpl in *.
    destruct (log_outcome h (log s0)); exact F.
  - intros s0 _ (L & F & R). split; [|split].
    + intros h. apply lifecycle_clear, L.
    + intros h. rewrite clear_closed. simpl. rewrite log_outcome_dropped. apply F.
    + rewrite clear_closed. simpl. exact R.
  - intros cbs s0 _ H. exact H.
  - intros name s0 _ (L & F & R). split; [|split]; [exact L| |exact R].
    intros h. specialize (F h). simpl in *.
    destruct (log_outcome h (log s0)); exact F.
  - intros name sz pd s0 _ (L & F & R). split; [|split]; [exact L| |exact R].
    intros h. specialize (F h). simpl in *.
    destruct (log_outcome h (log s0)); exact F.
  - intros h s0 Hst _ (L & F & R). split; [|split].
    + intros h'. apply lifecycle_invoke; auto.
    + intros h'. specialize (F h'). simpl in *.
      destruct (log_outcome h' (log s0)); exact F.
    + simpl. rewrite length_set_stage. exact R.
  - intros h o s0 Hst _ (L & F & R). split; [|split].
    + intros h'. apply lifecycle_settle; auto.
    + apply promises_follow_log_settle; auto.
    + unfold settle. rewrite Hst. simpl. rewrite length_set_stage. exact R.
  - intros h s0 Hst _ (L & F & R). split; [|split].
    + intros h'. apply lifecycle_finish; auto.
    + intros h'. specialize (F h'). simpl in *.
      destruct (log_outcome h' (log s0)); exact F.
    + simpl. pose proof (length_remove_chain h Settled (chains s0) Hst). lia.
Qed.

Lemma coherent_constructor : forall options, coherent (constructor options).
Proof.
  intros options. split; [|split]; [|intros h; reflexivity|reflexivity].
  intros h. unfold lifecycle, times, in_backlog, in_flight. simpl.
  repeat split; reflexivity.
Qed.

Lemma coherent_reachable : forall options s,
  reachable_from options s -> coherent s.
Proof.
  intros options s Hr.
  apply (stable_reachable coherent coherent_stable options s); [|exact Hr].
  apply coherent_constructor.
Qed.

(** ** The log only grows *)

Lemma log_extends_stable : forall l0 : list Obs,
  stable (fun s => exists l, log s = l ++ l0).
Proof.
  intros l0. constructor; try (intros; assumption).
  - intros t p s _ [l E]. exists (Accepted (fresh s) (or_default p 1) :: l).
    simpl. rewrite E. reflexivity.
  - intros e rest s _ _ _ _ [l E]. exists (dispatch_obs e :: l).
    simpl. rewrite E. reflexivity.
  - intros s _ [l E]. exists (StartCalled :: l). simpl. rewrite E. reflexivity.
  - intros s _ [l E]. exists (PauseCalled :: l). simpl. rewrite E. reflexivity.
  - intros s _ [l E]. rewrite clear_closed. simpl. rewrite E.
    eexists. rewrite app_assoc. reflexivity.
  - intros name s _ [l E]. exists (Registered name :: l). simpl. rewrite E. reflexivity.
  - intros name sz pd s _ [l E]. exists (Fired name sz pd :: l).
    simpl. rewrite E. reflexivity.
  - intros h s _ _ [l E]. exists (Invoked h :: l). simpl. rewrite E. reflexivity.
  - intros h o s Hst _ [l E]. unfold settle. rewrite Hst.
    destruct o; simpl; rewrite E; eexists; rewrite app_comm_cons; reflexivity.
  - intros h s _ _ [l E]. exists (Finished h :: l). simpl. rewrite E. reflexivity.
Qed.

Lemma log_extends : forall evs s, exists l, log (run_events evs s) = l ++ log s.
Proof.
  intros evs s.
  apply (stable_run_events _ (log_extends_stable (log s))).
  exists []. reflexivity.
Qed.

Lemma times_grow : forall k h evs s,
  (times k h s <= times k h (run_events evs s))%nat.
Proof.
  intros k h evs s. destruct (log_extends evs s) as [l E].
  unfold times. rewrite E, seen_app, count_app. lia.
Qed.

(** ** C2: every completion handle settles once *)

Lemma lifecycle_bounds : forall h s,
  lifecycle h s ->
  (times KAccepted h s <= 1 /\ times KDispatched h s <= 1
   /\ times KInvoked h s <= 1 /\ times KSettled h s <= 1
   /\ times KFinished h s <= 1 /\ times KDropped h s <= 1
   /\ in_backlog h s <= 1)%nat.
Proof.
  intros h s (L1 & L2 & L3 & L4 & L5).
  destruct (h <? fresh s)%nat; lia.
Qed.

Lemma log_outcome_pending : forall h l,
  count h (seen KSettled l) = 0%nat <-> log_outcome h l = None.
Proof.
  intros h l. induction l as [|o l IH]; [simpl; tauto|].
  rewrite seen_cons, count_app. simpl log_outcome.
  destruct (log_outcome h l) as [r|].
  - split; [|discriminate]. intros H.
    assert (Z0 : count h (seen KSettled l) = 0%nat) by lia.
    apply IH in Z0. discriminate.
  - assert (Z0 : count h (seen KSettled l) = 0%nat) by (apply IH; reflexivity).
    rewrite Z0. destruct o; simpl; try tauto;
      rewrite (Nat.eqb_sym h0 h); destruct (Nat.eqb h h0); simpl;
      split; (discriminate || reflexivity).
Qed.

Lemma stage_of_count : forall h st cs,
  stage_of h cs = Some st -> (1 <= count_stage st h cs)%nat.
Proof.
  induction cs as [|[e st'] cs IH]; simpl; intros Hs; [discriminate|].
  destruct (Nat.eqb (handle e) h); simpl.
  - inversion Hs; subst. destruct st; simpl; lia.
  - specialize (IH Hs). lia.
Qed.

Lemma count_stage_stage_of : forall h st cs,
  (1 <= count_stage st h cs)%nat -> exists st', stage_of h cs = Some st'.
Proof.
  induction cs as [|[e st'] cs IH]; simpl; intros Hc; [lia|].
  destruct (Nat.eqb (handle e) h); simpl in *; [eauto|]. apply IH. lia.
Qed.

(** When the outcome of a started task arrives, its promise is still
    pending and takes that outcome. *)
Lemma settle_started : forall h o s,
  coherent s -> stage_of h (chains s) = Some Started ->
  promise_state h (promises s) = None
  /\ times KSettled h s = 0%nat
  /\ times KSettled h (settle h o s) = 1%nat
  /\ promise_state h (promises (settle h o s)) = Some o.
Proof.
  intros h o s Hc Hst.
  assert (Hc' : coherent (settle h o s))
    by (apply (keeps_settle _ _ coherent_stable); auto).
  destruct Hc as (L & F & R). destruct Hc' as (L' & F' & R').
  pose proof (lifecycle_bounds h s (L h)) as B.
  pose proof (stage_of_count h Started _ Hst) as C.
  destruct (L h) as (L1 & L2 & L3 & L4 & L5). fold (in_flight Started h s) in C.
  assert (Z0 : times KSettled h s = 0%nat) by lia.
  assert (P0 : promise_state h (promises s) = None).
  { rewrite F. apply log_outcome_pending. exact Z0. }
  repeat split; auto.
  - unfold settle. rewrite Hst. unfold times in *.
    destruct o; cbn [log observe set_promises set_chains];
      rewrite seen_cons, count_app; simpl; rewrite Nat.eqb_refl; lia.
  - rewrite F'. unfold settle. rewrite Hst.
    apply log_outcome_pending in Z0. unfold times in Z0.
    destruct o; cbn [log observe set_promises set_chains log_outcome];
      rewrite Z0, Nat.eqb_refl; reflexivity.
Qed.

(** ** Progress: an entry of the backlog can always still be served *)

Lemma run_events_app : forall evs1 evs2 s,
  run_events (evs1 ++ evs2) s = run_events evs2 (run_events evs1 s).
Proof. intros. unfold run_events. apply fold_left_app. Qed.

Lemma react_start : forall s, react (EvCall CallStart) s = start s.
Proof. intros s. simpl. rewrite run_cons by discriminate. reflexivity. Qed.

Lemma react_pause : forall s, react (EvCall CallPause) s = pause s.
Proof. intros s. simpl. rewrite run_cons by discriminate. reflexivity. Qed.

Lemma react_clear : forall s, react (EvCall CallClear) s = clear s.
Proof. intros s. simpl. rewrite run_cons by discriminate. reflexivity. Qed.

Lemma react_add : forall t p s, react (EvCall (CallAdd t p)) s = add t p s.
Proof. intros t p s. simpl. rewrite run_cons by discriminate. reflexivity. Qed.

Lemma stage_of_set_stage : forall h st st' cs,
  stage_of h cs = Some st -> stage_of h (set_stage h st' cs) = Some st'.
Proof.
  induction cs as [|[e st0] cs IH]; simpl; intros Hs; [discriminate|].
  destruct (Nat.eqb (handle e) h) eqn:E; simpl; rewrite E; auto.
Qed.

(** A chain that is alone for its handle is found at its stage. *)
Lemma stage_of_unique : forall h st s,
  lifecycle h s -> (1 <= in_flight st h s)%nat ->
  stage_of h (chains s) = Some st.
Proof.
  intros h st s L C. pose proof (lifecycle_bounds h s L) as B.
  destruct (count_stage_stage_of h st (chains s) C) as [st' E].
  pose proof (stage_of_count h st' _ E) as C'. fold (in_flight st' h s) in C'.
  destruct L as (L1 & L2 & L3 & L4 & L5).
  destruct st, st'; try exact E; lia.
Qed.

(** The jobs of a chain, from the stage it is at. *)
Lemma chain_runs_to_settled : forall out h st s,
  coherent s -> stage_of h (chains s) = Some st ->
  exists jobs,
    Forall (chain_job out) jobs
    /\ let s' := run_events jobs s in
       stage_of h (chains s') = Some Settled
       /\ queue s' = queue s /\ running s' = running s /\ paused s' = paused s
       /\ concurrency s' = concurrency s
       /\ (st <> Settled ->
           times KSettled h s' = 1%nat
           /\ promise_state h (promises s') = Some (out h)).
Proof.
  intros out h st s Hc Hst. set (o := out h). destruct st.
  - exists [EvInvoke h; EvOutcome h o].
    split; [constructor; [exact I|constructor; [reflexivity|constructor]]|].
    cbn [run_events fold_left react].
    unfold invoke. rewrite Hst.
    set (s1 := observe (Invoked h) (set_chains (set_stage h Started (chains s)) s)).
    assert (H1 : stage_of h (chains s1) = Some Started)
      by (apply stage_of_set_stage with (st := Scheduled); exact Hst).
    assert (C1 : coherent s1)
      by (apply (keeps_begin_task _ _ coherent_stable h s Hst I Hc)).
    destruct (settle_started h o s1 C1 H1) as (_ & _ & S1 & S2).
    unfold settle at 1 2 3 4 5. rewrite H1. cbn [chains queue running paused
      concurrency observe set_promises set_chains].
    repeat split; auto.
    apply stage_of_set_stage with (st := Started). exact H1.
  - exists [EvOutcome h o].
    split; [constructor; [reflexivity|constructor]|].
    cbn [run_events fold_left react].
    destruct (settle_started h o s Hc Hst) as (_ & _ & S1 & S2).
    unfold settle at 1 2 3 4 5. rewrite Hst. cbn [chains queue running paused
      concurrency observe set_promises set_chains].
    repeat split; auto.
    apply stage_of_set_stage with (st := Started). exact Hst.
  - exists []. split; [constructor|]. simpl. repeat split; auto; congruence.
Qed.

Lemma finally_unfold : forall h s,
  stage_of h (chains s) = Some Settled ->
  finally_ h s = _checkEmpty (_process (finish h s)).
Proof. intros h s Hst. unfold finally_. rewrite Hst. reflexivity. Qed.

(** The last job of a chain on a busy queue whose backlog is not empty:
    the slot it frees is taken by the head of the backlog, and no drain
    callback is called. *)
Lemma finally_busy : forall h e rest s,
  stage_of h (chains s) = Some Settled ->
  paused s = false -> running s = concurrency s -> 0 < concurrency s ->
  queue s = e :: rest ->
  react (EvFinally h) s =
  mkQueue (concurrency s) (autoStart s) rest (running s) false
          (emptyCallbacks s) (remove_chain h (chains s) ++ [new_chain e])
          (promises s) (fresh s)
          (dispatch_obs e :: Finished h :: log s).
Proof.
  intros h e rest s Hst Hp Hr Hc Hq.
  unfold react. rewrite finally_unfold by exact Hst.
  assert (Hk : slots (finish h s) = 1%nat) by (unfold slots; simpl; lia).
  assert (Hq2 : queue (finish h s) = e :: rest) by exact Hq.
  assert (Hp2 : paused (finish h s) = false) by exact Hp.
  unfold _process. rewrite Hp2.
  rewrite process_while_closed by reflexivity. rewrite Hk, Hq2.
  cbn [firstn skipn length map rev app].
  unfold _checkEmpty, drained. cbn [queue running finish set_running].
  replace (running s - 1 + Z.of_nat 1 =? 0) with false
    by (symmetry; apply Z.eqb_neq; lia).
  rewrite andb_false_r. rewrite run_nil.
  cbn [concurrency autoStart paused emptyCallbacks chains promises fresh log
       finish set_running observe set_chains].
  rewrite Hp. f_equal. lia.
Qed.

Lemma busy_has_chain : forall s,
  busy s -> exists h st, stage_of h (chains s) = Some st.
Proof.
  intros s (Hp & Hr & Hc & (L & F & R)).
  destruct (chains s) as [|[c st] cs] eqn:E; [simpl in R; lia|].
  exists (handle c), st. simpl. rewrite Nat.eqb_refl. reflexivity.
Qed.

(** One round on a busy queue: the jobs of some chain run to its end and
    its last job dispatches the head of the backlog in its place. *)
Lemma busy_round : forall out e rest s,
  busy s -> queue s = e :: rest ->
  exists jobs,
    Forall (chain_job out) jobs
    /\ let s' := run_events jobs s in
       busy s' /\ queue s' = rest
       /\ stage_of (handle e) (chains s') = Some Scheduled.
Proof.
  intros out e rest s Hb Hq.
  destruct (busy_has_chain s Hb) as (h & st & Hst).
  destruct Hb as (Hp & Hr & Hc & Hco).
  destruct (chain_runs_to_settled out h st s Hco Hst)
    as (evs & Hjobs & H1 & Q1 & R1 & P1 & C1 & _).
  exists (evs ++ [EvFinally h]).
  split; [apply Forall_app; split; [exact Hjobs|constructor; [exact I|constructor]]|].
  cbv zeta. rewrite run_events_app.
  set (s1 := run_events evs s) in *.
  assert (Hco1 : coherent s1) by (apply (stable_run_events _ coherent_stable); exact Hco).
  cbn [run_events fold_left].
  assert (Hco2 : coherent (react (EvFinally h) s1)).
  { apply (stable_run_events _ coherent_stable [EvFinally h]). exact Hco1. }
  rewrite (finally_busy h e rest s1) in *; try congruence; try lia.
  refine (conj (conj _ (conj _ (conj _ Hco2))) (conj _ _));
    cbn [paused running concurrency queue chains]; try congruence; try lia.
  match type of Hco2 with
  | coherent ?s2 => apply (stage_of_unique (handle e) Scheduled s2)
  end; [apply Hco2|].
    unfold in_flight. cbn [chains]. rewrite count_stage_app. simpl.
    rewrite Nat.eqb_refl. simpl. lia.
Qed.

(** Every entry of the backlog of a busy queue is dispatched by the jobs
    of the promise chains alone. *)
Lemma busy_backlog_served : forall out q1 e q2 s,
  busy s -> queue s = q1 ++ e :: q2 ->
  exists jobs,
    Forall (chain_job out) jobs
    /\ let s' := run_events jobs s in
       coherent s' /\ stage_of (handle e) (chains s') = Some Scheduled.
Proof.
  intros out. induction q1 as [|x q1 IH]; intros e q2 s Hb Hq.
  - destruct (busy_round out e q2 s Hb Hq) as (evs & Hjobs & Hb' & _ & Hst).
    exists evs. split; [exact Hjobs|]. split; [apply Hb'|exact Hst].
  - destruct (busy_round out x (q1 ++ e :: q2) s Hb Hq)
      as (evs1 & Hjobs1 & Hb1 & Hq1 & _).
    destruct (IH e q2 _ Hb1 Hq1) as (evs2 & Hjobs2 & Hc2 & Hst2).
    exists (evs1 ++ evs2). split; [apply Forall_app; split; assumption|].
    cbv zeta. rewrite run_events_app. split; assumption.
Qed.

Lemma in_backlog_split : forall h s,
  (1 <= in_backlog h s)%nat ->
  exists q1 e q2, queue s = q1 ++ e :: q2 /\ handle e = h.
Proof.
  intros h s H. unfold in_backlog in H.
  assert (Hin : In h (map handle (queue s))) by (apply count_In; lia).
  apply in_map_iff in Hin. destruct Hin as (e & He & Hin).
  apply in_split in Hin. destruct Hin as (q1 & q2 & Hq). eauto.
Qed.

(** The jobs of its chain bring a dispatched entry to its settlement. *)
Lemma dispatched_settles : forall out h s,
  coherent s -> times KDispatched h s = 1%nat ->
  exists jobs,
    Forall (chain_job out) jobs
    /\ let s' := run_events jobs s in
       times KSettled h s' = 1%nat
       /\ (times KSettled h s = 0%nat ->
           promise_state h (promises s') = Some (out h)).
Proof.
  intros out h s Hc Hd.
  assert (L := proj1 Hc h). destruct L as (L1 & L2 & L3 & L4 & L5).
  destruct (Nat.eq_dec (times KSettled h s) 0) as [Z0|NZ].
  - assert (Hst : exists st, st <> Settled /\ stage_of h (chains s) = Some st).
    { destruct (Nat.eq_dec (in_flight Scheduled h s) 0) as [Z1|NZ1].
      - exists Started. split; [discriminate|].
        apply stage_of_unique; [apply Hc|lia].
      - exists Scheduled. split; [discriminate|].
        apply stage_of_unique; [apply Hc|lia]. }
    destruct Hst as (st & Hne & Hst).
    destruct (chain_runs_to_settled out h st s Hc Hst)
      as (evs & Hjobs & _ & _ & _ & _ & _ & H).
    exists evs. split; [exact Hjobs|]. cbv zeta. destruct (H Hne) as [H1 H2]. auto.
  - exists []. split; [constructor|]. simpl. split; [|intros; contradiction].
    pose proof (lifecycle_bounds h s (proj1 Hc h)). lia.
Qed.

Lemma seen_dispatch_obs : forall k l,
  k <> KDispatched -> seen k (rev (map dispatch_obs l)) = [].
Proof.
  intros k l Hk. induction l as [|e l IH]; simpl; [reflexivity|].
  rewrite seen_app, IH. destruct k; try reflexivity. contradiction.
Qed.

(** [start()] on a queue within its limit leaves the backlog empty or the
    queue busy, and only dispatches. *)
Lemma start_outcome : forall s,
  coherent s -> running s <= concurrency s -> 0 < concurrency s ->
  let s0 := start s in
  coherent s0
  /\ (queue s0 = [] \/ busy s0)
  /\ (forall k h, k <> KDispatched -> times k h s0 = times k h s).
Proof.
  intros s Hc Hle Hpos s0.
  assert (Hc0 : coherent s0) by (apply (start_preserves _ coherent_stable); exact Hc).
  split; [exact Hc0|].
  subst s0. unfold start, _process in *.
  cbn [paused set_paused] in *.
  rewrite process_while_closed in * by reflexivity.
  cbn [queue set_paused observe] in *.
  set (k := slots (set_paused false (observe StartCalled s))) in *.
  assert (Hk : k = Z.to_nat (concurrency s - running s)) by reflexivity.
  split.
  - cbn [queue]. destruct (skipn k (queue s)) as [|x r] eqn:E; [left; reflexivity|].
    right. refine (conj _ (conj _ (conj _ Hc0))); cbn [paused running concurrency];
      try reflexivity; try exact Hpos.
    assert (Hlen : (k < length (queue s))%nat).
    { destruct (Nat.lt_ge_cases k (length (queue s))) as [H|H]; [exact H|].
      rewrite skipn_all2 in E by exact H. discriminate. }
    rewrite length_firstn. cbn [running concurrency set_paused observe]. lia.
  - intros k' h Hk'. unfold times. cbn [log set_paused observe].
    rewrite seen_app, count_app, seen_dispatch_obs by exact Hk'.
    rewrite seen_cons. destruct k'; reflexivity.
Qed.

(** ** Settlement of the completion handles; C7 *)

Lemma reachable_extend : forall options evs s,
  reachable_from options s -> reachable_from options (run_events evs s).
Proof.
  intros options evs s [evs0 ->]. exists (evs0 ++ evs).
  symmetry. apply run_events_app.
Qed.

(** An entry dropped by [clear] is never dispatched, its task is never
    called and its promise stays pending, whatever happens next. *)
Lemma dropped_never_served : forall h s evs,
  coherent s -> (1 <= times KDropped h s)%nat ->
  let s' := run_events evs s in
  times KDispatched h s' = 0%nat /\ times KInvoked h s' = 0%nat
  /\ times KSettled h s' = 0%nat
  /\ promise_state h (promises s') = None.
Proof.
  intros h s evs Hc Hd s'.
  assert (Hc' : coherent s') by (apply (stable_run_events _ coherent_stable); exact Hc).
  pose proof (times_grow KDropped h evs s) as G. fold s' in G.
  pose proof (lifecycle_bounds h s' (proj1 Hc' h)) as B.
  destruct (proj1 Hc' h) as (L1 & L2 & L3 & L4 & L5).
  assert (Z0 : times KSettled h s' = 0%nat) by lia.
  repeat split; try lia.
  rewrite (proj1 (proj2 Hc') h). apply log_outcome_pending. exact Z0.
Qed.

Lemma settled_has_outcome : forall h s,
  coherent s -> (1 <= times KSettled h s)%nat ->
  exists o, promise_state h (promises s) = Some o.
Proof.
  intros h s Hc Hs. rewrite (proj1 (proj2 Hc) h).
  destruct (log_outcome h (log s)) as [o|] eqn:E; [eauto|].
  apply log_outcome_pending in E. unfold times in Hs. lia.
Qed.

(** C7. [clear()] empties the backlog at once ([size] is 0) and touches
    nothing else: the promise chains, the running count and the promises
    are as before, and the outcome of a running task settles its promise as
    it would have.  Every entry discarded was pending, and after any further
    calls and settlements it has still not been dispatched, its task has
    not been called, and its promise is still pending. *)
Theorem clear_discards_backlog_silently :
  forall (options : Options) (evs : list Event),
    let s := run_events evs (constructor options) in
    let s1 := react (EvCall CallClear) s in
    s1 = clear s
    /\ size s1 = 0%nat
    /\ chains s1 = chains s /\ running s1 = running s
    /\ promises s1 = promises s
    /\ paused s1 = paused s /\ emptyCallbacks s1 = emptyCallbacks s
    /\ (forall h o,
          chains (react (EvOutcome h o) s1) = chains (react (EvOutcome h o) s)
          /\ promises (react (EvOutcome h o) s1)
             = promises (react (EvOutcome h o) s))
    /\ (forall e, In e (queue s) ->
          promise_state (handle e) (promises s) = None
          /\ forall evs',
               let s' := run_events evs' s1 in
               times KDispatched (handle e) s' = 0%nat
               /\ times KInvoked (handle e) s' = 0%nat
               /\ times KSettled (handle e) s' = 0%nat
               /\ promise_state (handle e) (promises s') = None).
Proof.
  intros options evs s s1.
  assert (Hr : reachable_from options s) by (exists evs; reflexivity).
  assert (Hc := coherent_reachable options s Hr).
  assert (E1 : s1 = clear s) by apply react_clear.
  split; [exact E1|]. rewrite E1.
  destruct (clear_fields s) as (_ & _ & F3 & F4 & F5 & F6 & F7 & F8 & _).
  unfold size. rewrite F3.
  split; [reflexivity|]. repeat (split; [assumption|]). split.
  { intros h o. cbn [react]. unfold settle. rewrite F7.
    destruct (stage_of h (chains s)) as [[| |]|]; try (split; assumption).
    rewrite F8. split; reflexivity. }
  intros e He.
  assert (Hb : (1 <= in_backlog (handle e) s)%nat).
  { unfold in_backlog. apply count_In. apply in_map. exact He. }
  pose proof (lifecycle_bounds (handle e) s (proj1 Hc (handle e))) as B.
  destruct (proj1 Hc (handle e)) as (L1 & L2 & L3 & L4 & L5).
  split.
  { rewrite (proj1 (proj2 Hc)). apply log_outcome_pending.
    change (times KSettled (handle e) s = 0%nat). lia. }
  intros evs'. apply dropped_never_served.
  - apply (keeps_clear _ _ coherent_stable); auto.
  - unfold times. rewrite clear_closed. cbn [log].
    rewrite seen_app, count_app, seen_dropped, count_rev.
    fold (in_backlog (handle e) s). lia.
Qed.

Lemma clear_discards_backlog_silently_witness :
  let s := run_events
             [EvCall CallPause; EvCall (CallAdd 1%nat None);
              EvCall (CallAdd 2%nat None); EvCall (CallAdd 3%nat None)]
             (constructor (mkOptions None None)) in
  let s' := run_events
              [EvCall CallStart; EvCall (CallAdd 4%nat None); EvInvoke 3%nat;
               EvOutcome 3%nat (Fulfilled 0); EvFinally 3%nat]
              (react (EvCall CallClear) s) in
  times KDispatched 1%nat s' = 0%nat
  /\ times KInvoked 1%nat s' = 0%nat
  /\ times KSettled 1%nat s' = 0%nat
  /\ promise_state 1%nat (promises s') = None.
Proof.
  intros s.
  apply (clear_discards_backlog_silently (mkOptions None None)
           [EvCall CallPause; EvCall (CallAdd 1%nat None);
            EvCall (CallAdd 2%nat None); EvCall (CallAdd 3%nat None)]
           ) with (e := mkEntry 2%nat 1 1%nat).
  vm_compute. tauto.
Defined.

(** ** The backlog is in serving order and is served first in, first out *)

Lemma In_seen : forall k o h l,
  In o l -> In h (obs_handle k o) -> In h (seen k l).
Proof.
  intros k o h l Ho Hh. unfold seen. apply in_flat_map. exists o. auto.
Qed.

(** A handle accepted once has one priority. *)
Lemma accepted_priority_unique : forall h p p' l,
  (count h (seen KAccepted l) <= 1)%nat ->
  In (Accepted h p) l -> In (Accepted h p') l -> p = p'.
Proof.
  induction l as [|o l IH]; intros Hc H1 H2; [contradiction|].
  rewrite seen_cons, count_app in Hc.
  assert (Hin : forall q, In (Accepted h q) l -> (1 <= count h (seen KAccepted l))%nat).
  { intros q Hq. apply count_In. apply (In_seen KAccepted (Accepted h q)); simpl; auto. }
  destruct H1 as [H1|H1], H2 as [H2|H2].
  - congruence.
  - subst o. simpl in Hc. rewrite Nat.eqb_refl in Hc.
    specialize (Hin p' H2). lia.
  - subst o. simpl in Hc. rewrite Nat.eqb_refl in Hc.
    specialize (Hin p H1). lia.
  - apply IH; auto. lia.
Qed.

Lemma backlog_handles_allocated : forall s,
  coherent s -> Forall (fun x => (handle x < fresh s)%nat) (queue s).
Proof.
  intros s Hc. apply Forall_forall. intros x Hx.
  assert (Hb : (1 <= in_backlog (handle x) s)%nat).
  { unfold in_backlog. apply count_In, in_map, Hx. }
  destruct (proj1 Hc (handle x)) as (L1 & L2 & _).
  destruct (handle x <? fresh s)%nat eqn:E; [apply Nat.ltb_lt; exact E|lia].
Qed.

Lemma fifo_log_quiet : forall o l,
  obs_handle KDispatched o = [] -> fifo_log l -> fifo_log (o :: l).
Proof.
  intros o l Ho Hl. simpl. split; [|exact Hl].
  destruct o; auto. discriminate.
Qed.

Lemma fifo_log_dropped : forall q l,
  fifo_log l -> fifo_log (rev (map (fun e => Dropped (handle e)) q) ++ l).
Proof.
  intros q l Hl. revert l Hl. induction q as [|e q IH]; intros l Hl; simpl; [exact Hl|].
  rewrite <- app_assoc. apply IH. simpl. auto.
Qed.

Lemma backlog_ordered_observe : forall o s,
  backlog_ordered s -> backlog_ordered (observe o s).
Proof.
  intros o s [H1 H2]. split; [exact H1|].
  intros e He. simpl. right. apply H2, He.
Qed.

(** The head of the backlog goes first: whoever was admitted earlier with
    the same priority is no longer in the backlog. *)
Lemma dispatch_is_fifo : forall e rest s,
  queue s = e :: rest -> coherent s -> backlog_ordered s ->
  forall ha, (ha < handle e)%nat -> In (Accepted ha (priority e)) (log s) ->
             In ha (seen KDispatched (log s)) \/ In ha (seen KDropped (log s)).
Proof.
  intros e rest s Hq Hc [Hs Hp] ha Hlt Hacc.
  destruct (proj1 Hc ha) as (L1 & L2 & _).
  pose proof (lifecycle_bounds ha s (proj1 Hc ha)) as B.
  assert (A1 : (1 <= times KAccepted ha s)%nat).
  { apply count_In. apply (In_seen KAccepted (Accepted ha (priority e))); simpl; auto. }
  destruct (Nat.eq_dec (in_backlog ha s) 0) as [Z0|NZ].
  - destruct (Nat.eq_dec (times KDispatched ha s) 0) as [Z1|NZ1].
    + right. apply count_In. unfold times in *. lia.
    + left. apply count_In. unfold times in *. lia.
  - exfalso.
    destruct (in_backlog_split ha s) as (q1 & a & q2 & Hqa & Ha); [lia|].
    assert (Hin : In a (queue s)) by (rewrite Hqa; apply in_or_app; right; left; reflexivity).
    rewrite Hq in Hin, Hs. destruct Hin as [Hin|Hin]; [subst a; lia|].
    inversion Hs as [|? ? _ Hall]; subst.
    rewrite Forall_forall in Hall. specialize (Hall a Hin).
    assert (Hpa : In (Accepted (handle a) (priority a)) (log s)).
    { apply Hp. rewrite Hq. right. exact Hin. }
    assert (Epa : priority a = priority e).
    { apply (accepted_priority_unique (handle a) _ _ (log s)); auto.
      unfold times in B. lia. }
    unfold ahead in Hall. lia.
Qed.

Lemma served_in_order_stable :
  stable_under coherent (fun s => backlog_ordered s /\ fifo_log (log s)).
Proof.
  constructor.
  - intros t p s Hc [[Hs Hp] Hf]. split; [split|].
    + unfold enqueue. cbn [queue set_queue].
      rewrite sort_snoc by (apply ahead_by_priority; exact Hs).
      apply place_ordered; [exact Hs|]. apply backlog_handles_allocated, Hc.
    + intros e He. unfold enqueue in *. cbn [queue log set_queue observe] in *.
      apply (Permutation_in e (sort_perm _)) in He.
      apply in_app_or in He. destruct He as [He|[<-|[]]].
      * right. apply Hp, He.
      * left. reflexivity.
    + apply fifo_log_quiet; [reflexivity|exact Hf].
  - intros e rest s Hq _ _ Hc [[Hs Hp] Hf]. split; [split|].
    + cbn [queue dispatch observe set_chains set_running set_queue].
      rewrite Hq in Hs. inversion Hs; assumption.
    + intros x Hx. cbn [queue log dispatch observe set_chains set_running set_queue] in *.
      right. apply Hp. rewrite Hq. right. exact Hx.
    + cbn [log dispatch observe]. cbn [fifo_log]. split; [|exact Hf].
      cbn [log set_chains set_running set_queue].
      apply (dispatch_is_fifo e rest s Hq Hc). split; assumption.
  - intros s _ [Ho Hf]. split; [apply (backlog_ordered_observe StartCalled s Ho)|].
    apply fifo_log_quiet; [reflexivity|exact Hf].
  - intros s _ [Ho Hf]. split; [apply (backlog_ordered_observe PauseCalled s Ho)|].
    apply fifo_log_quiet; [reflexivity|exact Hf].
  - intros s _ [Ho Hf]. rewrite clear_closed. split; [split|].
    + constructor.
    + intros e [].
    + cbn [log]. apply fifo_log_dropped, Hf.
  - intros cbs s _ H. exact H.
  - intros name s _ [Ho Hf]. split; [apply backlog_ordered_observe, Ho|].
    apply fifo_log_quiet; [reflexivity|exact Hf].
  - intros name sz pd s _ [Ho Hf]. split; [apply backlog_ordered_observe, Ho|].
    apply fifo_log_quiet; [reflexivity|exact Hf].
  - intros h s _ _ [Ho Hf]. split; [apply (backlog_ordered_observe (Invoked h) _ Ho)|].
    apply fifo_log_quiet; [reflexivity|exact Hf].
  - intros h o s Hst _ [Ho Hf]. unfold settle. rewrite Hst. split.
    + apply backlog_ordered_observe. exact Ho.
    + destruct o; apply fifo_log_quiet; try reflexivity; exact Hf.
  - intros h s _ _ [Ho Hf]. split; [apply (backlog_ordered_observe (Finished h) _ Ho)|].
    apply fifo_log_quiet; [reflexivity|exact Hf].
Qed.

Lemma served_in_order_reachable : forall options s,
  reachable_from options s ->
  coherent s /\ backlog_ordered s /\ fifo_log (log s).
Proof.
  intros options s Hr.
  apply (stable_reachable _ (stable_and _ _ coherent_stable served_in_order_stable)
           options s); [|exact Hr].
  split; [apply coherent_constructor|].
  split; [split; [constructor|intros e []]|exact I].
Qed.

(** ** C8, C9, C10: admission *)

Lemma add_unfold : forall t p s,
  add t p s =
  if autoStart s && negb (paused s) then _process (enqueue t p s)
  else enqueue t p s.
Proof. reflexivity. Qed.

Lemma process_closed : forall s,
  paused s = false ->
  _process s =
  mkQueue (concurrency s) (autoStart s) (skipn (slots s) (queue s))
          (running s + Z.of_nat (length (firstn (slots s) (queue s))))
          (paused s) (emptyCallbacks s)
          (chains s ++ map new_chain (firstn (slots s) (queue s)))
          (promises s) (fresh s)
          (rev (map dispatch_obs (firstn (slots s) (queue s))) ++ log s).
Proof.
  intros s Hp. unfold _process.
  rewrite (process_while_closed (queue s) s eq_refl), Hp. reflexivity.
Qed.

Lemma process_frame : forall s,
  concurrency (_process s) = concurrency s
  /\ autoStart (_process s) = autoStart s
  /\ paused (_process s) = paused s.
Proof.
  intros s. destruct (paused s) eqn:Hp.
  - unfold _process. rewrite Hp. auto.
  - rewrite process_closed by exact Hp. auto.
Qed.

(** After the dispatch loop of a queue that is not paused, the backlog is
    empty or no slot is free. *)
Lemma process_saturates : forall s,
  paused s = false ->
  queue (_process s) = [] \/ concurrency (_process s) <= running (_process s).
Proof.
  intros s Hp. rewrite process_closed by exact Hp. cbn [queue concurrency running].
  destruct (skipn (slots s) (queue s)) as [|x r] eqn:E; [left; reflexivity|right].
  assert (Hlen : (slots s < length (queue s))%nat).
  { destruct (Nat.lt_ge_cases (slots s) (length (queue s))) as [H|H]; [exact H|].
    rewrite skipn_all2 in E by exact H. discriminate. }
  rewrite length_firstn. unfold slots in *. lia.
Qed.

Lemma eager_reachable : forall options s, reachable_from options s -> eager s.
Proof.
  intros options s Hr.
  apply (reachable_invariant eager) with (options := options); try exact Hr.
  - intros t p s0 _ Ha Hp. rewrite add_unfold in *.
    destruct (autoStart s0 && negb (paused s0)) eqn:E.
    + destruct (process_frame (enqueue t p s0)) as (_ & _ & F3).
      rewrite F3 in Hp. apply process_saturates. exact Hp.
    + simpl in Ha, Hp. rewrite Ha, Hp in E. discriminate.
  - intros s0 _ _ _. unfold start. apply process_saturates. reflexivity.
  - intros s0 _ _ Hp. discriminate.
  - intros s0 _ _ _. left. apply (clear_fields s0).
  - intros cb s0 H0. unfold onEmpty, _checkEmpty. cbv zeta.
    match goal with |- context [if ?c then _ else _] => destruct c end; exact H0.
  - intros name s0 H0. exact H0.
  - intros h s0 H0. unfold invoke.
    destruct (stage_of h (chains s0)) as [[| |]|]; exact H0.
  - intros h o s0 H0. unfold settle.
    destruct (stage_of h (chains s0)) as [[| |]|]; exact H0.
  - intros h s0 H0.
    destruct (stage_of h (chains s0)) as [[| |]|] eqn:Est;
      try (unfold finally_; rewrite Est; exact H0).
    rewrite finally_unfold by exact Est.
    assert (E : forall s1, eager s1 -> eager (fst (_checkEmpty s1))).
    { intros s1 H1. unfold _checkEmpty. destruct (drained s1); exact H1. }
    apply E. intros Ha Hp.
    destruct (process_frame (finish h s0)) as (_ & _ & F3).
    rewrite F3 in Hp. apply process_saturates. exact Hp.
  - intros _ _. left. reflexivity.
Qed.

Lemma sort_snoc_highest : forall e q,
  Forall (fun x => priority x < priority e) q -> sort (q ++ [e]) = e :: sort q.
Proof.
  induction q as [|x q IH]; intros H; [reflexivity|].
  inversion H; subst. simpl. rewrite IH by assumption. simpl.
  destruct (priority e - priority x >? 0) eqn:E; [reflexivity|lia].
Qed.

(** [add] on a queue in any state, with dispatch on admission and a free
    slot. *)
Lemma add_takes_free_slot : forall t p s,
  autoStart s = true -> paused s = false -> running s < concurrency s ->
  let e := mkEntry t (or_default p 1) (fresh s) in
  let s' := add t p s in
  running s + 1 <= running s'
  /\ (exists first rest,
        sort (queue s ++ [e]) = first :: rest
        /\ In (new_chain first) (chains s')
        /\ In (dispatch_obs first) (log s'))
  /\ (Forall (fun x => priority x < priority e) (queue s) ->
      chains s' = chains s ++ new_chain e
                  :: map new_chain (firstn (slots s - 1) (sort (queue s)))
      /\ queue s' = skipn (slots s - 1) (sort (queue s))).
Proof.
  intros t p s Ha Hp Hlt e s'. subst s'. rewrite add_unfold, Ha, Hp. simpl andb.
  cbv iota. rewrite process_closed by exact Hp.
  assert (Hk : slots (enqueue t p s) = S (slots s - 1)).
  { unfold slots. simpl. lia. }
  rewrite Hk. cbn [queue enqueue set_queue running chains log observe set_fresh].
  fold e.
  destruct (sort (queue s ++ [e])) as [|first rest] eqn:E.
  { exfalso. pose proof (Permutation_length (sort_perm (queue s ++ [e]))) as L.
    rewrite E, length_app in L. simpl in L. lia. }
  cbn [firstn skipn map length rev]. split; [lia|]. split.
  - exists first, rest. split; [reflexivity|]. split.
    + apply in_or_app. right. left. reflexivity.
    + apply in_or_app. left. apply in_or_app. right. left. reflexivity.
  - intros Hhigh. rewrite sort_snoc_highest in E by exact Hhigh.
    inversion E; subst. split; reflexivity.
Qed.

(** C8. On a queue that is not paused and dispatches on admission, [add]
    runs the dispatch step before it returns.  In any state with a free
    slot, the running count is higher when [add] returns and the head of the
    sorted backlog has been dispatched; when the priority of the new entry
    is the highest, that head is the new entry, and what is left in the
    backlog are older entries.  In the states such a queue reaches there is
    no backlog while a slot is free, so [add] dispatches the new entry
    itself: it adds one to the running count and leaves the backlog empty;
    with no free slot it only puts the entry at its place in the backlog. *)
Theorem add_dispatches_before_returning :
  (forall (t : Task) (p : option Z) (s : AsyncQueue),
      let e := mkEntry t (or_default p 1) (fresh s) in
      let s' := add t p s in
      autoStart s = true -> paused s = false ->
      s' = _process (enqueue t p s)
      /\ react (EvCall (CallAdd t p)) s = s'
      /\ (running s < concurrency s ->
          running s + 1 <= running s'
          /\ (exists first rest,
                sort (queue s ++ [e]) = first :: rest
                /\ In (new_chain first) (chains s')
                /\ In (dispatch_obs first) (log s'))
          /\ (Forall (fun x => priority x < priority e) (queue s) ->
              chains s' = chains s ++ new_chain e
                          :: map new_chain (firstn (slots s - 1) (sort (queue s)))
              /\ queue s' = skipn (slots s - 1) (sort (queue s)))))
  /\ (forall (options : Options) (evs : list Event) (t : Task) (p : option Z),
        let s := run_events evs (constructor options) in
        let e := mkEntry t (or_default p 1) (fresh s) in
        let s' := add t p s in
        autoStart s = true -> paused s = false ->
        (running s < concurrency s ->
         queue s = []
         /\ running s' = running s + 1
         /\ queue s' = []
         /\ chains s' = chains s ++ [new_chain e]
         /\ dispatch_order s' = dispatch_order s ++ [fresh s])
        /\ (concurrency s <= running s ->
            running s' = running s /\ chains s' = chains s
            /\ queue s' = place e (queue s))).
Proof.
  split.
  { intros t p s e s' Ha Hp.
    assert (U : s' = _process (enqueue t p s)).
    { subst s'. rewrite add_unfold, Ha, Hp. reflexivity. }
    split; [exact U|]. split; [apply react_add|].
    intros Hlt. apply (add_takes_free_slot t p s Ha Hp Hlt). }
  intros options evs t p s e s' Ha Hp.
  assert (Hr : reachable_from options s) by (exists evs; reflexivity).
  destruct (served_in_order_reachable options s Hr) as (Hc & [Hs _] & _).
  pose proof (eager_reachable options s Hr Ha Hp) as He.
  assert (U : s' = _process (enqueue t p s)).
  { subst s'. rewrite add_unfold, Ha, Hp. reflexivity. }
  split.
  - intros Hlt. destruct He as [Hq|Hfull]; [|lia].
    split; [exact Hq|].
    rewrite U, process_closed by exact Hp.
    assert (Hk : slots (enqueue t p s) = S (slots s - 1)).
    { unfold slots. simpl. lia. }
    rewrite Hk. unfold dispatch_order, seen.
    cbn [queue enqueue set_queue running chains log observe set_fresh].
    rewrite Hq. simpl. rewrite firstn_nil. simpl.
    repeat split; try reflexivity. apply skipn_nil.
  - intros Hfull. rewrite U, process_closed by exact Hp.
    assert (Hk : slots (enqueue t p s) = 0%nat).
    { unfold slots. simpl. lia. }
    rewrite Hk. cbn [firstn skipn map length rev app queue running chains enqueue
      set_queue observe set_fresh].
    rewrite app_nil_r, Z.add_0_r. repeat split.
    apply sort_snoc, ahead_by_priority, Hs.
Qed.

Lemma add_dispatches_before_returning_witness :
  let s := run_events [EvCall (CallAdd 1%nat None)]
             (constructor (mkOptions (Some 2) None)) in
  let s' := add 2%nat (Some 4) s in
  running s' = running s + 1 /\ queue s' = []
  /\ chains s' = chains s ++ [new_chain (mkEntry 2%nat 4 1%nat)].
Proof.
  intros s s'.
  destruct (proj2 add_dispatches_before_returning (mkOptions (Some 2) None)
              [EvCall (CallAdd 1%nat None)] 2%nat (Some 4) eq_refl eq_refl)
    as (H & _).
  destruct H as (_ & H1 & H2 & H3 & _); [vm_compute; reflexivity|].
  split; [exact H1|]. split; [exact H2|exact H3].
Defined.

(** C9. An explicit priority of 0 is falsy, so the entry stored has the
    default priority 1: [add] with priority 0 does exactly what [add] with
    no priority, or with priority 1, does.  In the sorted backlog the new
    entry stands before every entry of negative priority that was there,
    and an entry of negative priority admitted later is placed behind it. *)
Theorem priority_zero_is_default_priority :
  forall (t : Task) (s : AsyncQueue),
    let e := mkEntry t 1 (fresh s) in
    or_default (Some 0) 1 = 1
    /\ add t (Some 0) s = add t None s
    /\ add t (Some 0) s = add t (Some 1) s
    /\ In e (queue (enqueue t (Some 0) s))
    /\ (forall x, In x (queue s) -> priority x < 0 ->
        exists l1 l2 l3, queue (enqueue t (Some 0) s) = l1 ++ e :: l2 ++ x :: l3)
    /\ (forall t' p' s2, p' < 0 -> In e (queue s2) ->
        exists l1 l2 l3,
          queue (enqueue t' (Some p') s2)
          = l1 ++ e :: l2 ++ mkEntry t' p' (fresh s2) :: l3).
Proof.
  intros t s e. split; [reflexivity|]. split; [reflexivity|].
  split; [reflexivity|]. split; [|split].
  - unfold enqueue. cbn [queue set_queue].
    apply (Permutation_in (l := queue s ++ [e]) e (Permutation_sym (sort_perm _))).
    apply in_or_app. right. left. reflexivity.
  - intros x Hx Hneg. unfold enqueue. cbn [queue set_queue].
    change (mkEntry t (or_default (Some 0) 1) (fresh s)) with e.
    apply sort_higher_first.
    + apply in_or_app. right. left. reflexivity.
    + apply in_or_app. left. exact Hx.
    + simpl. lia.
  - intros t' p' s2 Hneg He. unfold enqueue. cbn [queue set_queue].
    assert (Ep : or_default (Some p') 1 = p').
    { unfold or_default. destruct (p' =? 0) eqn:E; [apply Z.eqb_eq in E; lia|reflexivity]. }
    rewrite Ep. apply sort_higher_first.
    + apply in_or_app. left. exact He.
    + apply in_or_app. right. left. reflexivity.
    + simpl. lia.
Qed.

Lemma priority_zero_is_default_priority_witness :
  let s := run_events [EvCall CallPause; EvCall (CallAdd 1%nat (Some (-2)))]
             (constructor (mkOptions None None)) in
  exists l1 l2 l3,
    queue (enqueue 2%nat (Some 0) s)
    = l1 ++ mkEntry 2%nat 1 1%nat :: l2 ++ mkEntry 1%nat (-2) 0%nat :: l3.
Proof.
  intros s.
  apply (priority_zero_is_default_priority 2%nat s).
  - vm_compute. left. reflexivity.
  - vm_compute. reflexivity.
Defined.

Lemma StronglySorted_split : forall (R : Entry -> Entry -> Prop) l1 a l2 b l3,
  StronglySorted R (l1 ++ a :: l2 ++ b :: l3) -> R a b.
Proof.
  induction l1 as [|x l1 IH]; intros a l2 b l3 H.
  - simpl in H. inversion H as [|? ? _ Hall]; subst.
    rewrite Forall_forall in Hall. apply Hall.
    apply in_or_app. right. left. reflexivity.
  - simpl in H. inversion H; subst. eapply IH; eassumption.
Qed.

(** C10. The sort of [add] is the stable sort by descending priority: its
    result is a permutation of the array in descending order of priority
    in which entries of equal priority keep their order, and it is the only
    such arrangement.  Hence in every state a queue reaches the backlog is
    in descending order of priority and, among equal priorities, in order
    of admission; an entry admitted is placed behind the entries of the
    same priority; the dispatch loop takes the entries from the front, in
    order; and on the log, whenever an entry was dispatched, every entry
    admitted before it with the same priority had already been dispatched
    (or dropped by [clear]). *)
Theorem equal_priority_first_in_first_out :
  (forall l,
      Permutation (sort l) l
      /\ StronglySorted by_priority (sort l)
      /\ (forall p, filter (same_priority p) (sort l) = filter (same_priority p) l)
      /\ (forall l',
            StronglySorted by_priority l' ->
            (forall p, filter (same_priority p) l' = filter (same_priority p) l) ->
            l' = sort l))
  /\ (forall (options : Options) (evs : list Event),
        let s := run_events evs (constructor options) in
        StronglySorted ahead (queue s)
        /\ (forall q1 a q2 b q3,
              queue s = q1 ++ a :: q2 ++ b :: q3 ->
              priority b <= priority a
              /\ (priority a = priority b -> (handle a < handle b)%nat))
        /\ (forall t p,
              queue (enqueue t p s)
              = place (mkEntry t (or_default p 1) (fresh s)) (queue s))
        /\ (paused s = false ->
            queue s = firstn (slots s) (queue s) ++ queue (_process s)
            /\ chains (_process s)
               = chains s ++ map new_chain (firstn (slots s) (queue s))
            /\ dispatch_order (_process s)
               = dispatch_order s ++ map handle (firstn (slots s) (queue s)))
        /\ fifo_log (log s)).
Proof.
  split.
  - intros l. split; [apply sort_perm|]. split; [apply sort_descending|].
    split; [intros p; apply sort_stable|]. apply stable_sort_unique.
  - intros options evs s.
    assert (Hr : reachable_from options s) by (exists evs; reflexivity).
    destruct (served_in_order_reachable options s Hr) as (Hc & [Hs _] & Hf).
    split; [exact Hs|]. split; [|split; [|split; [|exact Hf]]].
    + intros q1 a q2 b q3 Hq. rewrite Hq in Hs.
      apply StronglySorted_split in Hs. unfold ahead in Hs. split; lia.
    + intros t p. unfold enqueue. cbn [queue set_queue].
      apply sort_snoc, ahead_by_priority, Hs.
    + intros Hp. rewrite process_closed by exact Hp.
      cbn [queue chains]. split; [symmetry; apply firstn_skipn|].
      split; [reflexivity|].
      unfold dispatch_order, seen. cbn [log]. rewrite flat_map_app, rev_app_distr.
      f_equal. generalize (firstn (slots s) (queue s)) as d.
      induction d as [|x d IH]; [reflexivity|].
      simpl. rewrite flat_map_app, rev_app_distr, IH. reflexivity.
Qed.

Lemma equal_priority_first_in_first_out_witness :
  let s := run_events
             [EvCall CallPause; EvCall (CallAdd 1%nat (Some 2));
              EvCall (CallAdd 2%nat (Some 2)); EvCall (CallAdd 3%nat (Some 5));
              EvCall (CallAdd 4%nat (Some 2))]
             (constructor (mkOptions None None)) in
  priority (mkEntry 4%nat 2 3%nat) <= priority (mkEntry 1%nat 2 0%nat)
  /\ (priority (mkEntry 1%nat 2 0%nat) = priority (mkEntry 4%nat 2 3%nat) ->
      (handle (mkEntry 1%nat 2 0%nat) < handle (mkEntry 4%nat 2 3%nat))%nat).
Proof.
  intros s.
  apply (proj2 equal_priority_first_in_first_out (mkOptions None None)
           [EvCall CallPause; EvCall (CallAdd 1%nat (Some 2));
            EvCall (CallAdd 2%nat (Some 2)); EvCall (CallAdd 3%nat (Some 5));
            EvCall (CallAdd 4%nat (Some 2))])
    with (q1 := [mkEntry 3%nat 5 2%nat]) (q2 := [mkEntry 2%nat 2 1%nat])
         (q3 := []).
  reflexivity.
Defined.

(** ** C2: every admitted entry settles, by the jobs of the chains alone *)

Lemma concurrency_constant_stable : forall N, stable (fun s => concurrency s = N).
Proof.
  intros N. constructor; try (intros; assumption).
  - intros s _ H. rewrite clear_closed. exact H.
  - intros h o s Hst _ H. unfold settle. rewrite Hst. exact H.
Qed.

Lemma concurrency_reachable : forall options s,
  reachable_from options s -> concurrency s = concurrency (constructor options).
Proof.
  intros options s Hr.
  apply (stable_reachable _ (concurrency_constant_stable _) options s);
    [reflexivity|exact Hr].
Qed.

(** Only a queue with a positive limit ever has a promise chain. *)
Lemma chains_need_positive_limit :
  stable_under coherent (fun s => chains s = [] \/ 0 < concurrency s).
Proof.
  assert (N : forall h st (s : AsyncQueue),
             stage_of h (chains s) = Some st ->
             chains s = [] \/ 0 < concurrency s -> 0 < concurrency s).
  { intros h st s Hst [E|H]; [rewrite E in Hst; discriminate|exact H]. }
  constructor; try (intros; assumption).
  - intros e rest s _ Hlt _ (_ & _ & R) _. right.
    cbn [concurrency dispatch observe set_chains set_running set_queue]. lia.
  - intros s _ H. rewrite clear_closed. exact H.
  - intros h s Hst _ H. right. exact (N h _ s Hst H).
  - intros h o s Hst _ H. right. unfold settle. rewrite Hst.
    exact (N h _ s Hst H).
  - intros h s Hst _ H. right. exact (N h _ s Hst H).
Qed.

Lemma dispatched_positive_limit : forall options s h st,
  reachable_from options s -> stage_of h (chains s) = Some st ->
  0 < concurrency (constructor options).
Proof.
  intros options s h st Hr Hst.
  rewrite <- (concurrency_reachable options s Hr).
  destruct (stable_reachable _
              (stable_and _ _ coherent_stable chains_need_positive_limit)
              options s) as [_ [E|H]]; [|exact Hr| |exact H].
  - split; [apply (coherent_reachable options); exists []; reflexivity|].
    left. reflexivity.
  - rewrite E in Hst. discriminate.
Qed.

(** After what [resume] asks of the client, the backlog is empty or no slot
    is free, and nothing but dispatches has happened. *)
Lemma resume_outcome : forall options s,
  0 < concurrency (constructor options) ->
  reachable_from options s ->
  let s0 := run_events (resume s) s in
  coherent s0
  /\ (queue s0 = [] \/ busy s0)
  /\ (forall k h, k <> KDispatched -> times k h s0 = times k h s)
  /\ paused s0 = false
  /\ concurrency s0 = concurrency (constructor options).
Proof.
  intros options s Hpos Hr s0.
  assert (Hc := coherent_reachable options s Hr).
  destruct (within_limit_reachable options s) as [Hconc Hle]; [lia|exact Hr|].
  subst s0. unfold resume.
  destruct (autoStart s && negb (paused s)) eqn:E; cbn [run_events fold_left].
  - apply andb_true_iff in E. destruct E as [Ha Hp].
    apply negb_true_iff in Hp.
    split; [exact Hc|]. split; [|split; [reflexivity|split; assumption]].
    destruct (eager_reachable options s Hr Ha Hp) as [Hq|Hfull];
      [left; exact Hq|right].
    refine (conj Hp (conj _ (conj _ Hc))); lia.
  - rewrite react_start.
    destruct (start_outcome s Hc) as (Hc0 & Hq0 & Hsame); [lia|lia|].
    split; [exact Hc0|]. split; [exact Hq0|]. split; [exact Hsame|].
    unfold start.
    destruct (process_frame (set_paused false (observe StartCalled s)))
      as (F1 & _ & F3).
    rewrite F1, F3. split; [reflexivity|exact Hconc].
Qed.

(** From any state of a queue whose limit is positive, the promise of an
    entry that was admitted and not dropped settles, with the outcome of
    its task, by the jobs of the promise chains alone, once the client has
    called [start()] if the queue was paused or does not dispatch on
    admission; and this whatever the outcomes of the other tasks are. *)
Lemma accepted_settles_by_chain_jobs : forall options s h out,
  0 < concurrency (constructor options) ->
  reachable_from options s ->
  (h < fresh s)%nat -> times KDropped h s = 0%nat ->
  exists jobs,
    Forall (chain_job out) jobs
    /\ let s' := run_events (resume s ++ jobs) s in
       times KSettled h s' = 1%nat
       /\ (times KSettled h s = 0%nat ->
           promise_state h (promises s') = Some (out h)).
Proof.
  intros options s h out Hpos Hr Hh Hd.
  assert (Hc := coherent_reachable options s Hr).
  assert (L := proj1 Hc h). destruct L as (L1 & L2 & L3 & L4 & L5).
  apply Nat.ltb_lt in Hh. rewrite Hh in L1.
  destruct (resume_outcome options s Hpos Hr) as (Hc0 & Hq0 & Hsame & _).
  set (s0 := run_events (resume s) s) in *.
  assert (L0 := proj1 Hc0 h). destruct L0 as (M1 & M2 & M3 & M4 & M5).
  rewrite (Hsame KAccepted h) in * by discriminate.
  rewrite (Hsame KDropped h) in * by discriminate.
  assert (Es : times KSettled h s0 = times KSettled h s)
    by (apply Hsame; discriminate).
  destruct (Nat.eq_dec (times KDispatched h s0) 1) as [D0|ND0].
  - destruct (dispatched_settles out h s0 Hc0 D0) as (jobs & Hjobs & H1 & H2).
    exists jobs. split; [exact Hjobs|]. cbv zeta. rewrite run_events_app.
    fold s0. split; [exact H1|]. intros Z0. apply H2. lia.
  - assert (B : (1 <= in_backlog h s0)%nat) by lia.
    destruct (in_backlog_split h s0 B) as (q1 & e & q2 & Hq & He).
    destruct Hq0 as [Hq0|Hb]; [rewrite Hq0 in Hq; destruct q1; discriminate|].
    destruct (busy_backlog_served out q1 e q2 s0 Hb Hq)
      as (jobs1 & Hjobs1 & Hc1 & Hst1).
    rewrite He in Hst1.
    destruct (chain_runs_to_settled out h Scheduled _ Hc1 Hst1)
      as (jobs2 & Hjobs2 & _ & _ & _ & _ & _ & H).
    destruct H as [H1 H2]; [discriminate|].
    exists (jobs1 ++ jobs2). split; [apply Forall_app; split; assumption|].
    cbv zeta. rewrite !run_events_app. fold s0.
    split; [exact H1|intros _; exact H2].
Qed.

(** *** An idle queue has served every entry *)

Lemma run_times_grow : forall k h work s,
  (times k h s <= times k h (run work s))%nat.
Proof.
  intros k h work s.
  destruct (stable_run _ (log_extends_stable (log s)) work s) as [l E];
    [exists []; reflexivity|].
  unfold times. rewrite E, seen_app, count_app. lia.
Qed.

(** The last job of a chain, up to [_checkEmpty], records a [Finished] and
    dispatches. *)
Lemma times_before_checkEmpty : forall k h h0 s,
  k <> KDispatched -> k <> KFinished -> paused s = false ->
  times k h (_process (finish h0 s)) = times k h s.
Proof.
  intros k h h0 s Hk1 Hk2 Hp.
  assert (Hp2 : paused (finish h0 s) = false) by exact Hp.
  unfold times. rewrite (process_closed _ Hp2). cbn [log].
  rewrite seen_app, seen_dispatch_obs by exact Hk1.
  change (log (finish h0 s)) with (Finished h0 :: log s).
  rewrite seen_cons. destruct k; try reflexivity; contradiction.
Qed.

(** With no backlog and nothing running, an admitted entry that was not
    dropped has finished. *)
Lemma idle_has_finished : forall h s,
  coherent s -> times KAccepted h s = 1%nat -> times KDropped h s = 0%nat ->
  queue s = [] -> running s = 0 -> times KFinished h s = 1%nat.
Proof.
  intros h s (L & _ & R) Ha Hd Hq Hrun.
  destruct (L h) as (L1 & L2 & L3 & L4 & L5).
  assert (Hch : chains s = []).
  { destruct (chains s); [reflexivity|]. cbn [length] in R. lia. }
  unfold in_backlog, in_flight in *. rewrite Hq, Hch in *.
  cbn [map count count_stage] in *. lia.
Qed.

Lemma in_service_react : forall h ev s,
  chain_event ev -> in_service h s -> in_service h (react ev s).
Proof.
  intros h ev s Hev (Hc & Ha & Hcase).
  assert (Hc' : coherent (react ev s)).
  { apply (stable_run_events _ coherent_stable [ev]). exact Hc. }
  pose proof (times_grow KAccepted h [ev] s) as Ga.
  pose proof (times_grow KFinished h [ev] s) as Gf.
  cbn [run_events fold_left] in Ga, Gf.
  pose proof (lifecycle_bounds h _ (proj1 Hc' h)) as B.
  split; [exact Hc'|]. split; [lia|].
  destruct Hcase as [(Hp & Hpos & Hsat & Hd)|Hf]; [|right; lia].
  destruct ev as [c|h0|h0 o|h0]; [destruct Hev| | |].
  - left. cbn [react]. unfold invoke.
    destruct (stage_of h0 (chains s)) as [[| |]|];
      repeat split; assumption.
  - left. cbn [react]. unfold settle.
    destruct (stage_of h0 (chains s)) as [[| |]|];
      try destruct o; repeat split; assumption.
  - destruct (stage_of h0 (chains s)) as [[| |]|] eqn:Est;
      try (left; cbn [react]; unfold finally_; rewrite Est, run_nil;
           repeat split; assumption).
    cbn [react] in *. rewrite finally_unfold in * by exact Est.
    assert (Hp2 : paused (finish h0 s) = false) by exact Hp.
    destruct (process_frame (finish h0 s)) as (F1 & _ & F3).
    pose proof (process_saturates (finish h0 s) Hp2) as Hsat1.
    assert (Hc1 : coherent (_process (finish h0 s))).
    { apply (process_preserves _ coherent_stable).
      apply (keeps_finish _ _ coherent_stable h0 s Est I Hc). }
    set (s1 := _process (finish h0 s)) in *.
    unfold _checkEmpty in *. destruct (drained s1) eqn:D; cbn [fst snd] in *.
    + right. unfold drained in D. apply andb_true_iff in D.
      destruct D as [D1 D2]. apply Nat.eqb_eq in D1. apply Z.eqb_eq in D2.
      apply length_zero_iff_nil in D1.
      pose proof (idle_has_finished h s1 Hc1) as Hfin.
      pose proof (run_times_grow KFinished h (map Fire (emptyCallbacks s1))
                    (set_emptyCallbacks [] s1)) as G.
      change (times KFinished h (set_emptyCallbacks [] s1))
        with (times KFinished h s1) in G.
      assert (E1 : times KAccepted h s1 = 1%nat).
      { unfold s1. rewrite times_before_checkEmpty by (discriminate || exact Hp).
        exact Ha. }
      assert (E2 : times KDropped h s1 = 0%nat).
      { unfold s1. rewrite times_before_checkEmpty by (discriminate || exact Hp).
        exact Hd. }
      specialize (Hfin E1 E2 D1 D2). lia.
    + left. cbn [map]. rewrite run_nil.
      fold s1 in F1, F3. rewrite F1, F3.
      split; [exact Hp|]. split; [exact Hpos|]. split; [|].
      * rewrite F1 in Hsat1. exact Hsat1.
      * unfold s1. rewrite times_before_checkEmpty by (discriminate || exact Hp).
        exact Hd.
Qed.

Lemma in_service_run_events : forall h jobs s,
  Forall chain_event jobs -> in_service h s -> in_service h (run_events jobs s).
Proof.
  intros h jobs. induction jobs as [|ev jobs IH]; intros s Hj H; [exact H|].
  inversion Hj; subst. cbn [run_events fold_left].
  apply IH; [assumption|]. apply in_service_react; assumption.
Qed.

(** However the jobs of the promise chains go, a queue with a positive
    limit does not come to rest with an admitted entry left behind: once
    the client has done what [resume] asks, whenever nothing is running the
    promise of every entry that was admitted, and not dropped, has been
    settled. *)
Lemma idle_queue_has_served : forall options s h jobs,
  0 < concurrency (constructor options) ->
  reachable_from options s ->
  (h < fresh s)%nat -> times KDropped h s = 0%nat ->
  Forall chain_event jobs ->
  let s' := run_events (resume s ++ jobs) s in
  pending s' = 0 -> times KSettled h s' = 1%nat.
Proof.
  intros options s h jobs Hpos Hr Hh Hd Hj s' Hidle.
  assert (Hc := coherent_reachable options s Hr).
  destruct (proj1 Hc h) as (L1 & _).
  apply Nat.ltb_lt in Hh. rewrite Hh in L1.
  destruct (resume_outcome options s Hpos Hr) as (Hc0 & Hq0 & Hsame & Hp0 & Hn0).
  assert (S0 : in_service h (run_events (resume s) s)).
  { split; [exact Hc0|]. rewrite (Hsame KAccepted) by discriminate.
    split; [exact L1|]. left. rewrite (Hsame KDropped) by discriminate.
    split; [exact Hp0|]. split; [lia|]. split; [|exact Hd].
    destruct Hq0 as [Hq0|(_ & Hfull & _)]; [left; exact Hq0|right; lia]. }
  pose proof (in_service_run_events h jobs _ Hj S0) as S1.
  rewrite <- run_events_app in S1. fold s' in S1.
  destruct S1 as (Hc1 & Ha1 & Hcase).
  pose proof (lifecycle_bounds h s' (proj1 Hc1 h)) as B.
  destruct (proj1 Hc1 h) as (M1 & M2 & M3 & M4 & M5).
  assert (Hf : times KFinished h s' = 1%nat).
  { destruct Hcase as [(Hp & Hpos' & Hsat & Hd')|Hf]; [|exact Hf].
    apply idle_has_finished; try assumption.
    destruct Hsat as [Hq|Hfull]; [exact Hq|]. unfold pending in Hidle. lia. }
  lia.
Qed.

(** C2. In every state a queue reaches, for every handle [h]: the entry was
    dispatched at most once, and [resolve]/[reject] were called at most once
    on its promise; an admitted entry is in exactly one place (backlog,
    running chain, finished, dropped by [clear]); when the outcome of its
    task arrives, its pending promise takes exactly that outcome; once its
    chain has passed that point the promise has been settled exactly once;
    an entry dropped by [clear] is never dispatched nor settled afterwards.
    Every other admitted entry of a queue with a positive limit does
    settle, exactly once and with the outcome of its task, whatever the
    outcomes [out] of the tasks are: the jobs of the promise chains bring
    it there with no further call by the client, but for one [start()]
    when the queue is paused or was built with [autoStart: false]; and
    however those jobs go, the queue never comes to rest (nothing running)
    with the promise of such an entry still pending. *)
Theorem completion_handle_settles_exactly_once :
  forall (options : Options) (evs : list Event) (h : nat),
    let s := run_events evs (constructor options) in
    (times KDispatched h s <= 1)%nat
    /\ (times KSettled h s <= 1)%nat
    /\ ((h < fresh s)%nat ->
        (in_backlog h s
         + (in_flight Scheduled h s + in_flight Started h s
            + in_flight Settled h s)
         + times KFinished h s + times KDropped h s = 1)%nat)
    /\ (forall o, stage_of h (chains s) = Some Started ->
        promise_state h (promises s) = None
        /\ times KSettled h (react (EvOutcome h o) s) = 1%nat
        /\ promise_state h (promises (react (EvOutcome h o) s)) = Some o)
    /\ ((1 <= in_flight Settled h s + times KFinished h s)%nat ->
        times KSettled h s = 1%nat
        /\ exists o, promise_state h (promises s) = Some o)
    /\ ((1 <= times KDropped h s)%nat ->
        forall evs',
          let s' := run_events evs' s in
          times KDispatched h s' = 0%nat /\ times KSettled h s' = 0%nat
          /\ promise_state h (promises s') = None)
    /\ (0 < concurrency (constructor options) ->
        (h < fresh s)%nat -> times KDropped h s = 0%nat ->
        forall out : nat -> Outcome, exists jobs,
          Forall (chain_job out) jobs
          /\ let s' := run_events (resume s ++ jobs) s in
             times KSettled h s' = 1%nat
             /\ (times KSettled h s = 0%nat ->
                 promise_state h (promises s') = Some (out h)))
    /\ (0 < concurrency (constructor options) ->
        (h < fresh s)%nat -> times KDropped h s = 0%nat ->
        forall jobs, Forall chain_event jobs ->
          let s' := run_events (resume s ++ jobs) s in
          pending s' = 0 -> times KSettled h s' = 1%nat).
Proof.
  intros options evs h s.
  assert (Hr : reachable_from options s) by (exists evs; reflexivity).
  assert (Hc := coherent_reachable options s Hr).
  pose proof (lifecycle_bounds h s (proj1 Hc h)) as B.
  destruct (proj1 Hc h) as (L1 & L2 & L3 & L4 & L5).
  split; [lia|]. split; [lia|]. split.
  { intros Hh. apply Nat.ltb_lt in Hh. rewrite Hh in L1. lia. }
  split.
  { intros o Hst. destruct (settle_started h o s Hc Hst) as (P0 & _ & S1 & S2).
    auto. }
  split.
  { intros Hs. split; [lia|]. apply settled_has_outcome; [exact Hc|lia]. }
  split.
  { intros Hd evs'.
    destruct (dropped_never_served h s evs' Hc Hd) as (D & _ & S0 & P0). auto. }
  split.
  { intros Hpos Hh Hd out.
    apply (accepted_settles_by_chain_jobs options); assumption. }
  intros Hpos Hh Hd jobs Hj.
  apply (idle_queue_has_served options); assumption.
Qed.

Lemma completion_handle_settles_exactly_once_witness :
  let s := run_events
             [EvCall (CallAdd 7%nat None); EvCall (CallAdd 8%nat (Some 2));
              EvInvoke 0%nat]
             (constructor (mkOptions None None)) in
  (forall o,
      promise_state 0%nat (promises s) = None
      /\ times KSettled 0%nat (react (EvOutcome 0%nat o) s) = 1%nat
      /\ promise_state 0%nat (promises (react (EvOutcome 0%nat o) s)) = Some o)
  /\ (forall out : nat -> Outcome, exists jobs,
        Forall (chain_job out) jobs
        /\ let s' := run_events (resume s ++ jobs) s in
           times KSettled 1%nat s' = 1%nat
           /\ (times KSettled 1%nat s = 0%nat ->
               promise_state 1%nat (promises s') = Some (out 1%nat))).
Proof.
  intros s. split.
  - intros o.
    apply (completion_handle_settles_exactly_once (mkOptions None None)
             [EvCall (CallAdd 7%nat None); EvCall (CallAdd 8%nat (Some 2));
              EvInvoke 0%nat] 0%nat).
    reflexivity.
  - intros out.
    refine (proj1 (proj2 (proj2 (proj2 (proj2 (proj2 (proj2
      (completion_handle_settles_exactly_once (mkOptions None None)
         [EvCall (CallAdd 7%nat None); EvCall (CallAdd 8%nat (Some 2));
          EvInvoke 0%nat] 1%nat))))))) _ _ _ out).
    + reflexivity.
    + vm_compute. lia.
    + reflexivity.
Defined.

(** ** C5: pause and resume *)

Lemma paused_after_dropped : forall q l,
  paused_after (rev (map (fun e => Dropped (handle e)) q) ++ l) = paused_after l.
Proof.
  intros q l. revert l. induction q as [|e q IH]; intros l; simpl; [reflexivity|].
  rewrite <- app_assoc. rewrite IH. reflexivity.
Qed.

Lemma dispatch_only_unpaused_dropped : forall q l,
  dispatch_only_unpaused l ->
  dispatch_only_unpaused (rev (map (fun e => Dropped (handle e)) q) ++ l).
Proof.
  intros q l Hl. revert l Hl. induction q as [|e q IH]; intros l Hl; simpl; [exact Hl|].
  rewrite <- app_assoc. apply IH. simpl. auto.
Qed.

Lemma pause_respected_stable : stable pause_respected.
Proof.
  constructor.
  - intros t p s _ [H1 H2]. split; simpl; auto.
  - intros e rest s _ _ Hp _ [H1 H2]. split; simpl; [exact H1|].
    split; [congruence|exact H2].
  - intros s _ [H1 H2]. split; simpl; auto.
  - intros s _ [H1 H2]. split; simpl; auto.
  - intros s _ [H1 H2]. rewrite clear_closed. split; cbn [paused log].
    + rewrite paused_after_dropped. exact H1.
    + apply dispatch_only_unpaused_dropped, H2.
  - intros cbs s _ H. exact H.
  - intros name s _ [H1 H2]. split; simpl; auto.
  - intros name sz pd s _ [H1 H2]. split; simpl; auto.
  - intros h s _ _ [H1 H2]. split; simpl; auto.
  - intros h o s Hst _ [H1 H2]. unfold settle. rewrite Hst.
    destruct o; split; simpl; auto.
  - intros h s _ _ [H1 H2]. split; simpl; auto.
Qed.

Lemma seen_dispatched_obs : forall d,
  seen KDispatched (rev (map dispatch_obs d)) = rev (map handle d).
Proof.
  induction d as [|e d IH]; [reflexivity|].
  simpl. rewrite seen_app, IH. reflexivity.
Qed.

Lemma process_paused : forall s, paused s = true -> _process s = s.
Proof. intros s Hp. unfold _process. rewrite Hp. reflexivity. Qed.

(** The last job of a chain while the queue is paused. *)
Lemma finally_paused : forall h s,
  paused s = true -> stage_of h (chains s) = Some Settled ->
  finally_ h s = _checkEmpty (finish h s)
  /\ (queue s <> [] -> react (EvFinally h) s = finish h s).
Proof.
  intros h s Hp Hst.
  assert (E : finally_ h s = _checkEmpty (finish h s)).
  { rewrite finally_unfold by exact Hst. rewrite process_paused by exact Hp.
    reflexivity. }
  split; [exact E|]. intros Hq. unfold react. rewrite E.
  unfold _checkEmpty, drained. cbn [queue finish set_running observe set_chains].
  destruct (queue s) as [|x q]; [contradiction|]. simpl. apply run_nil.
Qed.

(** C5. Every dispatch a queue ever makes is made while it is not paused:
    on the log, no entry is dispatched between a [pause()] and the next
    [start()].  While the queue is paused the dispatch step does nothing:
    [add] only puts the entry in the backlog, and the last job of a running
    task takes one off the running count and dispatches nothing (running
    tasks go on: the outcome of a started task settles its promise).
    [start()] clears the flag and dispatches the backlog from the front
    until it is empty or no slot is free. *)
Theorem paused_queue_dispatches_nothing :
  forall (options : Options) (evs : list Event),
    let s := run_events evs (constructor options) in
    paused s = paused_after (log s)
    /\ dispatch_only_unpaused (log s)
    /\ isPaused (react (EvCall CallPause) s) = true
    /\ (paused s = true ->
        _process s = s
        /\ (forall t p,
              let s' := react (EvCall (CallAdd t p)) s in
              s' = enqueue t p s
              /\ chains s' = chains s /\ running s' = running s
              /\ dispatch_order s' = dispatch_order s
              /\ size s' = S (size s) /\ paused s' = true)
        /\ (forall h o, stage_of h (chains s) = Some Started ->
              promise_state h (promises (react (EvOutcome h o) s)) = Some o)
        /\ (forall h, stage_of h (chains s) = Some Settled ->
              let s' := fst (finally_ h s) in
              running s' = running s - 1
              /\ queue s' = queue s
              /\ chains s' = remove_chain h (chains s)
              /\ dispatch_order s' = dispatch_order s
              /\ paused s' = true
              /\ (queue s <> [] -> react (EvFinally h) s = finish h s)))
    /\ (let s' := react (EvCall CallStart) s in
        let d := firstn (slots s) (queue s) in
        paused s' = false
        /\ queue s = d ++ queue s'
        /\ chains s' = chains s ++ map new_chain d
        /\ running s' = running s + Z.of_nat (length d)
        /\ dispatch_order s' = dispatch_order s ++ map handle d
        /\ (queue s' = [] \/ concurrency s' <= running s')).
Proof.
  intros options evs s.
  assert (Hr : reachable_from options s) by (exists evs; reflexivity).
  assert (Hc := coherent_reachable options s Hr).
  destruct (stable_reachable _ pause_respected_stable options s) as [P1 P2];
    [split; [reflexivity|exact I]|exact Hr|].
  split; [exact P1|]. split; [exact P2|].
  split; [rewrite react_pause; reflexivity|]. split.
  - intros Hp. split; [apply process_paused, Hp|]. split; [|split].
    + intros t p s'. subst s'. rewrite react_add, add_unfold, Hp.
      rewrite andb_false_r. split; [reflexivity|].
      unfold size, dispatch_order. cbn [chains running queue log paused enqueue
        set_queue observe set_fresh seen flat_map obs_handle app].
      repeat split; try assumption.
      rewrite (Permutation_length (sort_perm _)), length_app. simpl. lia.
    + intros h o Hst. simpl react. apply (settle_started h o s Hc Hst).
    + intros h Hst s'. subst s'.
      destruct (finally_paused h s Hp Hst) as [E1 E2]. rewrite E1.
      unfold _checkEmpty. destruct (drained (finish h s));
        cbn [fst running queue chains paused finish set_running observe
             set_chains set_emptyCallbacks]; repeat split; auto.
  - cbv zeta. rewrite react_start. unfold start.
    rewrite process_closed by reflexivity.
    change (slots (set_paused false (observe StartCalled s))) with (slots s).
    cbn [queue chains running paused concurrency set_paused observe].
    split; [reflexivity|]. split; [symmetry; apply firstn_skipn|].
    split; [reflexivity|]. split; [reflexivity|]. split.
    + unfold dispatch_order. cbn [log set_paused observe].
      rewrite seen_app, seen_dispatched_obs, rev_app_distr, rev_involutive.
      reflexivity.
    + pose proof (process_saturates (set_paused false (observe StartCalled s)) eq_refl) as S.
      rewrite process_closed in S by reflexivity. exact S.
Qed.

Lemma paused_queue_dispatches_nothing_witness :
  let s := run_events
             ([EvCall (CallAdd 1%nat None); EvCall (CallAdd 2%nat None);
               EvCall (CallAdd 3%nat None); EvCall (CallAdd 4%nat None);
               EvCall (CallAdd 5%nat None); EvCall CallPause]
              ++ [EvInvoke 0%nat; EvOutcome 0%nat (Fulfilled 9)])
             (constructor (mkOptions (Some 1) None)) in
  let s' := fst (finally_ 0%nat s) in
  running s' = running s - 1
  /\ queue s' = queue s
  /\ chains s' = remove_chain 0%nat (chains s)
  /\ dispatch_order s' = dispatch_order s
  /\ paused s' = true
  /\ (queue s <> [] -> react (EvFinally 0%nat) s = finish 0%nat s).
Proof.
  intros s.
  apply (paused_queue_dispatches_nothing (mkOptions (Some 1) None)
           ([EvCall (CallAdd 1%nat None); EvCall (CallAdd 2%nat None);
             EvCall (CallAdd 3%nat None); EvCall (CallAdd 4%nat None);
             EvCall (CallAdd 5%nat None); EvCall CallPause]
            ++ [EvInvoke 0%nat; EvOutcome 0%nat (Fulfilled 9)])).
  - reflexivity.
  - reflexivity.
Defined.

(** ** C4: a failing task changes nothing but its own promise *)

Ltac alike_fields H :=
  let E1 := fresh "E" in let E2 := fresh "E" in let E3 := fresh "E" in
  let E4 := fresh "E" in let E5 := fresh "E" in let E6 := fresh "E" in
  let E7 := fresh "E" in let E8 := fresh "E" in
  let EP := fresh "EP" in let EL := fresh "EL" in
  destruct H as (E1 & E2 & E3 & E4 & E5 & E6 & E7 & E8 & EP & EL);
  unfold alike;
  cbn [concurrency autoStart queue running paused emptyCallbacks chains
       promises fresh log set_queue set_running set_paused set_emptyCallbacks
       set_chains set_promises set_fresh observe enqueue dispatch finish
       begin_task];
  rewrite ?E1, ?E2, ?E3, ?E4, ?E5, ?E6, ?E7, ?E8;
  repeat (split; [auto|]); auto;
  try (let k := fresh "k" in
       intros k; rewrite ?seen_cons, ?seen_app; f_equal; auto).

Lemma alike_refl : forall h s, alike h s s.
Proof. intros h s. unfold alike. repeat split; auto. Qed.

Lemma alike_process : forall h s1 s2,
  alike h s1 s2 -> alike h (_process s1) (_process s2).
Proof.
  intros h s1 s2 H. destruct (paused s1) eqn:Hp.
  - assert (Hp2 : paused s2 = true) by (rewrite <- (proj1 (proj2 (proj2 (proj2 (proj2 H))))); exact Hp).
    rewrite !process_paused by assumption. exact H.
  - assert (Hp2 : paused s2 = false) by (rewrite <- (proj1 (proj2 (proj2 (proj2 (proj2 H))))); exact Hp).
    rewrite !process_closed by assumption.
    assert (Hk : slots s1 = slots s2).
    { unfold slots. destruct H as (E1 & _ & _ & E4 & _). rewrite E1, E4. reflexivity. }
    rewrite Hk. alike_fields H.
Qed.

Lemma alike_enqueue : forall h t p s1 s2,
  alike h s1 s2 -> alike h (enqueue t p s1) (enqueue t p s2).
Proof. intros h t p s1 s2 H. alike_fields H. Qed.

Lemma alike_add : forall h t p s1 s2,
  alike h s1 s2 -> alike h (add t p s1) (add t p s2).
Proof.
  intros h t p s1 s2 H. rewrite !add_unfold.
  assert (Ec : autoStart s1 && negb (paused s1) = autoStart s2 && negb (paused s2)).
  { destruct H as (_ & E2 & _ & _ & E5 & _). rewrite E2, E5. reflexivity. }
  rewrite Ec. destruct (autoStart s2 && negb (paused s2));
    [apply alike_process|]; apply alike_enqueue, H.
Qed.

Lemma alike_start : forall h s1 s2,
  alike h s1 s2 -> alike h (start s1) (start s2).
Proof.
  intros h s1 s2 H. unfold start. apply alike_process. alike_fields H.
Qed.

Lemma alike_pause : forall h s1 s2,
  alike h s1 s2 -> alike h (pause s1) (pause s2).
Proof. intros h s1 s2 H. unfold pause. alike_fields H. Qed.

Lemma alike_clear : forall h s1 s2,
  alike h s1 s2 -> alike h (clear s1) (clear s2).
Proof. intros h s1 s2 H. rewrite !clear_closed. alike_fields H. Qed.

Lemma alike_drained : forall h s1 s2,
  alike h s1 s2 -> drained s1 = drained s2.
Proof.
  intros h s1 s2 (_ & _ & E3 & E4 & _). unfold drained. rewrite E3, E4. reflexivity.
Qed.

Lemma alike_checkEmpty : forall h s1 s2,
  alike h s1 s2 ->
  alike h (fst (_checkEmpty s1)) (fst (_checkEmpty s2))
  /\ snd (_checkEmpty s1) = snd (_checkEmpty s2).
Proof.
  intros h s1 s2 H. unfold _checkEmpty. rewrite (alike_drained h s1 s2 H).
  destruct (drained s2); cbn [fst snd].
  - split; [alike_fields H|apply H].
  - split; [exact H|reflexivity].
Qed.

Lemma alike_onEmpty : forall h cb s1 s2,
  alike h s1 s2 ->
  alike h (fst (onEmpty cb s1)) (fst (onEmpty cb s2))
  /\ snd (onEmpty cb s1) = snd (onEmpty cb s2).
Proof.
  intros h cb s1 s2 H. unfold onEmpty. cbv zeta.
  set (r1 := set_emptyCallbacks (emptyCallbacks s1 ++ [cb]) (observe (Registered (fst cb)) s1)).
  set (r2 := set_emptyCallbacks (emptyCallbacks s2 ++ [cb]) (observe (Registered (fst cb)) s2)).
  assert (Hr : alike h r1 r2) by (subst r1 r2; alike_fields H).
  rewrite (alike_drained h r1 r2 Hr). destruct (drained r2).
  - apply alike_checkEmpty, Hr.
  - split; [exact Hr|reflexivity].
Qed.

Lemma alike_invoke : forall h h0 s1 s2,
  alike h s1 s2 -> alike h (invoke h0 s1) (invoke h0 s2).
Proof.
  intros h h0 s1 s2 H. unfold invoke.
  rewrite (proj1 (proj2 (proj2 (proj2 (proj2 (proj2 (proj2 H))))))).
  destruct (stage_of h0 (chains s2)) as [[| |]|]; try exact H.
  alike_fields H.
Qed.

Lemma promise_state_settle : forall h' h0 o ps,
  promise_state h' (settle_promise h0 o ps)
  = match promise_state h' ps with
    | Some r => Some r
    | None => if Nat.eqb h' h0 then Some o else None
    end.
Proof.
  intros h' h0 o ps. unfold settle_promise.
  destruct (promise_state h0 ps) as [r0|] eqn:E0.
  - destruct (promise_state h' ps) eqn:E'; [reflexivity|].
    destruct (Nat.eqb h' h0) eqn:Eq; [|reflexivity].
    apply Nat.eqb_eq in Eq. congruence.
  - simpl. destruct (Nat.eqb h' h0) eqn:Eq.
    + apply Nat.eqb_eq in Eq. subst. rewrite E0. reflexivity.
    + destruct (promise_state h' ps); reflexivity.
Qed.

(** The two settling handlers leave alike queues alike, also when they
    settle the promise [h] with different outcomes. *)
Lemma alike_settle : forall h h0 o1 o2 s1 s2,
  alike h s1 s2 -> (h0 <> h -> o1 = o2) ->
  alike h (settle h0 o1 s1) (settle h0 o2 s2).
Proof.
  intros h h0 o1 o2 s1 s2 H Ho. unfold settle.
  rewrite (proj1 (proj2 (proj2 (proj2 (proj2 (proj2 (proj2 H))))))).
  destruct (stage_of h0 (chains s2)) as [[| |]|]; try exact H.
  destruct H as (E1 & E2 & E3 & E4 & E5 & E6 & E7 & E8 & EP & EL).
  unfold alike.
  cbn [concurrency autoStart queue running paused emptyCallbacks chains
       promises fresh log set_promises set_chains observe].
  repeat (split; [assumption|]). split; [reflexivity|].
  split; [assumption|]. split.
  - intros h' Hne. rewrite !promise_state_settle, (EP h' Hne).
    destruct (promise_state h' (promises s2)); [reflexivity|].
    destruct (Nat.eqb h' h0) eqn:Eq; [|reflexivity].
    apply Nat.eqb_eq in Eq. subst h0. rewrite (Ho Hne). reflexivity.
  - intros k. rewrite !seen_cons, EL. f_equal.
    destruct o1, o2; destruct k; reflexivity.
Qed.

Lemma alike_finally : forall h h0 s1 s2,
  alike h s1 s2 ->
  alike h (fst (finally_ h0 s1)) (fst (finally_ h0 s2))
  /\ snd (finally_ h0 s1) = snd (finally_ h0 s2).
Proof.
  intros h h0 s1 s2 H.
  assert (Ech := proj1 (proj2 (proj2 (proj2 (proj2 (proj2 (proj2 H))))))).
  destruct (stage_of h0 (chains s2)) as [[| |]|] eqn:Est;
    try (unfold finally_; rewrite Ech, Est; split; [exact H|reflexivity]).
  rewrite !finally_unfold by congruence.
  apply alike_checkEmpty, alike_process. alike_fields H.
Qed.

Lemma alike_step : forall h i s1 s2,
  alike h s1 s2 ->
  alike h (fst (step i s1)) (fst (step i s2))
  /\ snd (step i s1) = snd (step i s2).
Proof.
  intros h [c|[name body]|] s1 s2 H; [| |split; [exact H|reflexivity]].
  - destruct c as [t p| | | |name body| |body]; cbn [step fst snd];
      try (split; [|reflexivity]).
    + apply alike_add, H.
    + apply alike_start, H.
    + apply alike_pause, H.
    + apply alike_clear, H.
    + destruct (alike_onEmpty h (name, body) s1 s2 H) as [A B].
      destruct (onEmpty (name, body) s1), (onEmpty (name, body) s2).
      simpl in *. split; [exact A|congruence].
    + exact H.
    + exact H.
  - cbn [step fst snd]. split; [|reflexivity].
    unfold size, pending.
    destruct H as (E1 & E2 & E3 & E4 & E5 & E6 & E7 & E8 & EP & EL).
    rewrite E3, E4. unfold alike.
    cbn [concurrency autoStart queue running paused emptyCallbacks chains
         promises fresh log observe].
    repeat (split; [assumption|]).
    intros k. rewrite !seen_cons. f_equal. apply EL.
Qed.

Lemma alike_exec : forall h fuel work s1 s2 r1 r2,
  alike h s1 s2 ->
  exec fuel work s1 = Some r1 -> exec fuel work s2 = Some r2 ->
  alike h r1 r2.
Proof.
  induction fuel as [|fuel IH]; intros work s1 s2 r1 r2 H X1 X2.
  - destruct work; [|discriminate]. inversion X1; inversion X2; subst. exact H.
  - destruct work as [|i rest].
    + inversion X1; inversion X2; subst. exact H.
    + cbn [exec] in X1, X2. destruct (alike_step h i s1 s2 H) as [A B].
      destruct (next_cases i rest s1) as [[-> E1]|[Hi E1]].
      * cbn [next] in X1, X2. eapply IH; eassumption.
      * rewrite E1 in X1. rewrite (next_step i rest s2 Hi), <- B in X2.
        eapply IH; eassumption.
Qed.

Lemma alike_run : forall h work s1 s2,
  alike h s1 s2 -> alike h (run work s1) (run work s2).
Proof.
  intros h work s1 s2 H.
  assert (Hp : potential work s1 = potential work s2).
  { unfold potential. rewrite (proj1 (proj2 (proj2 (proj2 (proj2 (proj2 H)))))).
    reflexivity. }
  apply (alike_exec h (potential work s1) work s1 s2); [exact H| |].
  - apply exec_run. lia.
  - apply exec_run. lia.
Qed.

Lemma alike_react : forall h ev s1 s2,
  alike h s1 s2 -> alike h (react ev s1) (react ev s2).
Proof.
  intros h [c|h0|h0 o|h0] s1 s2 H; cbn [react].
  - apply alike_run, H.
  - apply alike_invoke, H.
  - apply alike_settle; auto.
  - destruct (alike_finally h h0 s1 s2 H) as [A B].
    destruct (finally_ h0 s1) as [t1 c1], (finally_ h0 s2) as [t2 c2].
    simpl in A, B. subst c2. apply alike_run, A.
Qed.

Lemma alike_run_events : forall h evs s1 s2,
  alike h s1 s2 -> alike h (run_events evs s1) (run_events evs s2).
Proof.
  induction evs as [|ev evs IH]; intros s1 s2 H; simpl; [exact H|].
  apply IH, alike_react, H.
Qed.

Lemma stage_of_set_stage_other : forall h h' st cs,
  h' <> h -> stage_of h' (set_stage h st cs) = stage_of h' cs.
Proof.
  intros h h' st cs Hne. induction cs as [|[e st0] cs IH]; [reflexivity|].
  simpl. destruct (Nat.eqb (handle e) h) eqn:E; simpl.
  - apply Nat.eqb_eq in E.
    destruct (Nat.eqb (handle e) h') eqn:E'; [|reflexivity].
    apply Nat.eqb_eq in E'. congruence.
  - rewrite IH. reflexivity.
Qed.

(** The last job of a chain on a queue that is not paused and has a
    backlog: as many entries as there are free slots, the one it frees
    included, are dispatched from the head of the backlog, and no drain
    callback is called. *)
Lemma finally_dispatches_backlog : forall h e rest s,
  stage_of h (chains s) = Some Settled -> paused s = false ->
  1 <= running s <= concurrency s -> queue s = e :: rest ->
  let k := slots (finish h s) in
  let s3 := react (EvFinally h) s in
  (1 <= k)%nat
  /\ queue s3 = skipn k (queue s)
  /\ chains s3 = remove_chain h (chains s) ++ map new_chain (firstn k (queue s))
  /\ pending s3 = pending s - 1 + Z.of_nat (length (firstn k (queue s)))
  /\ log s3 = rev (map dispatch_obs (firstn k (queue s))) ++ Finished h :: log s.
Proof.
  intros h e rest s Hst Hp Hrun Hq k s3.
  assert (Hk : (1 <= k)%nat).
  { subst k. unfold slots. simpl. lia. }
  split; [exact Hk|].
  subst s3. cbn [react]. rewrite finally_unfold by exact Hst.
  assert (Hp2 : paused (finish h s) = false) by exact Hp.
  rewrite (process_closed (finish h s) Hp2). fold k.
  change (queue (finish h s)) with (queue s).
  assert (Hlen : (1 <= length (firstn k (queue s)))%nat).
  { rewrite Hq. destruct k as [|k']; [lia|]. cbn [firstn length]. lia. }
  unfold _checkEmpty, drained. cbn [queue running].
  replace (running (finish h s) + Z.of_nat (length (firstn k (queue s))) =? 0)
    with false
    by (symmetry; apply Z.eqb_neq; simpl; lia).
  rewrite andb_false_r. rewrite run_nil.
  cbn [queue chains running log pending finish set_running observe set_chains].
  unfold pending. repeat split; reflexivity.
Qed.

(** C4. When the unit of work of a dispatched task throws or rejects, its
    own promise is rejected with that error, once, and nothing else
    changes: the promises of the other entries, the backlog, the running
    count, the flags, the drain callbacks and the chains of the other
    running entries are as before.  The last job of the failed task then
    frees its slot and runs the dispatch loop: on a queue that is not
    paused the head of the backlog is dispatched by that very job.  From
    the failure on the queue behaves exactly as it would have if the task
    had succeeded: after any further calls and settlements the two queues
    are [alike] (same backlog, chains, running count, order of dispatch,
    and state of every other promise).  And every entry queued then or
    later (and not dropped by [clear]) settles with the outcome of its own
    task, whatever the outcomes [out] of the tasks are, by the jobs of the
    promise chains alone, after one [start()] when the queue is paused or
    was built with [autoStart: false]; however those jobs go, the queue
    never comes to rest with the promise of such an entry still pending. *)
Theorem task_failure_is_contained :
  forall (options : Options) (evs : list Event) (h : nat) (err : Value),
    let s := run_events evs (constructor options) in
    let sf := react (EvOutcome h (Rejected err)) s in
    stage_of h (chains s) = Some Started ->
    promise_state h (promises sf) = Some (Rejected err)
    /\ times KSettled h sf = 1%nat
    /\ (forall h', h' <> h ->
          promise_state h' (promises sf) = promise_state h' (promises s)
          /\ stage_of h' (chains sf) = stage_of h' (chains s))
    /\ queue sf = queue s /\ running sf = running s
    /\ paused sf = paused s /\ emptyCallbacks sf = emptyCallbacks s
    /\ dispatch_order sf = dispatch_order s
    /\ stage_of h (chains sf) = Some Settled
    /\ (forall e rest,
          paused s = false -> queue s = e :: rest ->
          let k := slots (finish h sf) in
          let s3 := react (EvFinally h) sf in
          (1 <= k)%nat
          /\ queue s3 = skipn k (queue s)
          /\ chains s3
             = remove_chain h (chains sf) ++ map new_chain (firstn k (queue s))
          /\ pending s3 = pending s - 1 + Z.of_nat (length (firstn k (queue s)))
          /\ In (new_chain e) (chains s3)
          /\ In (dispatch_obs e) (log s3))
    /\ (forall v evs',
          alike h (run_events evs' sf)
                  (run_events evs' (react (EvOutcome h (Fulfilled v)) s)))
    /\ (forall evs' h' (out : nat -> Outcome),
          let s2 := run_events evs' sf in
          (h' < fresh s2)%nat -> times KDropped h' s2 = 0%nat ->
          times KSettled h' s2 = 0%nat ->
          exists jobs,
            Forall (chain_job out) jobs
            /\ let s3 := run_events (resume s2 ++ jobs) s2 in
               times KSettled h' s3 = 1%nat
               /\ promise_state h' (promises s3) = Some (out h'))
    /\ (forall evs' h' jobs,
          let s2 := run_events evs' sf in
          (h' < fresh s2)%nat -> times KDropped h' s2 = 0%nat ->
          Forall chain_event jobs ->
          let s3 := run_events (resume s2 ++ jobs) s2 in
          pending s3 = 0 -> times KSettled h' s3 = 1%nat).
Proof.
  intros options evs h err s sf Hst.
  assert (Hr : reachable_from options s) by (exists evs; reflexivity).
  assert (Hc := coherent_reachable options s Hr).
  assert (Hpos := dispatched_positive_limit options s h _ Hr Hst).
  destruct (within_limit_reachable options s) as [Hconc Hle]; [lia|exact Hr|].
  destruct (settle_started h (Rejected err) s Hc Hst) as (_ & _ & S1 & S2).
  split; [exact S2|]. split; [exact S1|].
  assert (Hsf : stage_of h (chains sf) = Some Settled).
  { subst sf. cbn [react]. unfold settle. rewrite Hst.
    cbn [chains observe set_promises set_chains].
    apply stage_of_set_stage with (st := Started). exact Hst. }
  assert (Hrf : reachable_from options sf)
    by (apply (reachable_extend options [EvOutcome h (Rejected err)] s Hr)).
  split.
  { intros h' Hne. subst sf. cbn [react]. unfold settle. rewrite Hst.
    cbn [chains promises observe set_promises set_chains]. split.
    - rewrite promise_state_settle.
      destruct (promise_state h' (promises s)); [reflexivity|].
      destruct (Nat.eqb h' h) eqn:E; [apply Nat.eqb_eq in E; contradiction|reflexivity].
    - apply stage_of_set_stage_other. exact Hne. }
  assert (F : queue sf = queue s /\ running sf = running s
              /\ paused sf = paused s /\ emptyCallbacks sf = emptyCallbacks s
              /\ dispatch_order sf = dispatch_order s
              /\ concurrency sf = concurrency s).
  { subst sf. cbn [react]. unfold settle. rewrite Hst.
    repeat split; reflexivity. }
  destruct F as (F1 & F2 & F3 & F4 & F5 & F6).
  repeat (split; [assumption|]).
  split.
  { intros e rest Hp Hq k s3.
    assert (Hone : 1 <= running s).
    { destruct Hc as (_ & _ & R). rewrite R.
      destruct (chains s); [discriminate Hst|]. cbn [length]. lia. }
    destruct (finally_dispatches_backlog h e rest sf Hsf) as (K1 & K2 & K3 & K4 & K5);
      [congruence|lia|congruence|].
    fold s3 in K2, K3, K4, K5. rewrite F1 in *. unfold pending in *.
    rewrite F2 in K4. fold k in K1, K2, K3, K4, K5.
    split; [exact K1|]. split; [exact K2|]. split; [exact K3|].
    split; [exact K4|].
    assert (Hin : In e (firstn k (queue s))).
    { rewrite Hq. destruct k as [|k']; [lia|]. left. reflexivity. }
    split.
    - rewrite K3. apply in_or_app. right. apply in_map. exact Hin.
    - rewrite K5. apply in_or_app. left. apply -> in_rev. apply in_map. exact Hin. }
  split.
  { intros v evs'. apply alike_run_events. apply alike_settle.
    - apply alike_refl.
    - intros Hne. contradiction. }
  split.
  { intros evs' h' out s2 Hh Hd Hz.
    assert (Hr2 : reachable_from options s2) by (apply reachable_extend, Hrf).
    destruct (accepted_settles_by_chain_jobs options s2 h' out Hpos Hr2 Hh Hd)
      as (jobs & Hjobs & H1 & H2).
    exists jobs. split; [exact Hjobs|]. split; [exact H1|apply H2; exact Hz]. }
  intros evs' h' jobs s2 Hh Hd Hj.
  assert (Hr2 : reachable_from options s2) by (apply reachable_extend, Hrf).
  apply (idle_queue_has_served options); assumption.
Qed.

Lemma task_failure_is_contained_witness :
  let s := run_events
             [EvCall (CallAdd 1%nat None); EvCall (CallAdd 2%nat None);
              EvInvoke 0%nat]
             (constructor (mkOptions (Some 1) None)) in
  let sf := react (EvOutcome 0%nat (Rejected 13)) s in
  promise_state 0%nat (promises sf) = Some (Rejected 13)
  /\ times KSettled 0%nat sf = 1%nat
  /\ In (new_chain (mkEntry 2%nat 1 1%nat)) (chains (react (EvFinally 0%nat) sf)).
Proof.
  intros s sf.
  pose proof (task_failure_is_contained (mkOptions (Some 1) None)
                [EvCall (CallAdd 1%nat None); EvCall (CallAdd 2%nat None);
                 EvInvoke 0%nat] 0%nat 13) as H.
  cbv zeta in H. fold s in H. fold sf in H.
  assert (Hst : stage_of 0%nat (chains s) = Some Started) by (vm_compute; reflexivity).
  assert (Hp : paused s = false) by (vm_compute; reflexivity).
  assert (Hq : queue s = [mkEntry 2%nat 1 1%nat]) by (vm_compute; reflexivity).
  destruct (H Hst) as (H1 & H2 & _ & _ & _ & _ & _ & _ & _ & H10 & _).
  split; [exact H1|]. split; [exact H2|].
  exact (proj1 (proj2 (proj2 (proj2 (proj2 (H10 _ _ Hp Hq)))))).
Defined.

(** ** C6: drain callbacks *)

Lemma process_empty : forall s, queue s = [] -> _process s = s.
Proof.
  intros s Hq. unfold _process. rewrite Hq. destruct (paused s); reflexivity.
Qed.

Lemma onEmpty_drained : forall cb s,
  drained s = true ->
  onEmpty cb s
  = (set_emptyCallbacks [] (observe (Registered (fst cb)) s),
     emptyCallbacks s ++ [cb]).
Proof.
  intros cb s D. unfold onEmpty, _checkEmpty. cbv zeta.
  change (drained (set_emptyCallbacks (emptyCallbacks s ++ [cb])
                     (observe (Registered (fst cb)) s))) with (drained s).
  rewrite D. reflexivity.
Qed.

Lemma onEmpty_busy : forall cb s,
  drained s = false ->
  onEmpty cb s
  = (set_emptyCallbacks (emptyCallbacks s ++ [cb])
       (observe (Registered (fst cb)) s), []).
Proof.
  intros cb s D. unfold onEmpty. cbv zeta.
  change (drained (set_emptyCallbacks (emptyCallbacks s ++ [cb])
                     (observe (Registered (fst cb)) s))) with (drained s).
  rewrite D. reflexivity.
Qed.

Lemma step_onEmpty : forall name body s,
  step (Do (CallOnEmpty name body)) s
  = (fst (onEmpty (name, body) s), map Fire (snd (onEmpty (name, body) s))).
Proof.
  intros name body s. cbn [step]. destruct (onEmpty (name, body) s). reflexivity.
Qed.

(** *** Operations other than [onEmpty] leave the callbacks alone *)

Lemma undisturbed_refl : forall s, undisturbed s s.
Proof. intros s. split; [reflexivity|]. exists []. split; [reflexivity|constructor]. Qed.

Lemma undisturbed_trans : forall s1 s2 s3,
  undisturbed s1 s2 -> undisturbed s2 s3 -> undisturbed s1 s3.
Proof.
  intros s1 s2 s3 [E1 (l1 & L1 & Q1)] [E2 (l2 & L2 & Q2)].
  split; [congruence|]. exists (l2 ++ l1). split.
  - rewrite L2, L1. apply app_assoc.
  - apply Forall_app. split; assumption.
Qed.

Lemma undisturbed_process : forall s, undisturbed s (_process s).
Proof.
  intros s. destruct (paused s) eqn:Hp.
  - rewrite process_paused by exact Hp. apply undisturbed_refl.
  - rewrite process_closed by exact Hp. split; [reflexivity|].
    eexists. split; [reflexivity|].
    apply Forall_rev, Forall_map, Forall_forall. intros e _. exact I.
Qed.

Lemma undisturbed_enqueue : forall t p s, undisturbed s (enqueue t p s).
Proof.
  intros t p s. split; [reflexivity|].
  exists [Accepted (fresh s) (or_default p 1)]. split; [reflexivity|].
  constructor; [exact I|constructor].
Qed.

Lemma undisturbed_add : forall t p s, undisturbed s (add t p s).
Proof.
  intros t p s. rewrite add_unfold.
  destruct (autoStart s && negb (paused s)); [|apply undisturbed_enqueue].
  eapply undisturbed_trans; [apply undisturbed_enqueue|apply undisturbed_process].
Qed.

Lemma undisturbed_start : forall s, undisturbed s (start s).
Proof.
  intros s. unfold start.
  eapply undisturbed_trans; [|apply undisturbed_process].
  split; [reflexivity|]. exists [StartCalled]. split; [reflexivity|].
  constructor; [exact I|constructor].
Qed.

Lemma undisturbed_pause : forall s, undisturbed s (pause s).
Proof.
  intros s. split; [reflexivity|]. exists [PauseCalled]. split; [reflexivity|].
  constructor; [exact I|constructor].
Qed.

Lemma undisturbed_clear : forall s, undisturbed s (clear s).
Proof.
  intros s. rewrite clear_closed. split; [reflexivity|].
  eexists. split; [reflexivity|].
  apply Forall_rev, Forall_map, Forall_forall. intros e _. exact I.
Qed.




Lemma quiet_seen : forall k l,
  k = KRegistered \/ k = KFired -> Forall quiet l -> seen k l = [].
Proof.
  intros k l Hk Hl. induction Hl as [|o l Ho Hl IH]; [reflexivity|].
  rewrite seen_cons, IH, app_nil_r.
  destruct Hk as [-> | ->]; destruct o; try reflexivity; contradiction.
Qed.

Lemma undisturbed_times : forall k n s s',
  k = KRegistered \/ k = KFired -> undisturbed s s' ->
  times k n s' = times k n s.
Proof.
  intros k n s s' Hk [_ (l & L & Q)]. unfold times.
  rewrite L, seen_app, (quiet_seen k l Hk Q). reflexivity.
Qed.

Lemma undisturbed_waiting : forall n s s',
  undisturbed s s' -> waiting n s' = waiting n s.
Proof. intros n s s' [E _]. unfold waiting. rewrite E. reflexivity. Qed.


(** *** Every registration is called at most once *)

Lemma in_work_app : forall n w1 w2,
  in_work n (w1 ++ w2) = (in_work n w1 + in_work n w2)%nat.
Proof. intros. unfold in_work. rewrite flat_map_app, count_app. reflexivity. Qed.

Lemma in_work_Fire : forall n cbs,
  in_work n (map Fire cbs) = count n (map fst cbs).
Proof.
  intros n cbs. unfold in_work. induction cbs as [|cb cbs IH]; [reflexivity|].
  simpl. rewrite <- IH. reflexivity.
Qed.


Lemma in_work_cons : forall n i rest,
  in_work n (i :: rest) = (count n (fire_name i) + in_work n rest)%nat.
Proof. intros. unfold in_work. simpl. apply count_app. Qed.









(** *** Where nothing throws, no registration is lost *)

Lemma calm_body : forall body,
  forallb calm body = true -> Forall calm_instr (map Do body).
Proof.
  induction body as [|c body IH]; intros H; [constructor|].
  cbn [forallb] in H. apply andb_true_iff in H. destruct H as [H1 H2].
  constructor; [exact H1|apply IH, H2].
Qed.

Lemma calm_batch : forall cbs,
  Forall calm_callback cbs -> Forall calm_instr (map Fire cbs).
Proof.
  intros cbs H. induction H as [|cb cbs Hcb _ IH]; constructor; assumption.
Qed.

Lemma calm_step : forall i rest s,
  calm_work (i :: rest) s ->
  calm_work (snd (step i s) ++ rest) (fst (step i s)).
Proof.
  intros i rest s [Hw Hc]. inversion Hw as [|? ? Hi Hrest]; subst.
  assert (U : forall s', undisturbed s s' -> calm_work ([] ++ rest) s').
  { intros s' U. split; [exact Hrest|]. rewrite (proj1 U). exact Hc. }
  destruct i as [c|[name body]|].
  - destruct c as [t p| | | |name body| |body]; try rewrite step_onEmpty;
      cbn [step fst snd].
    + apply U, undisturbed_add.
    + apply U, undisturbed_start.
    + apply U, undisturbed_pause.
    + apply U, undisturbed_clear.
    + assert (Hall : Forall calm_callback (emptyCallbacks s ++ [(name, body)])).
      { apply Forall_app. split; [exact Hc|].
        constructor; [exact Hi|constructor]. }
      destruct (drained s) eqn:D;
        [rewrite onEmpty_drained by exact D|rewrite onEmpty_busy by exact D];
        cbn [fst snd app].
      * split; [|constructor].
        apply Forall_app. split; [apply calm_batch, Hall|exact Hrest].
      * split; [exact Hrest|exact Hall].
    + split; [exact Hrest|exact Hc].
    + split; [|exact Hc]. rewrite <- app_assoc.
      apply Forall_app. split; [apply calm_body, Hi|].
      constructor; [exact I|exact Hrest].
  - cbn [step fst snd]. split; [|exact Hc].
    apply Forall_app. split; [apply calm_body, Hi|exact Hrest].
  - split; [exact Hrest|exact Hc].
Qed.

Lemma calm_never_throws : forall rest s, ~ calm_work (Do CallThrow :: rest) s.
Proof.
  intros rest s [Hw _]. inversion Hw as [|? ? Hi _]. discriminate Hi.
Qed.






(** *** Callbacks released are called *)

Lemma checkEmpty_log : forall s, log (fst (_checkEmpty s)) = log s.
Proof. intros s. unfold _checkEmpty. destruct (drained s); reflexivity. Qed.

Lemma onEmpty_log : forall cb s,
  log (fst (onEmpty cb s)) = Registered (fst cb) :: log s.
Proof.
  intros cb s. unfold onEmpty. cbv zeta.
  match goal with |- context [if ?c then _ else _] => destruct c end;
    [rewrite checkEmpty_log|]; reflexivity.
Qed.

Lemma step_times_fired : forall n i s,
  times KFired n (fst (step i s))
  = (times KFired n s + count n (fire_name i))%nat.
Proof.
  intros n [c|[name body]|] s.
  - cbn [fire_name count]. rewrite Nat.add_0_r.
    destruct c as [t p| | | |name body| |body]; cbn [step fst].
    + apply undisturbed_times; [auto|apply undisturbed_add].
    + apply undisturbed_times; [auto|apply undisturbed_start].
    + apply undisturbed_times; [auto|apply undisturbed_pause].
    + apply undisturbed_times; [auto|apply undisturbed_clear].
    + pose proof (onEmpty_log (name, body) s) as L.
      destruct (onEmpty (name, body) s) as [s' cbs]. cbn [fst] in *.
      unfold times. rewrite L. reflexivity.
    + reflexivity.
    + reflexivity.
  - cbn [step fst fire_name]. unfold times. cbn [log observe].
    rewrite seen_cons, count_app. cbn [obs_handle fst]. lia.
  - cbn [step fst fire_name count]. lia.
Qed.

(** Where nothing throws, every callback that [forEach] has to call is
    called before the job returns. *)
Lemma run_fires_work : forall n work s,
  calm_work work s ->
  (times KFired n s + in_work n work <= times KFired n (run work s))%nat.
Proof.
  intros n work s Hc.
  assert (H : (fun w' s' => calm_work w' s'
                            /\ (times KFired n s + in_work n work
                                <= times KFired n s' + in_work n w')%nat)
                [] (run work s)).
  { apply run_invariant; [| |cbn beta; split; [exact Hc|lia]].
    - intros i rest s0 _ [C0 H0]. cbn beta. split; [apply calm_step, C0|].
      rewrite step_times_fired, in_work_app. rewrite in_work_cons in H0. lia.
    - intros rest s0 [C0 _]. destruct (calm_never_throws rest s0 C0). }
  cbn beta in H. destruct H as [_ H].
  change (in_work n []) with 0%nat in H. lia.
Qed.




Lemma drained_size_pending : forall s,
  drained s = true <-> size s = 0%nat /\ pending s = 0.
Proof.
  intros s. unfold drained, size, pending. rewrite andb_true_iff.
  rewrite Nat.eqb_eq, Z.eqb_eq. tauto.
Qed.

(** *** Passive callbacks are only called on a drained queue *)
















(** * Further properties of the queue *)

(** ** Totals: every task admitted is accounted for *)

Lemma length_sort : forall l, length (sort l) = length l.
Proof. intros l. apply Permutation_length, sort_perm. Qed.

Ltac totals :=
  unfold totals_balance, total, size, pending in *;
  cbn [log queue running fresh chains
       observe set_queue set_running set_paused set_emptyCallbacks set_chains
       set_promises set_fresh dispatch enqueue finish begin_task pause] in *;
  rewrite ?seen_cons, ?seen_app, ?length_app, ?length_sort in *;
  rewrite ?length_app in *;
  cbn [obs_handle length] in *.

Lemma totals_balance_stable : stable totals_balance.
Proof.
  constructor.
  - intros t p s _ H. totals. lia.
  - intros e rest s Hq _ _ _ H. unfold totals_balance, size in H.
    rewrite Hq in H. totals. lia.
  - intros s _ H. totals. lia.
  - intros s _ H. totals. lia.
  - intros s _ H. rewrite clear_closed. totals.
    rewrite !seen_dropped. cbn [length]. rewrite length_rev, length_map. lia.
  - intros cbs s _ H. exact H.
  - intros name s _ H. totals. lia.
  - intros name sz pd s _ H. totals. lia.
  - intros h s _ _ H. totals. lia.
  - intros h o s Hst _ H. unfold settle. rewrite Hst. destruct o; totals; lia.
  - intros h s _ _ H. totals. lia.
Qed.

(** X1. In every state a queue reaches, the number of tasks admitted so far
    is the sum of the backlog length ([size]), of the number of tasks
    dispatched and of the number of tasks dropped by [clear]; and the number
    of tasks dispatched is the sum of the running count ([pending]) and of
    the number of tasks whose chain has finished.  In particular [pending]
    is never negative and counts the promise chains in flight. *)
Theorem admitted_tasks_are_accounted_for :
  forall (options : Options) (evs : list Event),
    let s := run_events evs (constructor options) in
    Z.of_nat (total KAccepted s)
    = Z.of_nat (size s) + pending s + Z.of_nat (total KFinished s)
      + Z.of_nat (total KDropped s)
    /\ Z.of_nat (total KDispatched s) = pending s + Z.of_nat (total KFinished s)
    /\ pending s = Z.of_nat (length (chains s))
    /\ 0 <= pending s.
Proof.
  intros options evs s.
  assert (Hr : reachable_from options s) by (exists evs; reflexivity).
  destruct (stable_reachable _ totals_balance_stable options s) as (T1 & T2 & T3);
    [repeat split; reflexivity|exact Hr|].
  destruct (coherent_reachable options s Hr) as (_ & _ & R).
  unfold pending in *. repeat split; lia.
Qed.

(** X2. The stages of an entry follow one another: in every state a queue
    reaches, the task of an entry has been called at most once, and only if
    the entry was dispatched; its promise has been settled only if the task
    was called; and its chain has finished only if the promise was
    settled. *)
Theorem task_stages_in_order :
  forall (options : Options) (evs : list Event) (h : nat),
    let s := run_events evs (constructor options) in
    (times KInvoked h s <= 1)%nat
    /\ (times KFinished h s <= times KSettled h s)%nat
    /\ (times KSettled h s <= times KInvoked h s)%nat
    /\ (times KInvoked h s <= times KDispatched h s)%nat
    /\ (times KDispatched h s <= times KAccepted h s)%nat
    /\ (times KAccepted h s = 1%nat <-> (h < fresh s)%nat).
Proof.
  intros options evs h s.
  assert (Hr : reachable_from options s) by (exists evs; reflexivity).
  pose proof (coherent_reachable options s Hr) as Hc.
  pose proof (lifecycle_bounds h s (proj1 Hc h)) as B.
  destruct (proj1 Hc h) as (L1 & L2 & L3 & L4 & L5).
  repeat split; try lia.
  - intros E. rewrite E in L1.
    destruct (h <? fresh s)%nat eqn:F; [apply Nat.ltb_lt; exact F|discriminate].
  - intros F. apply Nat.ltb_lt in F. rewrite F in L1. exact L1.
Qed.

(** ** The concurrency option *)

Lemma never_dispatching_stable : forall N,
  N < 0 ->
  stable (fun s => concurrency s = N /\ running s = 0 /\ chains s = []
                   /\ seen KDispatched (log s) = []
                   /\ seen KSettled (log s) = [] /\ promises s = []).
Proof.
  intros N HN. constructor.
  - intros t p s _ H. exact H.
  - intros e rest s _ Hlt _ _ (H1 & H2 & _). lia.
  - intros s _ H. exact H.
  - intros s _ H. exact H.
  - intros s _ (H1 & H2 & H3 & H4 & H5 & H6). rewrite clear_closed.
    cbn [concurrency running chains log promises].
    rewrite !seen_app, !seen_dropped, H4, H5. repeat split; assumption.
  - intros cbs s _ H. exact H.
  - intros name s _ H. exact H.
  - intros name sz pd s _ H. exact H.
  - intros h s Hst _ (_ & _ & H3 & _). rewrite H3 in Hst. discriminate.
  - intros h o s Hst _ (_ & _ & H3 & _). rewrite H3 in Hst. discriminate.
  - intros h s Hst _ (_ & _ & H3 & _). rewrite H3 in Hst. discriminate.
Qed.

(** X3. The limit of a queue is the option [concurrency] unless that is 0
    or missing, in which case it is 1; it is never 0 and never changes.  A
    negative option is kept as it is, and then the queue never dispatches
    anything: after any calls and events nothing has been dispatched,
    [pending] is 0, no promise has settled, and every task admitted is
    still in the backlog or was dropped by [clear]. *)
Theorem concurrency_option_edge_cases :
  forall (auto : option bool) (evs : list Event),
    (forall c,
        let s := run_events evs (constructor (mkOptions c auto)) in
        concurrency s = or_default c 1 /\ concurrency s <> 0)
    /\ run_events evs (constructor (mkOptions (Some 0) auto))
       = run_events evs (constructor (mkOptions None auto))
    /\ run_events evs (constructor (mkOptions (Some 0) auto))
       = run_events evs (constructor (mkOptions (Some 1) auto))
    /\ (forall N, N < 0 ->
        let s := run_events evs (constructor (mkOptions (Some N) auto)) in
        concurrency s = N
        /\ dispatch_order s = [] /\ pending s = 0 /\ chains s = []
        /\ (forall h, promise_state h (promises s) = None)
        /\ total KAccepted s = (size s + total KDropped s)%nat).
Proof.
  intros auto evs. split; [|split; [reflexivity|split; [reflexivity|]]].
  - intros c s.
    assert (E : concurrency s = or_default c 1).
    { apply (stable_run_events _ (concurrency_constant_stable (or_default c 1))).
      reflexivity. }
    split; [exact E|]. rewrite E. unfold or_default.
    destruct c as [v|]; [|discriminate].
    destruct (v =? 0) eqn:Ev; [discriminate|]. apply Z.eqb_neq. exact Ev.
  - intros N HN s.
    assert (H : concurrency s = N /\ running s = 0 /\ chains s = []
                /\ seen KDispatched (log s) = []
                /\ seen KSettled (log s) = [] /\ promises s = []).
    { apply (stable_run_events _ (never_dispatching_stable N HN)).
      cbn [constructor concurrency running chains log promises opt_concurrency seen
           flat_map].
      repeat split; try reflexivity.
      unfold or_default. destruct (N =? 0) eqn:E; [apply Z.eqb_eq in E; lia|reflexivity]. }
    destruct H as (H1 & H2 & H3 & H4 & H5 & H6).
    assert (Hr : reachable_from (mkOptions (Some N) auto) s) by (exists evs; reflexivity).
    destruct (stable_reachable _ totals_balance_stable
                (mkOptions (Some N) auto) s) as (T1 & T2 & T3);
      [repeat split; reflexivity|exact Hr|].
    unfold dispatch_order, pending, total in *. rewrite H4 in *.
    repeat split; auto.
    + intros h. rewrite H6. reflexivity.
    + simpl in T2. lia.
Qed.

Lemma concurrency_option_edge_cases_witness :
  (-3 < 0)
  /\ dispatch_order
       (run_events
          [EvCall (CallAdd 1%nat None); EvCall (CallAdd 2%nat (Some 9));
           EvCall CallStart; EvInvoke 0%nat]
          (constructor (mkOptions (Some (-3)) None))) = [].
Proof.
  assert (H : -3 < 0) by lia.
  exact (conj H
           (proj1 (proj2
              (proj2 (proj2 (proj2
                 (concurrency_option_edge_cases None
                    [EvCall (CallAdd 1%nat None); EvCall (CallAdd 2%nat (Some 9));
                     EvCall CallStart; EvInvoke 0%nat])))
                 (-3) H)))).
Defined.

(** ** Queues built with [autoStart: false] *)

Lemma trigger_burst : forall d l,
  trigger (rev (map dispatch_obs d) ++ l) = trigger l.
Proof.
  induction d as [|e d IH]; intros l; [reflexivity|].
  simpl. rewrite <- app_assoc. rewrite IH. reflexivity.
Qed.

(** The dispatches of one run of the loop, made right after [o]. *)
Lemma dispatched_burst : forall d l,
  starts_dispatch (trigger l) -> dispatched_on_start_or_finish l ->
  dispatched_on_start_or_finish (rev (map dispatch_obs d) ++ l).
Proof.
  induction d as [|e d IH]; intros l Ht Hl; [exact Hl|].
  simpl. rewrite <- app_assoc. apply IH; simpl; auto.
Qed.

Lemma dispatched_quiet : forall o l,
  obs_handle KDispatched o = [] ->
  dispatched_on_start_or_finish l -> dispatched_on_start_or_finish (o :: l).
Proof.
  intros o l Ho Hl. simpl. split; [|exact Hl]. destruct o; auto. discriminate.
Qed.

Lemma dispatched_dropped : forall q l,
  dispatched_on_start_or_finish l ->
  dispatched_on_start_or_finish (rev (map (fun e => Dropped (handle e)) q) ++ l).
Proof.
  intros q l Hl. revert l Hl. induction q as [|e q IH]; intros l Hl; simpl; [exact Hl|].
  rewrite <- app_assoc. apply IH. simpl. auto.
Qed.

Lemma process_log : forall s,
  exists d, log (_process s) = rev (map dispatch_obs d) ++ log s.
Proof.
  intros s. destruct (paused s) eqn:Hp.
  - rewrite process_paused by exact Hp. exists []. reflexivity.
  - rewrite process_closed by exact Hp. eexists. reflexivity.
Qed.

Lemma manual_start_reachable : forall options s,
  opt_autoStart options = Some false ->
  reachable_from options s ->
  autoStart s = false /\ dispatched_on_start_or_finish (log s).
Proof.
  intros options s Ho Hr.
  apply (reachable_invariant
           (fun s => autoStart s = false /\ dispatched_on_start_or_finish (log s)))
    with (options := options); try exact Hr.
  - intros t p s0 [Ha Hl]. rewrite add_unfold, Ha. simpl andb. cbv iota.
    split; [exact Ha|]. apply dispatched_quiet; [reflexivity|exact Hl].
  - intros s0 [Ha Hl]. unfold start.
    destruct (process_frame (set_paused false (observe StartCalled s0))) as (_ & F2 & _).
    split; [rewrite F2; exact Ha|].
    destruct (process_log (set_paused false (observe StartCalled s0))) as [d L].
    rewrite L. apply dispatched_burst; simpl; auto.
  - intros s0 [Ha Hl]. split; [exact Ha|]. apply dispatched_quiet; [reflexivity|exact Hl].
  - intros s0 [Ha Hl]. rewrite clear_closed. split; [exact Ha|].
    apply dispatched_dropped, Hl.
  - intros cb s0 [Ha Hl]. rewrite onEmpty_log. split.
    + unfold onEmpty, _checkEmpty. cbv zeta.
      repeat match goal with |- context [if ?c then _ else _] => destruct c end;
        exact Ha.
    + apply dispatched_quiet; [reflexivity|exact Hl].
  - intros name s0 [Ha Hl]. split; [exact Ha|].
    apply dispatched_quiet; [reflexivity|exact Hl].
  - intros h s0 [Ha Hl]. unfold invoke.
    destruct (stage_of h (chains s0)) as [[| |]|]; try (split; assumption).
    split; [exact Ha|]. apply dispatched_quiet; [reflexivity|exact Hl].
  - intros h o s0 [Ha Hl]. unfold settle.
    destruct (stage_of h (chains s0)) as [[| |]|]; try (split; assumption).
    split; [exact Ha|]. destruct o; apply dispatched_quiet; try reflexivity; exact Hl.
  - intros h s0 [Ha Hl].
    destruct (stage_of h (chains s0)) as [[| |]|] eqn:Est;
      try (unfold finally_; rewrite Est; split; assumption).
    rewrite finally_unfold by exact Est. rewrite checkEmpty_log.
    destruct (process_frame (finish h s0)) as (_ & F2 & _).
    split.
    + unfold _checkEmpty. destruct (drained (_process (finish h s0)));
        cbn [fst autoStart set_emptyCallbacks]; rewrite F2; exact Ha.
    + destruct (process_log (finish h s0)) as [d L]. rewrite L.
      apply dispatched_burst; simpl; auto.
  - unfold constructor. rewrite Ho. split; [reflexivity|exact I].
Qed.

(** X4. On a queue built with [autoStart: false], [add] never dispatches:
    it only puts the entry in the backlog, whether or not [start()] was
    called before and whether or not a slot is free.  Every dispatch such a
    queue ever makes is made by [start()] or by the last job of a task that
    finishes. *)
Theorem manual_start_queue_dispatches_on_start_or_finish :
  forall (options : Options) (evs : list Event),
    opt_autoStart options = Some false ->
    let s := run_events evs (constructor options) in
    dispatched_on_start_or_finish (log s)
    /\ (forall t p,
          let s' := react (EvCall (CallAdd t p)) s in
          s' = enqueue t p s
          /\ dispatch_order s' = dispatch_order s
          /\ running s' = running s /\ chains s' = chains s
          /\ size s' = S (size s)).
Proof.
  intros options evs Ho s.
  assert (Hr : reachable_from options s) by (exists evs; reflexivity).
  destruct (manual_start_reachable options s Ho Hr) as [Ha Hl].
  split; [exact Hl|]. intros t p s'. subst s'.
  rewrite react_add, add_unfold, Ha. simpl andb. cbv iota.
  split; [reflexivity|]. unfold size, dispatch_order.
  cbn [queue log running chains enqueue set_queue observe set_fresh].
  rewrite length_sort, length_app. simpl.
  repeat split; try reflexivity. lia.
Qed.

Lemma manual_start_queue_dispatches_on_start_or_finish_witness :
  opt_autoStart (mkOptions (Some 2) (Some false)) = Some false
  /\ dispatched_on_start_or_finish
       (log (run_events
               [EvCall (CallAdd 1%nat None); EvCall CallStart;
                EvCall (CallAdd 2%nat None)]
               (constructor (mkOptions (Some 2) (Some false))))).
Proof.
  exact (conj eq_refl
           (proj1 (manual_start_queue_dispatches_on_start_or_finish
                     (mkOptions (Some 2) (Some false))
                     [EvCall (CallAdd 1%nat None); EvCall CallStart;
                      EvCall (CallAdd 2%nat None)] eq_refl))).
Defined.

(** ** [clear] and the drain callbacks *)

(** X5. [clear()] never calls a drain callback, even when it leaves the
    queue drained (nothing running): the callbacks that were waiting are
    still waiting after it.  The next [onEmpty] registration releases them
    together with the callback registered then, and calls them all when
    the callbacks cannot throw. *)
Theorem clear_does_not_notify_drain :
  forall (options : Options) (evs : list Event),
    let s := run_events evs (constructor options) in
    let s1 := react (EvCall CallClear) s in
    emptyCallbacks s1 = emptyCallbacks s
    /\ (forall n, times KFired n s1 = times KFired n s
                  /\ waiting n s1 = waiting n s)
    /\ (running s = 0 ->
        drained s1 = true
        /\ forall n body,
             snd (onEmpty (n, body) s1) = emptyCallbacks s ++ [(n, body)]
             /\ (Forall calm_callback (emptyCallbacks s ++ [(n, body)]) ->
                 forall n',
                   (times KFired n' s + waiting n' s
                    + (if Nat.eqb n n' then 1 else 0)
                    <= times KFired n' (react (EvCall (CallOnEmpty n body)) s1))%nat)).
Proof.
  intros options evs s s1.
  assert (E1 : s1 = clear s) by apply react_clear.
  pose proof (undisturbed_clear s) as U. rewrite <- E1 in U.
  split; [apply U|]. split.
  { intros n. split; [apply undisturbed_times; auto|apply undisturbed_waiting; exact U]. }
  intros Hrun.
  assert (D : drained s1 = true).
  { rewrite E1. destruct (clear_fields s) as (_ & _ & F3 & F4 & _).
    unfold drained. rewrite F3, F4, Hrun. reflexivity. }
  split; [exact D|]. intros n body.
  rewrite onEmpty_drained by exact D. cbn [snd]. rewrite (proj1 U).
  split; [reflexivity|]. intros Hc n'.
  cbn [react]. rewrite run_cons by discriminate. rewrite step_onEmpty, onEmpty_drained by exact D.
  cbn [fst snd]. rewrite app_nil_r.
  set (r := set_emptyCallbacks [] (observe (Registered n) s1)).
  assert (C : calm_work (map Fire (emptyCallbacks s1 ++ [(n, body)])) r).
  { split; [|constructor]. apply calm_batch. rewrite (proj1 U). exact Hc. }
  pose proof (run_fires_work n' _ r C) as F.
  rewrite in_work_Fire, map_app, count_app in F. cbn [map fst count] in F.
  change (times KFired n' r) with (times KFired n' s1) in F.
  rewrite (undisturbed_times KFired n' s s1) in F by auto.
  rewrite <- (undisturbed_waiting n' s s1 U). unfold waiting.
  unfold Callback in *. destruct (Nat.eqb n n'); lia.
Qed.

Lemma clear_does_not_notify_drain_witness :
  let s := run_events
             [EvCall CallPause; EvCall (CallAdd 1%nat None);
              EvCall (CallOnEmpty 5%nat [])]
             (constructor (mkOptions None None)) in
  let s1 := react (EvCall CallClear) s in
  running s = 0
  /\ drained s1 = true
  /\ emptyCallbacks s1 = emptyCallbacks s.
Proof.
  intros s s1.
  pose proof (clear_does_not_notify_drain (mkOptions None None)
                [EvCall CallPause; EvCall (CallAdd 1%nat None);
                 EvCall (CallOnEmpty 5%nat [])]) as H.
  cbv zeta in H. fold s in H. fold s1 in H.
  destruct H as (H1 & _ & H3).
  assert (R : running s = 0) by (vm_compute; reflexivity).
  split; [exact R|]. split; [exact (proj1 (H3 R))|exact H1].
Defined.

(** ** Highest priority first *)

Lemma dispatch_is_highest : forall e rest s,
  queue s = e :: rest -> coherent s -> backlog_ordered s ->
  forall ha pa, In (Accepted ha pa) (log s) -> priority e < pa ->
                In ha (seen KDispatched (log s)) \/ In ha (seen KDropped (log s)).
Proof.
  intros e rest s Hq Hc [Hs Hp] ha pa Hacc Hlt.
  destruct (proj1 Hc ha) as (L1 & L2 & _).
  pose proof (lifecycle_bounds ha s (proj1 Hc ha)) as B.
  assert (A1 : (1 <= times KAccepted ha s)%nat).
  { apply count_In. apply (In_seen KAccepted (Accepted ha pa)); simpl; auto. }
  destruct (Nat.eq_dec (in_backlog ha s) 0) as [Z0|NZ].
  - destruct (Nat.eq_dec (times KDispatched ha s) 0) as [Z1|NZ1].
    + right. apply count_In. unfold times in *. lia.
    + left. apply count_In. unfold times in *. lia.
  - exfalso.
    destruct (in_backlog_split ha s) as (q1 & a & q2 & Hqa & Ha); [lia|].
    assert (Hin : In a (queue s)) by (rewrite Hqa; apply in_or_app; right; left; reflexivity).
    assert (Hpa : In (Accepted (handle a) (priority a)) (log s)) by (apply Hp, Hin).
    assert (Epa : priority a = pa).
    { rewrite Ha in Hpa.
      apply (accepted_priority_unique ha _ _ (log s)); auto.
      unfold times in B. lia. }
    rewrite Hq in Hin, Hs. destruct Hin as [Hin|Hin]; [subst a; lia|].
    inversion Hs as [|? ? _ Hall]; subst.
    rewrite Forall_forall in Hall. specialize (Hall a Hin).
    unfold ahead in Hall. lia.
Qed.

Lemma highest_first_quiet : forall o l,
  obs_handle KDispatched o = [] -> highest_first_log l -> highest_first_log (o :: l).
Proof.
  intros o l Ho Hl. simpl. split; [|exact Hl]. destruct o; auto. discriminate.
Qed.

Lemma highest_first_dropped : forall q l,
  highest_first_log l ->
  highest_first_log (rev (map (fun e => Dropped (handle e)) q) ++ l).
Proof.
  intros q l Hl. revert l Hl. induction q as [|e q IH]; intros l Hl; simpl; [exact Hl|].
  rewrite <- app_assoc. apply IH. simpl. auto.
Qed.

Lemma highest_first_stable :
  stable_under (fun s => coherent s /\ backlog_ordered s /\ fifo_log (log s))
               (fun s => highest_first_log (log s)).
Proof.
  constructor.
  - intros t p s _ H. apply highest_first_quiet; [reflexivity|exact H].
  - intros e rest s Hq _ _ (Hc & Ho & _) H.
    cbn [log dispatch observe highest_first_log]. split; [|exact H].
    cbn [log set_chains set_running set_queue].
    apply (dispatch_is_highest e rest s Hq Hc Ho).
  - intros s _ H. apply highest_first_quiet; [reflexivity|exact H].
  - intros s _ H. apply highest_first_quiet; [reflexivity|exact H].
  - intros s _ H. rewrite clear_closed. cbn [log]. apply highest_first_dropped, H.
  - intros cbs s _ H. exact H.
  - intros name s _ H. apply highest_first_quiet; [reflexivity|exact H].
  - intros name sz pd s _ H. apply highest_first_quiet; [reflexivity|exact H].
  - intros h s _ _ H. apply highest_first_quiet; [reflexivity|exact H].
  - intros h o s Hst _ H. unfold settle. rewrite Hst.
    destruct o; apply highest_first_quiet; try reflexivity; exact H.
  - intros h s _ _ H. apply highest_first_quiet; [reflexivity|exact H].
Qed.

(** X6. Highest priority first: in every state a queue reaches, whenever an
    entry was dispatched, every entry admitted before that moment with a
    strictly higher priority had already been dispatched or dropped by
    [clear]; none was waiting in the backlog.  Accordingly the head of the
    backlog has the highest priority of the backlog. *)
Theorem dispatch_serves_highest_priority_first :
  forall (options : Options) (evs : list Event),
    let s := run_events evs (constructor options) in
    highest_first_log (log s)
    /\ (forall e rest x,
          queue s = e :: rest -> In x rest -> priority x <= priority e).
Proof.
  intros options evs s.
  assert (Hr : reachable_from options s) by (exists evs; reflexivity).
  pose proof (stable_reachable _
                (stable_and _ _
                   (stable_and _ _ coherent_stable served_in_order_stable)
                   highest_first_stable) options s) as H.
  destruct H as [(Hc & [Hs _] & _) Hh]; [|exact Hr|].
  { split; [split; [apply coherent_constructor|]|exact I].
    split; [split; [constructor|intros e []]|exact I]. }
  split; [exact Hh|].
  intros e rest x Hq Hx. rewrite Hq in Hs. inversion Hs as [|? ? _ Hall]; subst.
  rewrite Forall_forall in Hall. specialize (Hall x Hx). unfold ahead in Hall. lia.
Qed.

(** ** Composition of [start] and [pause] *)

(** The dispatch loop does nothing when the backlog is empty or no slot is
    free. *)
Lemma process_idle : forall s,
  queue s = [] \/ concurrency s <= running s -> _process s = s.
Proof.
  intros s H. unfold _process. destruct (paused s); [reflexivity|].
  destruct (queue s) as [|e rest]; [reflexivity|].
  destruct H as [H|H]; [discriminate|].
  simpl. destruct (running s <? concurrency s) eqn:E; [|reflexivity].
  apply Z.ltb_lt in E. lia.
Qed.

(** X7. [start()] is idempotent: a second [start()] right after a first one
    dispatches nothing and leaves the backlog, the running count, the
    promise chains, the flags, the callbacks and the promises as the first
    one left them.  This holds in every state, reachable or not. *)
Theorem start_twice_is_start_once :
  forall s : AsyncQueue,
    let s1 := start s in
    let s2 := start s1 in
    queue s2 = queue s1 /\ running s2 = running s1 /\ chains s2 = chains s1
    /\ paused s2 = false /\ paused s1 = false
    /\ emptyCallbacks s2 = emptyCallbacks s1 /\ promises s2 = promises s1
    /\ dispatch_order s2 = dispatch_order s1
    /\ log s2 = StartCalled :: log s1.
Proof.
  intros s s1 s2.
  assert (Hp1 : paused s1 = false).
  { subst s1. unfold start.
    destruct (process_frame (set_paused false (observe StartCalled s))) as (_ & _ & F).
    rewrite F. reflexivity. }
  assert (Hsat : queue s1 = [] \/ concurrency s1 <= running s1).
  { subst s1. unfold start. apply process_saturates. reflexivity. }
  assert (E : s2 = set_paused false (observe StartCalled s1)).
  { subst s2. unfold start. apply process_idle. exact Hsat. }
  rewrite E. unfold dispatch_order. cbn [queue running chains paused emptyCallbacks
    promises log set_paused observe]. rewrite seen_cons. cbn [obs_handle app].
  repeat split; auto.
Qed.

(** X8. On a queue that dispatches on admission and is not paused,
    [pause()] immediately followed by [start()] changes nothing but the
    log: nothing is dispatched, and the backlog, the running count, the
    chains, the flag, the callbacks and the promises are as before. *)
Theorem pause_then_start_changes_nothing :
  forall (options : Options) (evs : list Event),
    let s := run_events evs (constructor options) in
    let s2 := run_events [EvCall CallPause; EvCall CallStart] s in
    autoStart s = true -> paused s = false ->
    isPaused (react (EvCall CallPause) s) = true
    /\ queue s2 = queue s /\ running s2 = running s /\ chains s2 = chains s
    /\ paused s2 = paused s
    /\ emptyCallbacks s2 = emptyCallbacks s /\ promises s2 = promises s
    /\ dispatch_order s2 = dispatch_order s.
Proof.
  intros options evs s s2 Ha Hp.
  assert (Hr : reachable_from options s) by (exists evs; reflexivity).
  pose proof (eager_reachable options s Hr Ha Hp) as He.
  subst s2. cbn [run_events fold_left]. rewrite react_pause, react_start.
  assert (E : start (pause s) = set_paused false (observe StartCalled (pause s))).
  { unfold start. apply process_idle. exact He. }
  rewrite E. unfold dispatch_order, isPaused.
  cbn [queue running chains paused emptyCallbacks promises log set_paused observe pause].
  rewrite !seen_cons. cbn [obs_handle app].
  repeat split; auto.
Qed.

Lemma pause_then_start_changes_nothing_witness :
  let s := run_events [EvCall (CallAdd 1%nat None); EvCall (CallAdd 2%nat None)]
             (constructor (mkOptions None None)) in
  let s2 := run_events [EvCall CallPause; EvCall CallStart] s in
  queue s2 = queue s /\ running s2 = running s /\ chains s2 = chains s.
Proof.
  intros s s2.
  pose proof (pause_then_start_changes_nothing (mkOptions None None)
                [EvCall (CallAdd 1%nat None); EvCall (CallAdd 2%nat None)]) as H.
  cbv zeta in H. fold s in H. fold s2 in H.
  assert (Ha : autoStart s = true) by (vm_compute; reflexivity).
  assert (Hp : paused s = false) by (vm_compute; reflexivity).
  destruct (H Ha Hp) as (_ & H1 & H2 & H3 & _).
  split; [exact H1|]. split; [exact H2|exact H3].
Defined.

(** ** Order of the drain callbacks *)

(** A batch of callbacks that make no call and do not throw: each one is
    called, in the order of the array, and the queue is otherwise
    untouched. *)
Lemma run_silent_batch : forall cbs s,
  Forall silent_callback cbs ->
  run (map Fire cbs) s
  = mkQueue (concurrency s) (autoStart s) (queue s) (running s) (paused s)
            (emptyCallbacks s) (chains s) (promises s) (fresh s)
            (rev (map (fired_obs s) cbs) ++ log s).
Proof.
  induction cbs as [|[n b] cbs IH]; intros s Hp.
  - rewrite run_nil. destruct s; reflexivity.
  - inversion Hp as [|? ? Hb Hrest]; subst.
    unfold silent_callback in Hb. simpl in Hb. subst b.
    cbn [map]. rewrite run_cons by discriminate. cbn [step fst snd map app].
    rewrite IH by exact Hrest.
    cbn [concurrency autoStart queue running paused emptyCallbacks chains
         promises fresh log observe rev map].
    f_equal. rewrite <- app_assoc. reflexivity.
Qed.

(** X9. Drain callbacks are called in the order of their registration.
    When the last job of the last running task finds the backlog empty, the
    waiting callbacks, if none of them calls back into the queue or throws,
    are called one after the other in registration order, each once, each
    seeing [size = 0] and [pending = 0], and none is left waiting; the same
    happens when [onEmpty] is called on a drained queue, the callback just
    registered being called last. *)
Theorem drain_callbacks_run_in_registration_order :
  (forall (s : AsyncQueue) (h : nat),
      stage_of h (chains s) = Some Settled ->
      queue s = [] -> running s = 1 ->
      Forall silent_callback (emptyCallbacks s) ->
      let s' := react (EvFinally h) s in
      log s'
      = rev (map (fun cb => Fired (fst cb) 0%nat 0) (emptyCallbacks s))
        ++ Finished h :: log s
      /\ emptyCallbacks s' = [] /\ size s' = 0%nat /\ pending s' = 0)
  /\ (forall (s : AsyncQueue) (n : nat),
        drained s = true ->
        Forall silent_callback (emptyCallbacks s) ->
        let s' := react (EvCall (CallOnEmpty n [])) s in
        log s'
        = rev (map (fun cb => Fired (fst cb) 0%nat 0)
                 (emptyCallbacks s ++ [(n, [])]))
          ++ Registered n :: log s
        /\ emptyCallbacks s' = []).
Proof.
  split.
  - intros s h Hst Hq Hrun Hp s'. subst s'. cbn [react].
    rewrite finally_unfold by exact Hst.
    rewrite process_empty by exact Hq.
    assert (D : drained (finish h s) = true).
    { apply drained_size_pending. unfold size, pending.
      cbn [queue running finish set_running observe set_chains].
      rewrite Hq, Hrun. split; reflexivity. }
    unfold _checkEmpty. rewrite D.
    rewrite run_silent_batch by exact Hp.
    assert (Ef : forall cb,
               fired_obs (fst (set_emptyCallbacks [] (finish h s), emptyCallbacks s)) cb
               = Fired (fst cb) 0%nat 0).
    { intros cb. unfold fired_obs, size, pending.
      cbn [fst queue running finish set_running observe set_chains set_emptyCallbacks].
      rewrite Hq, Hrun. reflexivity. }
    rewrite (map_ext _ _ Ef).
    unfold size, pending.
    cbn [fst snd log emptyCallbacks queue running finish set_running observe
         set_chains set_emptyCallbacks].
    rewrite Hq, Hrun. repeat split; reflexivity.
  - intros s n D Hp s'. subst s'. cbn [react].
    rewrite run_cons by discriminate. rewrite step_onEmpty, onEmpty_drained by exact D.
    cbn [fst snd]. rewrite app_nil_r.
    rewrite run_silent_batch
      by (apply Forall_app; split; [exact Hp|constructor; [reflexivity|constructor]]).
    apply drained_size_pending in D. destruct D as [D1 D2].
    assert (Ef : forall cb,
               fired_obs (set_emptyCallbacks [] (observe (Registered (fst (n, @nil Call))) s)) cb
               = Fired (fst cb) 0%nat 0).
    { intros cb. unfold fired_obs. 
      change (size (set_emptyCallbacks [] (observe (Registered (fst (n, @nil Call))) s)))
        with (size s).
      change (pending (set_emptyCallbacks [] (observe (Registered (fst (n, @nil Call))) s)))
        with (pending s).
      rewrite D1, D2. reflexivity. }
    rewrite (map_ext _ _ Ef).
    cbn [fst log emptyCallbacks set_emptyCallbacks observe].
    split; reflexivity.
Qed.

Lemma drain_callbacks_run_in_registration_order_witness :
  let s := run_events
             [EvCall (CallAdd 1%nat None); EvCall (CallOnEmpty 7%nat []);
              EvCall (CallOnEmpty 8%nat []); EvInvoke 0%nat;
              EvOutcome 0%nat (Fulfilled 2)]
             (constructor (mkOptions None None)) in
  log (react (EvFinally 0%nat) s)
  = rev (map (fun cb => Fired (fst cb) 0%nat 0) (emptyCallbacks s))
    ++ Finished 0%nat :: log s.
Proof.
  intros s.
  assert (H1 : stage_of 0%nat (chains s) = Some Settled) by (vm_compute; reflexivity).
  assert (H2 : queue s = []) by (vm_compute; reflexivity).
  assert (H3 : running s = 1) by (vm_compute; reflexivity).
  assert (H4 : Forall silent_callback (emptyCallbacks s)).
  { vm_compute. repeat constructor. }
  exact (proj1 (proj1 drain_callbacks_run_in_registration_order s 0%nat H1 H2 H3 H4)).
Defined.

(** ** What [add] returns *)

Lemma add_log : forall t p s,
  exists d,
    log (add t p s)
    = rev (map dispatch_obs d) ++ Accepted (fresh s) (or_default p 1) :: log s
    /\ fresh (add t p s) = S (fresh s).
Proof.
  intros t p s. rewrite add_unfold.
  destruct (autoStart s && negb (paused s)).
  - destruct (paused (enqueue t p s)) eqn:Hp.
    + rewrite process_paused by exact Hp. exists []. split; reflexivity.
    + rewrite process_closed by exact Hp. eexists. split; reflexivity.
  - exists []. split; reflexivity.
Qed.

(** X10. [add] never runs a task nor settles a promise before it returns:
    the promise it returns is a new one, pending when [add] returns, and the
    task has not been called yet, even when its entry was dispatched inside
    [add]; the entry is then either in the backlog or dispatched with its
    first job still to run. *)
Theorem add_returns_a_pending_promise :
  forall (options : Options) (evs : list Event) (t : Task) (p : option Z),
    let s := run_events evs (constructor options) in
    let s' := react (EvCall (CallAdd t p)) s in
    let h := fresh s in
    fresh s' = S h
    /\ times KAccepted h s = 0%nat /\ times KAccepted h s' = 1%nat
    /\ times KInvoked h s' = 0%nat /\ times KSettled h s' = 0%nat
    /\ promise_state h (promises s') = None
    /\ (in_backlog h s' + in_flight Scheduled h s' = 1)%nat
    /\ (forall h', times KInvoked h' s' = times KInvoked h' s
                   /\ times KSettled h' s' = times KSettled h' s
                   /\ promise_state h' (promises s') = promise_state h' (promises s)).
Proof.
  intros options evs t p s s' h.
  assert (Hr : reachable_from options s) by (exists evs; reflexivity).
  assert (Hr' : reachable_from options s')
    by (apply (reachable_extend options [EvCall (CallAdd t p)] s Hr)).
  pose proof (coherent_reachable options s Hr) as Hc.
  pose proof (coherent_reachable options s' Hr') as Hc'.
  assert (E : s' = add t p s) by apply react_add.
  destruct (add_log t p s) as (d & L & F). rewrite <- E in L, F.
  assert (Same : forall k h', k <> KDispatched -> k <> KAccepted ->
                              times k h' s' = times k h' s).
  { intros k h' K1 K2. unfold times. rewrite L, seen_app, seen_cons, count_app.
    rewrite seen_dispatch_obs by exact K1.
    destruct k; try reflexivity; contradiction. }
  destruct (proj1 Hc h) as (L1 & L2 & L3 & L4 & L5).
  destruct (proj1 Hc' h) as (M1 & M2 & M3 & M4 & M5).
  assert (Hlt : (h <? fresh s)%nat = false) by (apply Nat.ltb_irrefl).
  assert (Hlt' : (h <? fresh s')%nat = true) by (rewrite F; apply Nat.ltb_lt; lia).
  rewrite Hlt in L1. rewrite Hlt' in M1.
  pose proof (Same KInvoked h) as S1. pose proof (Same KSettled h) as S2.
  pose proof (Same KDropped h) as S3.
  assert (I0 : times KInvoked h s' = 0%nat) by (rewrite S1 by discriminate; lia).
  assert (Z0 : times KSettled h s' = 0%nat) by (rewrite S2 by discriminate; lia).
  assert (D0 : times KDropped h s' = 0%nat) by (rewrite S3 by discriminate; lia).
  split; [exact F|]. split; [exact L1|]. split; [exact M1|].
  split; [exact I0|]. split; [exact Z0|]. split.
  { rewrite (proj1 (proj2 Hc') h). apply log_outcome_pending. exact Z0. }
  split; [lia|].
  intros h'. split; [apply Same; discriminate|]. split; [apply Same; discriminate|].
  rewrite (proj1 (proj2 Hc') h'), (proj1 (proj2 Hc) h').
  rewrite L. clear. induction d as [|e d IH].
  - simpl. destruct (log_outcome h' (log s)); reflexivity.
  - simpl. rewrite <- app_assoc. simpl.
    assert (G : forall l1 l2,
               log_outcome h' (l1 ++ dispatch_obs e :: l2) = log_outcome h' (l1 ++ l2)).
    { induction l1 as [|o l1 IH1]; intros l2; simpl.
      - destruct (log_outcome h' l2); reflexivity.
      - rewrite IH1. reflexivity. }
    rewrite G. exact IH.
Qed.

(** ** A drain callback that throws *)

Lemma unwind_no_try : forall work,
  Forall (fun i => i <> EndTry) work -> unwind work = [].
Proof.
  intros work H. induction H as [|i work Hi _ IH]; [reflexivity|].
  destruct i; [exact IH|exact IH|contradiction].
Qed.

Lemma no_try_in_batch : forall body (rest : list Callback),
  Forall (fun i => i <> EndTry) (map Do body ++ map Fire rest).
Proof.
  intros body rest. apply Forall_app. split; apply Forall_map, Forall_forall;
    intros x _; discriminate.
Qed.

(** A batch whose first callback throws at once: that callback is called,
    the others are not. *)
Lemma run_throwing_batch : forall name body rest s,
  run (map Fire ((name, CallThrow :: body) :: rest)) s
  = observe (Fired name (size s) (pending s)) s.
Proof.
  intros name body rest s. cbn [map].
  rewrite run_cons by discriminate. cbn [step fst snd map app].
  rewrite run_throw, unwind_no_try by apply no_try_in_batch.
  apply run_nil.
Qed.

(** X11. The queue calls its drain callbacks with no handler around the
    calls, after it has emptied [emptyCallbacks]: when the first callback of
    a batch throws, the callbacks behind it are not called and are no
    longer registered.  This holds for the batch released by the last job
    of the last running task, and for the one released by [onEmpty] on a
    drained queue, where the callback just registered is lost with the
    others. *)
Theorem throwing_callback_loses_rest_of_batch :
  (forall (s : AsyncQueue) (h name : nat) (body : list Call)
          (rest : list Callback),
      stage_of h (chains s) = Some Settled ->
      queue s = [] -> running s = 1 ->
      emptyCallbacks s = (name, CallThrow :: body) :: rest ->
      let s' := react (EvFinally h) s in
      log s' = Fired name 0%nat 0 :: Finished h :: log s
      /\ emptyCallbacks s' = [] /\ size s' = 0%nat /\ pending s' = 0)
  /\ (forall (s : AsyncQueue) (name : nat) (body : list Call)
             (rest : list Callback) (n : nat) (b : list Call),
        drained s = true ->
        emptyCallbacks s = (name, CallThrow :: body) :: rest ->
        let s' := react (EvCall (CallOnEmpty n b)) s in
        log s' = Fired name 0%nat 0 :: Registered n :: log s
        /\ emptyCallbacks s' = []).
Proof.
  split.
  - intros s h name body rest Hst Hq Hrun E s'. subst s'. cbn [react].
    rewrite finally_unfold by exact Hst.
    rewrite process_empty by exact Hq.
    assert (D : drained (finish h s) = true).
    { apply drained_size_pending. unfold size, pending.
      cbn [queue running finish set_running observe set_chains].
      rewrite Hq, Hrun. split; reflexivity. }
    unfold _checkEmpty. rewrite D.
    change (emptyCallbacks (finish h s)) with (emptyCallbacks s). rewrite E.
    rewrite run_throwing_batch.
    unfold size, pending.
    cbn [log emptyCallbacks queue running finish set_running observe
         set_chains set_emptyCallbacks].
    rewrite Hq, Hrun. repeat split; reflexivity.
  - intros s name body rest n b D E s'. subst s'. cbn [react].
    rewrite run_cons by discriminate.
    rewrite step_onEmpty, onEmpty_drained by exact D.
    cbn [fst snd]. rewrite app_nil_r, E. cbn [app].
    rewrite run_throwing_batch.
    apply drained_size_pending in D. destruct D as [D1 D2].
    unfold size, pending in *.
    cbn [log emptyCallbacks queue running observe set_emptyCallbacks fst].
    rewrite D1, D2. split; reflexivity.
Qed.

Lemma throwing_callback_loses_rest_of_batch_witness :
  let s := run_events
             [EvCall (CallAdd 1%nat None);
              EvCall (CallOnEmpty 7%nat [CallThrow]);
              EvCall (CallOnEmpty 8%nat []); EvInvoke 0%nat;
              EvOutcome 0%nat (Fulfilled 2)]
             (constructor (mkOptions None None)) in
  waiting 8%nat s = 1%nat
  /\ log (react (EvFinally 0%nat) s)
     = Fired 7%nat 0%nat 0 :: Finished 0%nat :: log s
  /\ emptyCallbacks (react (EvFinally 0%nat) s) = [].
Proof.
  intros s.
  assert (H0 : waiting 8%nat s = 1%nat) by (vm_compute; reflexivity).
  assert (H1 : stage_of 0%nat (chains s) = Some Settled) by (vm_compute; reflexivity).
  assert (H2 : queue s = []) by (vm_compute; reflexivity).
  assert (H3 : running s = 1) by (vm_compute; reflexivity).
  assert (H4 : emptyCallbacks s = (7%nat, CallThrow :: []) :: [(8%nat, [])])
    by (vm_compute; reflexivity).
  pose proof (proj1 throwing_callback_loses_rest_of_batch s 0%nat 7%nat []
                [(8%nat, [])] H1 H2 H3 H4) as H.
  cbv zeta in H. destruct H as (K1 & K2 & _).
  split; [exact H0|]. split; [exact K1|exact K2].
Defined.

